(** * The OpenAI proxy function (netlify/functions/openai-proxy.js)

    A shallow embedding of [exports.handler] together with the parts of the
    JavaScript runtime it calls: [JSON.parse], [JSON.stringify], string
    equality, [process.env], [fetch] and [console.error].

    - JavaScript strings are sequences of UTF-16 code units ([jstring]).
    - JavaScript numbers are IEEE-754 binary64 values ([spec_float] of the
      standard library, with [prec = 53] and [emax = 1024]).
    - The values [JSON.parse] builds are the inductive type [value]; an object
      keeps its properties in the order [JSON.stringify] enumerates them.
    - [fetch] is an oracle of the platform: a function from the request the
      handler issues to what the network answers.
    - Effects (calls of [fetch], lines of [console.error]) are recorded in a
      trace by a small writer-and-exception monad.

    The handler is embedded twice.  [handler] is a function of the platform
    it runs on, for an engine whose stack is deep enough for the values of
    the invocation: [JSON.stringify] is total there.  [Process.handler] is a
    program over the state of the process, and keeps the RangeError that
    [JSON.stringify] throws on a value that nests too deep for the stack of
    the engine.  [process_handler_platform] relates the two.  Memory is not
    bounded in either. *)

From Stdlib Require Import ZArith NArith List String Ascii Bool Lia Sorted.
From Stdlib Require Import Floats.SpecFloat.
Import ListNotations.

Local Open Scope Z_scope.

(** ** Strings *)

(** A code unit.  The runtime keeps them below 65536; nothing here needs the
    bound. *)
Definition code_unit := N.

(** A JavaScript string. *)
Definition jstring := list code_unit.

(** A string literal of the source, as code units. *)
Definition js (s : string) : jstring :=
  map N_of_ascii (list_ascii_of_string s).

(** Equality of code units. *)
Definition unit_eqb (a b : code_unit) : bool := N.eqb a b.

Arguments unit_eqb (a b)%_N.

(** [===] on two strings. *)
Fixpoint jstring_eqb (a b : jstring) : bool :=
  match a, b with
  | [], [] => true
  | x :: a', y :: b' => unit_eqb x y && jstring_eqb a' b'
  | _, _ => false
  end.

(** The characters the JSON grammar names. *)
Module Ch.
Definition tab : code_unit := 9%N.
Definition lf : code_unit := 10%N.
Definition cr : code_unit := 13%N.
Definition space : code_unit := 32%N.
Definition quote : code_unit := 34%N.
Definition plus : code_unit := 43%N.
Definition comma : code_unit := 44%N.
Definition minus : code_unit := 45%N.
Definition dot : code_unit := 46%N.
Definition slash : code_unit := 47%N.
Definition zero : code_unit := 48%N.
Definition colon : code_unit := 58%N.
Definition upper_e : code_unit := 69%N.
Definition lbracket : code_unit := 91%N.
Definition backslash : code_unit := 92%N.
Definition rbracket : code_unit := 93%N.
Definition lower_b : code_unit := 98%N.
Definition lower_e : code_unit := 101%N.
Definition lower_f : code_unit := 102%N.
Definition lower_n : code_unit := 110%N.
Definition lower_r : code_unit := 114%N.
Definition lower_t : code_unit := 116%N.
Definition lower_u : code_unit := 117%N.
Definition lbrace : code_unit := 123%N.
Definition rbrace : code_unit := 125%N.
End Ch.

(** ** Decimal digits *)

(** The characters [0] to [9]. *)
Definition is_digit (c : code_unit) : bool := (48 <=? c)%N && (c <=? 57)%N.

(** The value of a digit, and the digit of a value. *)
Definition digit_value (c : code_unit) : Z := Z.of_N c - 48.

Definition digit_char (d : Z) : code_unit := Z.to_N (d + 48).

(** The value of a run of decimal digits, most significant first. *)
Definition digits_value (ds : list code_unit) : Z :=
  fold_left (fun acc c => 10 * acc + digit_value c) ds 0.

(** The decimal digits of a positive integer, most significant first. The
    recursion follows the binary size of the number, which bounds the number
    of its decimal digits. *)
Fixpoint digits_loop (fuel : nat) (n : Z) (acc : list code_unit) : list code_unit :=
  match fuel with
  | O => acc
  | S fuel' =>
      if n <? 10 then digit_char n :: acc
      else digits_loop fuel' (n / 10) (digit_char (n mod 10) :: acc)
  end.

(** The decimal numeral of [p]. *)
Definition digits_of_pos (p : positive) : list code_unit :=
  digits_loop (Pos.size_nat p) (Z.pos p) [].

(** ** Numbers: binary64 *)

(** The precision and the exponent bound of binary64. *)
Definition prec : Z := 53.
Definition emax : Z := 1024.

(** A Number.  Those [JSON.parse] builds are zeros, finite values in the
    canonical form of the format, and infinities. *)
Definition number := spec_float.

(** The same Number, sign of zero included ([Object.is]). *)
Definition number_eqb (x y : number) : bool :=
  match x, y with
  | S754_zero a, S754_zero b => Bool.eqb a b
  | S754_infinity a, S754_infinity b => Bool.eqb a b
  | S754_nan, S754_nan => true
  | S754_finite a m e, S754_finite b m' e' =>
      Bool.eqb a b && Pos.eqb m m' && Z.eqb e e'
  | _, _ => false
  end.

(** [Number.isFinite] *)
Definition is_finite (x : number) : bool :=
  match x with
  | S754_zero _ | S754_finite _ _ _ => true
  | _ => false
  end.

(** The Number value of the mathematical value [m * 10^e] with sign [neg]:
    round to nearest, ties to even; an overflow gives an infinity (ECMAScript,
    "the Number value for x"). *)
Definition number_of_decimal (neg : bool) (m : Z) (e : Z) : number :=
  match m with
  | Z.pos p =>
      if 0 <=? e then binary_round prec emax neg (p * Z.to_pos (10 ^ e)) 0
      else SFdiv prec emax (S754_finite neg p 0)
                           (S754_finite false (Z.to_pos (10 ^ (- e))) 0)
  | _ => S754_zero neg
  end.

(** *** Number::toString

    For a finite non-zero [x], ECMAScript asks for integers [n], [k], [s] with
    [k >= 1], [10^(k-1) <= s < 10^k], [s * 10^(n-k)] having Number value [x],
    and [k] as small as possible; among several [s] the one whose decimal is
    closest to [x], and the even one when two are equally close. *)

(** The positive value [m * 2^e] as a fraction. *)
Definition fraction_of (m : positive) (e : Z) : Z * Z :=
  if 0 <=? e then (Z.pos m * 2 ^ e, 1) else (Z.pos m, 2 ^ (- e)).

(** The least [j >= 1] with [q <= p * 10^j], for [0 < p < q]. *)
Fixpoint leading_shift (fuel : nat) (p q : Z) (j : Z) : Z :=
  match fuel with
  | O => j
  | S fuel' => if q <=? p * 10 ^ j then j else leading_shift fuel' p q (j + 1)
  end.

(** The decade of [p/q]: the [n] with [10^(n-1) <= p/q < 10^n]. *)
Definition decade (p q : Z) : Z :=
  if q <=? p then Z.of_nat (List.length (digits_of_pos (Z.to_pos (p / q))))
  else 1 - leading_shift 400 p q 1.

(** [p/q] divided by [10^t], as a quotient and a remainder over a common
    denominator. *)
Definition scaled (p q t : Z) : Z * Z * Z :=
  let num := if 0 <=? t then p else p * 10 ^ (- t) in
  let den := if 0 <=? t then q * 10 ^ t else q in
  (num / den, num mod den, den).

(** Trailing zeros of [s] move to the exponent. *)
Fixpoint strip_zeros (fuel : nat) (s t : Z) : Z * Z :=
  match fuel with
  | O => (s, t)
  | S fuel' =>
      if (s mod 10 =? 0) && (0 <? s) then strip_zeros fuel' (s / 10) (t + 1)
      else (s, t)
  end.

(** The [k]-digit decimal for [x = m * 2^e], when there is one: [(s, t)]
    stands for [s * 10^t].  The two decimals of [k] digits around [x] are
    written without trailing zeros, and each is kept when its Number value is
    [x]. *)
Definition candidate (m : positive) (e : Z) (k : Z) : option (Z * Z) :=
  let x := S754_finite false m e in
  let '(p, q) := fraction_of m e in
  let t := decade p q - k in
  let '(lo, r, den) := scaled p q t in
  let lower := strip_zeros (Z.to_nat k) lo t in
  let upper := strip_zeros (Z.to_nat k) (lo + 1) t in
  let lo_ok := number_eqb (number_of_decimal false (fst lower) (snd lower)) x in
  let hi_ok := number_eqb (number_of_decimal false (fst upper) (snd upper)) x in
  match lo_ok, hi_ok with
  | true, true =>
      match 2 * r ?= den with
      | Lt => Some lower
      | Gt => Some upper
      | Eq => Some (if Z.even lo then lower else upper)
      end
  | true, false => Some lower
  | false, true => Some upper
  | false, false => None
  end.

(** The decimal expansion of [x = m * 2^e] in full: [m * 2^e] is an integer
    when [e >= 0], and [m * 5^(-e) * 10^e] otherwise.  It is the decimal the
    search below ends with when it finds nothing shorter (17 significant
    digits identify a binary64, so the search is not expected to get there). *)
Definition full_expansion (m : positive) (e : Z) : Z * Z :=
  if 0 <=? e then strip_zeros 60 (Z.pos m * 2 ^ e) 0
  else strip_zeros 60 (Z.pos m * 5 ^ (- e)) e.

(** The first decimal found with [k], [k + 1], ... digits. *)
Fixpoint shortest_from (fuel : nat) (m : positive) (e : Z) (k : Z) : Z * Z :=
  match fuel with
  | O => full_expansion m e
  | S fuel' =>
      match candidate m e k with
      | Some st => st
      | None => shortest_from fuel' m e (k + 1)
      end
  end.

(** The digits of [s] and the [n] of ECMAScript for [x = m * 2^e]. *)
Definition shortest_digits (m : positive) (e : Z) : list code_unit * Z :=
  let '(s, t) := shortest_from 17 m e 1 in
  let ds := digits_of_pos (Z.to_pos s) in
  (ds, t + Z.of_nat (List.length ds)).

(** [n] zeros. *)
Definition zeros (n : Z) : list code_unit := repeat Ch.zero (Z.to_nat n).

(** The letter [e], the sign and the digits of the exponent [e]. *)
Definition exponent_part (e : Z) : list code_unit :=
  Ch.lower_e :: (if e <? 0 then Ch.minus else Ch.plus)
             :: digits_of_pos (Z.to_pos (Z.abs e)).

(** Steps 6 to 10 of Number::toString (radix 10): how the digits [ds] and the
    exponent [n] are written. *)
Definition render_decimal (ds : list code_unit) (n : Z) : jstring :=
  let k := Z.of_nat (List.length ds) in
  if (k <=? n) && (n <=? 21) then ds ++ zeros (n - k)
  else if (0 <? n) && (n <=? 21) then
    firstn (Z.to_nat n) ds ++ Ch.dot :: skipn (Z.to_nat n) ds
  else if (-6 <? n) && (n <=? 0) then
    Ch.zero :: Ch.dot :: zeros (- n) ++ ds
  else
    match ds with
    | [] => []
    | [d] => d :: exponent_part (n - 1)
    | d :: rest => d :: Ch.dot :: rest ++ exponent_part (n - 1)
    end.

(** Number::toString(x), radix 10. *)
Definition Number_toString (x : number) : jstring :=
  match x with
  | S754_zero _ => js "0"
  | S754_finite neg m e =>
      let '(ds, n) := shortest_digits m e in
      (if neg then [Ch.minus] else []) ++ render_decimal ds n
  | S754_infinity neg => (if neg then [Ch.minus] else []) ++ js "Infinity"
  | S754_nan => js "NaN"
  end.

(** ** JSON values *)

(** What [JSON.parse] builds.  The properties of an object are listed in the
    order of [OrdinaryOwnPropertyKeys]: array-index keys in ascending order,
    then the other keys in the order they were created. *)
#[warnings="-register-all"]
Inductive value : Type :=
  | JNull
  | JBool (b : bool)
  | JNumber (x : number)
  | JString (s : jstring)
  | JArray (elems : list value)
  | JObject (props : list (jstring * value)).

(** *** Property keys *)

Definition max_array_index : Z := 4294967294.

(** An array index is a canonical numeric string below [2^32 - 1]. *)
Definition array_index (k : jstring) : option Z :=
  match k with
  | [] => None
  | c :: rest =>
      if forallb is_digit k
         && (negb (unit_eqb c Ch.zero) || match rest with [] => true | _ => false end)
         && (Z.of_nat (List.length k) <=? 10)
         && (digits_value k <=? max_array_index)
      then Some (digits_value k)
      else None
  end.

Fixpoint has_key (o : list (jstring * value)) (k : jstring) : bool :=
  match o with
  | [] => false
  | (k', _) :: o' => jstring_eqb k' k || has_key o' k
  end.

Fixpoint replace_value (o : list (jstring * value)) (k : jstring) (v : value)
  : list (jstring * value) :=
  match o with
  | [] => []
  | (k', v') :: o' =>
      if jstring_eqb k' k then (k', v) :: o' else (k', v') :: replace_value o' k v
  end.

Fixpoint insert_index (o : list (jstring * value)) (k : jstring) (i : Z) (v : value)
  : list (jstring * value) :=
  match o with
  | [] => [(k, v)]
  | (k', v') :: o' =>
      match array_index k' with
      | Some j => if j <? i then (k', v') :: insert_index o' k i v else (k, v) :: o
      | None => (k, v) :: o
      end
  end.

(** [CreateDataProperty] on an ordinary object: an existing key keeps its
    place and takes the new value; a new key goes where the enumeration order
    puts it. *)
Definition set_property (o : list (jstring * value)) (k : jstring) (v : value)
  : list (jstring * value) :=
  if has_key o k then replace_value o k v
  else match array_index k with
       | Some i => insert_index o k i v
       | None => o ++ [(k, v)]
       end.

Definition build_object (members : list (jstring * value)) : list (jstring * value) :=
  fold_left (fun o kv => set_property o (fst kv) (snd kv)) members [].

(** ** JSON.stringify *)

Definition hex_char (d : N) : code_unit :=
  if (d <? 10)%N then (48 + d)%N else (87 + d)%N.

(** [\uXXXX] with lower-case hexadecimal digits. *)
Definition unicode_escape (c : code_unit) : jstring :=
  [Ch.backslash; Ch.lower_u;
   hex_char ((c / 4096) mod 16)%N; hex_char ((c / 256) mod 16)%N;
   hex_char ((c / 16) mod 16)%N; hex_char (c mod 16)%N].

Definition is_leading_surrogate (c : code_unit) : bool :=
  (55296 <=? c)%N && (c <=? 56319)%N.

Definition is_trailing_surrogate (c : code_unit) : bool :=
  (56320 <=? c)%N && (c <=? 57343)%N.

(** A code unit that is not part of a surrogate pair. *)
Definition quote_unit (c : code_unit) : jstring :=
  if unit_eqb c 8%N then [Ch.backslash; Ch.lower_b]
  else if unit_eqb c 9%N then [Ch.backslash; Ch.lower_t]
  else if unit_eqb c 10%N then [Ch.backslash; Ch.lower_n]
  else if unit_eqb c 12%N then [Ch.backslash; Ch.lower_f]
  else if unit_eqb c 13%N then [Ch.backslash; Ch.lower_r]
  else if unit_eqb c Ch.quote then [Ch.backslash; Ch.quote]
  else if unit_eqb c Ch.backslash then [Ch.backslash; Ch.backslash]
  else if (c <? 32)%N || is_leading_surrogate c || is_trailing_surrogate c
  then unicode_escape c
  else [c].

(** The body of [QuoteJSONString]: the string is read by code points, so a
    leading surrogate followed by a trailing one is copied as it is. *)
Fixpoint quote_units (s : jstring) : jstring :=
  match s with
  | [] => []
  | c :: rest =>
      if is_leading_surrogate c then
        match rest with
        | d :: rest' =>
            if is_trailing_surrogate d then c :: d :: quote_units rest'
            else quote_unit c ++ quote_units rest
        | [] => quote_unit c
        end
      else quote_unit c ++ quote_units rest
  end.

Definition QuoteJSONString (s : jstring) : jstring :=
  Ch.quote :: quote_units s ++ [Ch.quote].

Fixpoint join_comma (parts : list jstring) : jstring :=
  match parts with
  | [] => []
  | [x] => x
  | x :: rest => x ++ Ch.comma :: join_comma rest
  end.

(** [JSON.stringify(v)] with no replacer and no indentation. *)
Fixpoint JSON_stringify (v : value) : jstring :=
  match v with
  | JNull => js "null"
  | JBool true => js "true"
  | JBool false => js "false"
  | JNumber x => if is_finite x then Number_toString x else js "null"
  | JString s => QuoteJSONString s
  | JArray elems =>
      Ch.lbracket :: join_comma (map JSON_stringify elems) ++ [Ch.rbracket]
  | JObject props =>
      Ch.lbrace
        :: join_comma (map (fun kv => QuoteJSONString (fst kv) ++ Ch.colon
                                        :: JSON_stringify (snd kv)) props)
        ++ [Ch.rbrace]
  end.

(** ** JSON.parse *)

Definition is_ws (c : code_unit) : bool :=
  unit_eqb c Ch.tab || unit_eqb c Ch.lf || unit_eqb c Ch.cr || unit_eqb c Ch.space.

Fixpoint skip_ws (s : jstring) : jstring :=
  match s with
  | c :: rest => if is_ws c then skip_ws rest else s
  | [] => []
  end.

(** *** String literals *)

Definition hex_value (c : code_unit) : option N :=
  if is_digit c then Some (c - 48)%N
  else if (97 <=? c)%N && (c <=? 102)%N then Some (c - 87)%N
  else if (65 <=? c)%N && (c <=? 70)%N then Some (c - 55)%N
  else None.

Definition hex4_value (a b c d : code_unit) : option code_unit :=
  match hex_value a, hex_value b, hex_value c, hex_value d with
  | Some x, Some y, Some z, Some w => Some (x * 4096 + y * 256 + z * 16 + w)%N
  | _, _, _, _ => None
  end.

(** The character a two-character escape stands for. *)
Definition simple_escape (c : code_unit) : option code_unit :=
  if unit_eqb c Ch.quote then Some Ch.quote
  else if unit_eqb c Ch.backslash then Some Ch.backslash
  else if unit_eqb c Ch.slash then Some Ch.slash
  else if unit_eqb c Ch.lower_b then Some 8%N
  else if unit_eqb c Ch.lower_f then Some 12%N
  else if unit_eqb c Ch.lower_n then Some 10%N
  else if unit_eqb c Ch.lower_r then Some 13%N
  else if unit_eqb c Ch.lower_t then Some 9%N
  else None.

Definition cons_char (c : code_unit) (r : option (jstring * jstring))
  : option (jstring * jstring) :=
  match r with
  | Some (str, rest) => Some (c :: str, rest)
  | None => None
  end.

(** The characters of a string literal after its opening quote, up to and
    including the closing quote. *)
Fixpoint parse_chars (s : jstring) : option (jstring * jstring) :=
  match s with
  | [] => None
  | c :: rest =>
      if unit_eqb c Ch.quote then Some ([], rest)
      else if unit_eqb c Ch.backslash then
        match rest with
        | [] => None
        | e :: rest' =>
            if unit_eqb e Ch.lower_u then
              match rest' with
              | h1 :: h2 :: h3 :: h4 :: rest'' =>
                  match hex4_value h1 h2 h3 h4 with
                  | Some u => cons_char u (parse_chars rest'')
                  | None => None
                  end
              | _ => None
              end
            else
              match simple_escape e with
              | Some u => cons_char u (parse_chars rest')
              | None => None
              end
        end
      else if (c <? 32)%N then None
      else cons_char c (parse_chars rest)
  end.

(** *** Number literals *)

Fixpoint span_digits (s : jstring) : jstring * jstring :=
  match s with
  | c :: rest =>
      if is_digit c then let '(ds, r) := span_digits rest in (c :: ds, r)
      else ([], s)
  | [] => ([], [])
  end.

(** [int]: a single zero, or a non-zero digit followed by digits. *)
Definition lex_int (s : jstring) : option (jstring * jstring) :=
  match s with
  | c :: rest =>
      if unit_eqb c Ch.zero then Some ([c], rest)
      else if is_digit c then let '(ds, r) := span_digits rest in Some (c :: ds, r)
      else None
  | [] => None
  end.

(** [frac]: nothing, or a dot followed by at least one digit. *)
Definition lex_frac (s : jstring) : option (jstring * jstring) :=
  match s with
  | c :: rest =>
      if unit_eqb c Ch.dot then
        match span_digits rest with
        | ([], _) => None
        | (ds, r) => Some (ds, r)
        end
      else Some ([], s)
  | [] => Some ([], [])
  end.

(** [exp]: nothing, or [e] or [E], an optional sign and at least one digit. *)
Definition lex_exp (s : jstring) : option (Z * jstring) :=
  match s with
  | c :: rest =>
      if unit_eqb c Ch.lower_e || unit_eqb c Ch.upper_e then
        let '(neg, rest') :=
          match rest with
          | sg :: r => if unit_eqb sg Ch.minus then (true, r)
                       else if unit_eqb sg Ch.plus then (false, r)
                       else (false, rest)
          | [] => (false, rest)
          end in
        match span_digits rest' with
        | ([], _) => None
        | (ds, r) => Some (if neg then - digits_value ds else digits_value ds, r)
        end
      else Some (0, s)
  | [] => Some (0, [])
  end.

(** The Number value of a literal with integer digits [ip], fraction digits
    [fp] and exponent [e]. *)
Definition literal_value (neg : bool) (ip fp : jstring) (e : Z) : number :=
  number_of_decimal neg (digits_value (ip ++ fp)) (e - Z.of_nat (List.length fp)).

(** A number literal without its sign. *)
Definition lex_unsigned (neg : bool) (s : jstring) : option (number * jstring) :=
  match lex_int s with
  | None => None
  | Some (ip, s2) =>
      match lex_frac s2 with
      | None => None
      | Some (fp, s3) =>
          match lex_exp s3 with
          | None => None
          | Some (e, s4) => Some (literal_value neg ip fp e, s4)
          end
      end
  end.

(** A number literal and its Number value. *)
Definition lex_number (s : jstring) : option (number * jstring) :=
  match s with
  | c :: rest => if unit_eqb c Ch.minus then lex_unsigned true rest
                 else lex_unsigned false s
  | [] => None
  end.

(** *** Values *)

Fixpoint match_prefix (kw s : jstring) : option jstring :=
  match kw, s with
  | [], _ => Some s
  | k :: kw', c :: s' => if unit_eqb k c then match_prefix kw' s' else None
  | _ :: _, [] => None
  end.

(** The outcome of a parser that recurses on fuel. *)
Inductive parsed (A : Type) : Type :=
  | Parsed (a : A) (rest : jstring)
  | Malformed
  | Exhausted.

Arguments Parsed {A} a rest.
Arguments Malformed {A}.
Arguments Exhausted {A}.

Definition keyword (kw : jstring) (v : value) (s : jstring) : parsed value :=
  match match_prefix kw s with
  | Some rest => Parsed v rest
  | None => Malformed
  end.

(** One step of each of the three parsers: a value, the elements of an array
    after its opening bracket, the members of an object after its opening
    brace.  The recursive calls are the arguments [pv], [pe] and [pm]. *)
Definition value_step (pe : jstring -> parsed (list value))
           (pm : jstring -> parsed (list (jstring * value))) (s : jstring)
  : parsed value :=
  match skip_ws s with
  | [] => Malformed
  | c :: rest =>
      if unit_eqb c Ch.quote then
        match parse_chars rest with
        | Some (str, rest') => Parsed (JString str) rest'
        | None => Malformed
        end
      else if unit_eqb c Ch.lbracket then
        match skip_ws rest with
        | [] => Malformed
        | c' :: rest' =>
            if unit_eqb c' Ch.rbracket then Parsed (JArray []) rest'
            else match pe rest with
                 | Parsed vs rest'' => Parsed (JArray vs) rest''
                 | Malformed => Malformed
                 | Exhausted => Exhausted
                 end
        end
      else if unit_eqb c Ch.lbrace then
        match skip_ws rest with
        | [] => Malformed
        | c' :: rest' =>
            if unit_eqb c' Ch.rbrace then Parsed (JObject []) rest'
            else match pm rest with
                 | Parsed ms rest'' => Parsed (JObject (build_object ms)) rest''
                 | Malformed => Malformed
                 | Exhausted => Exhausted
                 end
        end
      else if unit_eqb c Ch.lower_t then keyword (js "rue") (JBool true) rest
      else if unit_eqb c Ch.lower_f then keyword (js "alse") (JBool false) rest
      else if unit_eqb c Ch.lower_n then keyword (js "ull") JNull rest
      else
        match lex_number (c :: rest) with
        | Some (x, rest') => Parsed (JNumber x) rest'
        | None => Malformed
        end
  end.

Definition elements_step (pv : jstring -> parsed value)
           (pe : jstring -> parsed (list value)) (s : jstring)
  : parsed (list value) :=
  match pv s with
  | Parsed v rest =>
      match skip_ws rest with
      | [] => Malformed
      | c :: rest' =>
          if unit_eqb c Ch.comma then
            match pe rest' with
            | Parsed vs rest'' => Parsed (v :: vs) rest''
            | Malformed => Malformed
            | Exhausted => Exhausted
            end
          else if unit_eqb c Ch.rbracket then Parsed [v] rest'
          else Malformed
      end
  | Malformed => Malformed
  | Exhausted => Exhausted
  end.

Definition members_step (pv : jstring -> parsed value)
           (pm : jstring -> parsed (list (jstring * value))) (s : jstring)
  : parsed (list (jstring * value)) :=
  match skip_ws s with
  | [] => Malformed
  | c :: rest =>
      if unit_eqb c Ch.quote then
        match parse_chars rest with
        | None => Malformed
        | Some (k, rest1) =>
            match skip_ws rest1 with
            | [] => Malformed
            | c1 :: rest2 =>
                if unit_eqb c1 Ch.colon then
                  match pv rest2 with
                  | Parsed v rest3 =>
                      match skip_ws rest3 with
                      | [] => Malformed
                      | c3 :: rest4 =>
                          if unit_eqb c3 Ch.comma then
                            match pm rest4 with
                            | Parsed ms rest5 => Parsed ((k, v) :: ms) rest5
                            | Malformed => Malformed
                            | Exhausted => Exhausted
                            end
                          else if unit_eqb c3 Ch.rbrace then Parsed [(k, v)] rest4
                          else Malformed
                      end
                  | Malformed => Malformed
                  | Exhausted => Exhausted
                  end
                else Malformed
            end
        end
      else Malformed
  end.

Fixpoint parse_value (fuel : nat) (s : jstring) {struct fuel} : parsed value :=
  match fuel with
  | O => Exhausted
  | S fuel' => value_step (parse_elements fuel') (parse_members fuel') s
  end

with parse_elements (fuel : nat) (s : jstring) {struct fuel} : parsed (list value) :=
  match fuel with
  | O => Exhausted
  | S fuel' => elements_step (parse_value fuel') (parse_elements fuel') s
  end

with parse_members (fuel : nat) (s : jstring) {struct fuel}
  : parsed (list (jstring * value)) :=
  match fuel with
  | O => Exhausted
  | S fuel' => members_step (parse_value fuel') (parse_members fuel') s
  end.

(** Every level of the recursion but the second consumes a character, so
    twice the length of the text is fuel enough (see [parse_value_fuel]). *)
Definition parse_fuel (text : jstring) : nat := 2 * List.length text + 2.

(** [JSON.parse(text)]: the value, or [None] where the runtime throws a
    SyntaxError. *)
Definition JSON_parse (text : jstring) : option value :=
  match parse_value (parse_fuel text) text with
  | Parsed v rest =>
      match skip_ws rest with
      | [] => Some v
      | _ :: _ => None
      end
  | _ => None
  end.

(** ** The platform *)

(** An exception object; the handler reads only its [message]. *)
Record js_error : Type := mk_error {
  error_name : jstring;
  message : jstring
}.

(** [new Error(msg)] *)
Definition Error (msg : jstring) : js_error :=
  {| error_name := js "Error"; message := msg |}.

(** The second argument of [fetch], with its URL. *)
Record upstream_request : Type := mk_request {
  url : jstring;
  method : jstring;
  headers : list (jstring * jstring);
  request_body : jstring
}.

(** Reading the body of a response gives its text or rejects. *)
Inductive body_read : Type :=
  | BodyText (t : jstring)
  | BodyFails (e : js_error).

(** The [Response] that [fetch] resolves to. *)
Record upstream_response : Type := mk_upstream {
  status : Z;
  statusText : jstring;
  upstream_body : body_read
}.

Inductive fetch_result : Type :=
  | FetchRejects (e : js_error)
  | FetchResolves (r : upstream_response).

(** What an invocation finds around it: the environment variable (absent when
    [None]), the network, and the SyntaxError the engine throws for a text
    that is not JSON (its message is the engine's own). *)
Record platform : Type := mk_platform {
  OPENAI_API_KEY : option jstring;
  fetch : upstream_request -> fetch_result;
  syntax_error : jstring -> js_error
}.

(** The event the function is invoked with.  The platform gives [null] for a
    request without a body ([None]). *)
Record event : Type := mk_event {
  httpMethod : jstring;
  event_body : option jstring
}.

(** The object the handler returns. *)
Record outbound_response : Type := mk_response {
  statusCode : Z;
  body : jstring
}.

(** *** Effects *)

Inductive logged : Type :=
  | LogText (s : jstring)
  | LogError (e : js_error).

Inductive effect : Type :=
  | Fetch (req : upstream_request)
  | ConsoleError (label : jstring) (arg : logged).

(** The upstream requests in a trace. *)
Fixpoint fetches (t : list effect) : list upstream_request :=
  match t with
  | [] => []
  | Fetch req :: t' => req :: fetches t'
  | ConsoleError _ _ :: t' => fetches t'
  end.

(** A computation returns or throws, and leaves a trace of its effects in the
    order they happened. *)
Definition M (A : Type) : Type := (A + js_error) * list effect.

Definition ret {A : Type} (a : A) : M A := (inl a, []).

Definition throw {A : Type} (e : js_error) : M A := (inr e, []).

Definition bind {A B : Type} (m : M A) (f : A -> M B) : M B :=
  match m with
  | (inl a, t) => let '(r, t') := f a in (r, t ++ t')
  | (inr e, t) => (inr e, t)
  end.

Definition emit (e : effect) : M unit := (inl tt, [e]).

(** [try { m } catch (error) { h error }] *)
Definition try_catch {A : Type} (m : M A) (h : js_error -> M A) : M A :=
  match m with
  | (inl a, t) => (inl a, t)
  | (inr e, t) => let '(r, t') := h e in (r, t ++ t')
  end.

Notation "x <- m ;; k" := (bind m (fun x => k))
  (at level 61, m at next level, right associativity).
Notation "m ;;; k" := (bind m (fun _ => k))
  (at level 61, right associativity).

(** *** Runtime calls *)

(** [ToString] on the argument of [JSON.parse]. *)
Definition ToString (b : option jstring) : jstring :=
  match b with
  | Some s => s
  | None => js "null"
  end.

Definition json_parse (p : platform) (text : jstring) : M value :=
  match JSON_parse text with
  | Some v => ret v
  | None => throw (syntax_error p text)
  end.

Definition await_fetch (p : platform) (req : upstream_request) : M upstream_response :=
  emit (Fetch req) ;;;
  match fetch p req with
  | FetchResolves r => ret r
  | FetchRejects e => throw e
  end.

(** [response.ok] *)
Definition ok (r : upstream_response) : bool :=
  (200 <=? status r) && (status r <=? 299).

(** [await response.text()] *)
Definition text (r : upstream_response) : M jstring :=
  match upstream_body r with
  | BodyText t => ret t
  | BodyFails e => throw e
  end.

(** [await response.json()] *)
Definition json (p : platform) (r : upstream_response) : M value :=
  t <- text r ;; json_parse p t.

Definition console_error (label : jstring) (arg : logged) : M unit :=
  emit (ConsoleError label arg).

(** [!apiKey]: an undefined variable and the empty string are falsy. *)
Definition falsy (k : option jstring) : bool :=
  match k with
  | None => true
  | Some [] => true
  | Some (_ :: _) => false
  end.

(** [${apiKey}] in a template literal. *)
Definition interpolate (k : option jstring) : jstring :=
  match k with
  | Some s => s
  | None => js "undefined"
  end.

(** An object literal creates its properties in the order written. *)
Definition object_literal (props : list (jstring * value)) : value :=
  JObject (build_object props).

(** ** The handler *)

Definition missing_key_message : jstring :=
  js "OpenAI API key is not set in Netlify environment variables.".

Definition openai_url : jstring := js "https://api.openai.com/v1/chat/completions".

(** The request of lines 35 to 44, for the key [apiKey] and the parsed body
    [requestBody]. *)
Definition openai_request (apiKey : jstring) (requestBody : value) : upstream_request :=
  {| url := openai_url;
     method := js "POST";
     headers := [ (js "Content-Type", js "application/json");
                  (js "Authorization", js "Bearer " ++ apiKey) ];
     request_body := JSON_stringify requestBody |}.

(** The body of the [try] block, lines 23 to 63. *)
Definition try_block (p : platform) (ev : event) : M outbound_response :=
  requestBody <- json_parse p (ToString (event_body ev)) ;;
  let apiKey := OPENAI_API_KEY p in
  if falsy apiKey then throw (Error missing_key_message)
  else
    response <- await_fetch p (openai_request (interpolate apiKey) requestBody) ;;
    if negb (ok response) then
      errorBody <- text response ;;
      console_error (js "OpenAI API Error:") (LogText errorBody) ;;;
      ret {| statusCode := status response;
             body := JSON_stringify
                       (object_literal
                          [ (js "error",
                             JString (js "OpenAI API request failed: " ++ statusText response));
                            (js "details", JString errorBody) ]) |}
    else
      data <- json p response ;;
      ret {| statusCode := 200; body := JSON_stringify data |}.

(** The [catch] block, lines 65 to 72. *)
Definition catch_block (error : js_error) : M outbound_response :=
  console_error (js "Proxy function error:") (LogError error) ;;;
  ret {| statusCode := 500;
         body := JSON_stringify (object_literal [ (js "error", JString (message error)) ]) |}.

(** [exports.handler], lines 16 to 73: the method check of lines 18 to 20,
    then the [try] and [catch] blocks. *)
Definition handler (p : platform) (ev : event) : M outbound_response :=
  if negb (jstring_eqb (httpMethod ev) (js "POST")) then
    ret {| statusCode := 405; body := js "Method Not Allowed" |}
  else try_catch (try_block p ev) catch_block.

(** ** The process

    The handler as a program of the process that runs it.  What the handler
    can read and change is the state of the process: its environment
    variables, and what it has sent to the network and written to the console
    so far.  This embedding also keeps the one limit of the engine that the
    handler can meet: [JSON.stringify] walks a value by recursion, and throws
    a RangeError when the value nests deeper than the stack allows; a value
    that [JSON.parse] has read may be such a value. *)

(** The engine: the SyntaxError [JSON.parse] throws for a text that is not
    JSON, whether [JSON.stringify] returns on a value, and the RangeError it
    throws when it does not. *)
Record engine : Type := mk_engine {
  SyntaxError : jstring -> js_error;
  stringify_returns : value -> bool;
  RangeError : js_error
}.

(** The network: its answer to a request may depend on the requests it has
    received before. *)
Definition network : Type := list upstream_request -> upstream_request -> fetch_result.

(** The state of the process: [process.env], and what the process has sent
    and logged, oldest first. *)
Record process : Type := mk_process {
  env : list (jstring * jstring);
  history : list effect
}.

(** The value of the variable [name], if it is set. *)
Fixpoint lookup (name : jstring) (vars : list (jstring * jstring)) : option jstring :=
  match vars with
  | [] => None
  | (k, v) :: rest => if jstring_eqb k name then Some v else lookup name rest
  end.

Declare Scope process_scope.

Module Process.

(** A computation reads and changes the state of the process, and returns or
    throws. *)
Definition P (A : Type) : Type := process -> (A + js_error) * process.

Definition ret {A : Type} (a : A) : P A := fun s => (inl a, s).

Definition throw {A : Type} (e : js_error) : P A := fun s => (inr e, s).

Definition bind {A B : Type} (m : P A) (f : A -> P B) : P B :=
  fun s =>
    match m s with
    | (inl a, s') => f a s'
    | (inr e, s') => (inr e, s')
    end.

(** [try { m } catch (error) { h error }]: what [m] did before it threw
    stays done. *)
Definition try_catch {A : Type} (m : P A) (h : js_error -> P A) : P A :=
  fun s =>
    match m s with
    | (inl a, s') => (inl a, s')
    | (inr e, s') => h e s'
    end.

Notation "x <- m ;; k" := (bind m (fun x => k))
  (at level 61, m at next level, right associativity) : process_scope.
Notation "m ;;; k" := (bind m (fun _ => k))
  (at level 61, right associativity) : process_scope.

Local Open Scope process_scope.

(** [process.env[name]] *)
Definition getenv (name : jstring) : P (option jstring) :=
  fun s => (inl (lookup name (env s)), s).

(** [JSON.parse(text)] *)
Definition parse (eng : engine) (text : jstring) : P value :=
  match JSON_parse text with
  | Some v => ret v
  | None => throw (SyntaxError eng text)
  end.

(** [JSON.stringify(v)] *)
Definition stringify (eng : engine) (v : value) : P jstring :=
  if stringify_returns eng v then ret (JSON_stringify v) else throw (RangeError eng).

(** [await fetch(...)]: the request goes out, then the network answers. *)
Definition fetch (net : network) (req : upstream_request) : P upstream_response :=
  fun s =>
    let sent := {| env := env s; history := history s ++ [Fetch req] |} in
    match net (fetches (history s)) req with
    | FetchResolves r => (inl r, sent)
    | FetchRejects e => (inr e, sent)
    end.

(** [await response.text()] *)
Definition text (r : upstream_response) : P jstring :=
  match upstream_body r with
  | BodyText t => ret t
  | BodyFails e => throw e
  end.

(** [await response.json()] *)
Definition json (eng : engine) (r : upstream_response) : P value :=
  t <- text r ;; parse eng t.

Definition console_error (label : jstring) (arg : logged) : P unit :=
  fun s => (inl tt, {| env := env s;
                       history := history s ++ [ConsoleError label arg] |}).

(** The body of the [try] block, lines 23 to 63.  The two objects of lines 52
    and 70 are flat, so [JSON.stringify] returns on them. *)
Definition try_block (eng : engine) (net : network) (ev : event) : P outbound_response :=
  requestBody <- parse eng (ToString (event_body ev)) ;;
  apiKey <- getenv (js "OPENAI_API_KEY") ;;
  if falsy apiKey then throw (Error missing_key_message)
  else
    forwarded <- stringify eng requestBody ;;
    response <- fetch net {| url := openai_url;
                             method := js "POST";
                             headers := [ (js "Content-Type", js "application/json");
                                          (js "Authorization",
                                           js "Bearer " ++ interpolate apiKey) ];
                             request_body := forwarded |} ;;
    if negb (ok response) then
      errorBody <- text response ;;
      console_error (js "OpenAI API Error:") (LogText errorBody) ;;;
      ret {| statusCode := status response;
             body := JSON_stringify
                       (object_literal
                          [ (js "error",
                             JString (js "OpenAI API request failed: " ++ statusText response));
                            (js "details", JString errorBody) ]) |}
    else
      data <- json eng response ;;
      relayed <- stringify eng data ;;
      ret {| statusCode := 200; body := relayed |}.

(** The [catch] block, lines 65 to 72. *)
Definition catch_block (error : js_error) : P outbound_response :=
  console_error (js "Proxy function error:") (LogError error) ;;;
  ret {| statusCode := 500;
         body := JSON_stringify (object_literal [ (js "error", JString (message error)) ]) |}.

(** [exports.handler], lines 16 to 73. *)
Definition handler (eng : engine) (net : network) (ev : event) : P outbound_response :=
  if negb (jstring_eqb (httpMethod ev) (js "POST")) then
    ret {| statusCode := 405; body := js "Method Not Allowed" |}
  else try_catch (try_block eng net ev) catch_block.

End Process.

(** * Vocabulary of the properties *)

(** ** Induction on values

    The induction principle for the nested type [value]: the elements of an
    array and the values of the properties of an object satisfy the
    predicate. *)

Section ValueInduction.
Variable P : value -> Prop.
Hypothesis Pnull : P JNull.
Hypothesis Pbool : forall b, P (JBool b).
Hypothesis Pnumber : forall x, P (JNumber x).
Hypothesis Pstring : forall s, P (JString s).
Hypothesis Parray : forall elems, Forall P elems -> P (JArray elems).
Hypothesis Pobject :
  forall props, Forall (fun kv => P (snd kv)) props -> P (JObject props).

Fixpoint value_induction (v : value) : P v :=
  match v with
  | JNull => Pnull
  | JBool b => Pbool b
  | JNumber x => Pnumber x
  | JString s => Pstring s
  | JArray elems =>
      Parray elems
        ((fix go (l : list value) : Forall P l :=
            match l with
            | [] => Forall_nil P
            | x :: l' => Forall_cons x (value_induction x) (go l')
            end) elems)
  | JObject props =>
      Pobject props
        ((fix go (l : list (jstring * value)) : Forall (fun kv => P (snd kv)) l :=
            match l with
            | [] => Forall_nil _
            | kv :: l' => Forall_cons kv (value_induction (snd kv)) (go l')
            end) props)
  end.
End ValueInduction.

(** ** The shape of a number literal *)

(** A run of digits that starts with a non-zero digit. *)
Definition leading_digits (ds : jstring) : Prop :=
  exists d tl, ds = d :: tl /\ is_digit d = true /\ d <> Ch.zero
               /\ forallb is_digit tl = true.

(** The text does not go on with a digit. *)
Definition no_digit_head (s : jstring) : Prop :=
  match s with
  | [] => True
  | c :: _ => is_digit c = false
  end.

(** What may follow a number in a JSON text without ending it early. *)
Definition delimited (s : jstring) : Prop :=
  match s with
  | [] => True
  | c :: _ => is_digit c = false /\ c <> Ch.dot /\ c <> Ch.lower_e /\ c <> Ch.upper_e
  end.

(** The integer part [ip] of a literal. *)
Definition int_shape (ip : jstring) : Prop :=
  ip = [Ch.zero] \/ leading_digits ip.

(** The fraction [f] of a literal, with digits [fp]. *)
Definition frac_shape (fp : jstring) (f : jstring) : Prop :=
  (fp = [] /\ f = [])
  \/ (f = Ch.dot :: fp /\ forallb is_digit fp = true /\ fp <> []).

(** The exponent [x] of a literal, with value [e]. *)
Definition exp_shape (e : Z) (x : jstring) : Prop :=
  (e = 0 /\ x = [])
  \/ exists sg ds, x = Ch.lower_e :: sg :: ds
                   /\ ((sg = Ch.plus /\ e = digits_value ds)
                       \/ (sg = Ch.minus /\ e = - digits_value ds))
                   /\ forallb is_digit ds = true /\ ds <> [].

(** A number literal: an optional minus sign, an integer part, an optional
    fraction and an optional exponent; [number_literal lit y] also gives its
    Number value [y]. *)
Definition number_literal (lit : jstring) (y : number) : Prop :=
  exists neg ip fp f e x,
    lit = (if neg : bool then [Ch.minus] else []) ++ ip ++ f ++ x
    /\ int_shape ip /\ frac_shape fp f /\ exp_shape e x
    /\ y = literal_value neg ip fp e.

(** ** Decimals and binary64 values *)

(** [s * 10^t] is the value [m * 2^e]. *)
Definition represents (s t : Z) (m : positive) (e : Z) : Prop :=
  s * 10 ^ Z.max t 0 * 2 ^ Z.max (- e) 0
  = Z.pos m * 2 ^ Z.max e 0 * 10 ^ Z.max (- t) 0.

(** [s * 10^t], with [s] positive, is read as [m * 2^e]. *)
Definition reads_as (st : Z * Z) (m : positive) (e : Z) : Prop :=
  0 < fst st /\ number_of_decimal false (fst st) (snd st) = S754_finite false m e.

(** ** Reading back what JSON.stringify writes *)

(** The number [JSON.parse] reads from what [JSON.stringify] writes for [x]. *)
Definition reread (x : number) : number :=
  match lex_number (Number_toString x) with
  | Some (y, _) => y
  | None => x
  end.

(** The value read back: a number that is not finite was written as [null],
    a finite one is read from its decimal, an object is built again from its
    properties in the order they were written. *)
Fixpoint reparse (v : value) : value :=
  match v with
  | JNumber x => if is_finite x then JNumber (reread x) else JNull
  | JArray elems => JArray (map reparse elems)
  | JObject props =>
      JObject (build_object (map (fun kv => (fst kv, reparse (snd kv))) props))
  | _ => v
  end.

(** Fuel that is enough to read [v] back. *)
Fixpoint size (v : value) : nat :=
  match v with
  | JArray elems => S (list_sum (map (fun e => S (size e)) elems))
  | JObject props => S (list_sum (map (fun kv => S (size (snd kv))) props))
  | _ => 1
  end.

(** The first character of a value in the output of [JSON.stringify]. *)
Definition value_head (c : code_unit) : Prop :=
  In c [Ch.quote; Ch.lbracket; Ch.lbrace; Ch.lower_t; Ch.lower_f; Ch.lower_n; Ch.minus]
  \/ is_digit c = true.

(** With fuel for its size, the parser reads [reparse v] from the text of [v]
    and stops at what follows. *)
Definition reads_back (v : value) : Prop :=
  forall fuel rest, (size v <= fuel)%nat -> delimited rest ->
    parse_value fuel (JSON_stringify v ++ rest) = Parsed (reparse v) rest.

(** A parser that returns has consumed at least one character. *)
Definition consumes {A : Type} (p : jstring -> parsed A) : Prop :=
  forall s a r, p s = Parsed a r -> (List.length r < List.length s)%nat.

(** ** Objects in enumeration order *)

(** [k1] may come before [k2] in the properties of an object. *)
Definition key_before (k1 k2 : jstring) : Prop :=
  match array_index k1, array_index k2 with
  | Some i, Some j => i < j
  | Some _, None => True
  | None, Some _ => False
  | None, None => k1 <> k2
  end.

(** The properties are listed in enumeration order, each key once. *)
Definition canonical (props : list (jstring * value)) : Prop :=
  StronglySorted key_before (map fst props).

(** Every number is in the canonical form of binary64, and every object lists
    its properties in enumeration order. *)
#[warnings="-register-all"]
Inductive well_formed : value -> Prop :=
  | wf_null : well_formed JNull
  | wf_bool (b : bool) : well_formed (JBool b)
  | wf_number (x : number) :
      valid_binary prec emax x = true -> well_formed (JNumber x)
  | wf_string (s : jstring) : well_formed (JString s)
  | wf_array (elems : list value) :
      Forall well_formed elems -> well_formed (JArray elems)
  | wf_object (props : list (jstring * value)) :
      canonical props -> Forall (fun kv => well_formed (snd kv)) props ->
      well_formed (JObject props).

(** Every value of the properties [o] satisfies [P]. *)
Definition all_values (P : value -> Prop) (o : list (jstring * value)) : Prop :=
  Forall (fun kv => P (snd kv)) o.

(** Every number in [v] is finite and is not negative zero.  [JSON.stringify]
    writes an infinity as [null], and negative zero as [0]. *)
Fixpoint plain_numbers (v : value) : bool :=
  match v with
  | JNumber x => is_finite x && negb (number_eqb x (S754_zero true))
  | JArray elems => forallb plain_numbers elems
  | JObject props => forallb (fun kv => plain_numbers (snd kv)) props
  | _ => true
  end.

(** ** The paths of the handler *)

(** The JSON envelope of the [catch] block. *)
Definition error_envelope (msg : jstring) : value :=
  JObject [ (js "error", JString msg) ].

(** The JSON envelope for an upstream failure. *)
Definition upstream_envelope (status_text details : jstring) : value :=
  JObject [ (js "error", JString (js "OpenAI API request failed: " ++ status_text));
            (js "details", JString details) ].

(** The response of the [catch] block for the exception [e], and its trace. *)
Definition caught (e : js_error) : outbound_response * list effect :=
  ({| statusCode := 500; body := JSON_stringify (error_envelope (message e)) |},
   [ConsoleError (js "Proxy function error:") (LogError e)]).

(** What the handler does once the request is sent depends on the answer
    only: the response and the trace for each answer of the network. *)
Definition after_fetch (p : platform) (requestBody : value) (apiKey : jstring)
           (answer : fetch_result) : outbound_response * list effect :=
  let req := openai_request apiKey requestBody in
  match answer with
  | FetchRejects e => (fst (caught e), Fetch req :: snd (caught e))
  | FetchResolves r =>
      match upstream_body r with
      | BodyFails e => (fst (caught e), Fetch req :: snd (caught e))
      | BodyText t =>
          if ok r then
            match JSON_parse t with
            | Some data =>
                ({| statusCode := 200; body := JSON_stringify data |}, [Fetch req])
            | None =>
                (fst (caught (syntax_error p t)),
                 Fetch req :: snd (caught (syntax_error p t)))
            end
          else
            ({| statusCode := status r;
                body := JSON_stringify (upstream_envelope (statusText r) t) |},
             [Fetch req; ConsoleError (js "OpenAI API Error:") (LogText t)])
      end
  end.

(** ** Texts and platforms of the examples *)

(** A string literal of a JSON text. *)
Definition quoted (s : string) : jstring := Ch.quote :: js s ++ [Ch.quote].

(** A chat request: model gpt-x, no messages. *)
Definition chat_request_text : jstring :=
  js "{" ++ quoted "model" ++ js ":" ++ quoted "gpt-x" ++ js ","
     ++ quoted "messages" ++ js ":[]}".

(** The same request as a client may send it, with white space. *)
Definition spaced_request_text : jstring :=
  js "{ " ++ quoted "model" ++ js " : " ++ quoted "gpt-x" ++ js ", "
     ++ quoted "messages" ++ js " : [ ] }".

(** An upstream answer: an id, a creation time and no choices. *)
Definition chat_response_text : jstring :=
  js "{" ++ quoted "id" ++ js ":" ++ quoted "abc" ++ js ","
     ++ quoted "created" ++ js ":1700000000.5,"
     ++ quoted "choices" ++ js ":[]}".

(** A platform whose network answers every request with the same response,
    and whose engine words every SyntaxError alike. *)
Definition stub_platform (key : option jstring) (st : Z) (st_text : jstring)
           (upstream_text : jstring) : platform :=
  {| OPENAI_API_KEY := key;
     fetch := fun _ => FetchResolves {| status := st; statusText := st_text;
                                        upstream_body := BodyText upstream_text |};
     syntax_error := fun _ => {| error_name := js "SyntaxError";
                                 message := js "Unexpected end of JSON input" |} |}.

(** A POST request with the body [text]. *)
Definition post (text : jstring) : event :=
  {| httpMethod := js "POST"; event_body := Some text |}.

(** The platform [p] with another value of the environment variable. *)
Definition with_key (p : platform) (key : option jstring) : platform :=
  {| OPENAI_API_KEY := key; fetch := fetch p; syntax_error := syntax_error p |}.

(** A text [JSON.parse] accepts. *)
Definition valid_json (s : jstring) : Prop := exists v, JSON_parse s = Some v.

(** The value of [chat_request_text]. *)
Definition chat_request_value : value :=
  Eval vm_compute in
    match JSON_parse chat_request_text with Some v => v | None => JNull end.

(** The value of [chat_response_text]. *)
Definition chat_response_value : value :=
  Eval vm_compute in
    match JSON_parse chat_response_text with Some v => v | None => JNull end.

(** An upstream answer with a number too large for a binary64. *)
Definition overflow_text : jstring := js "{" ++ quoted "created" ++ js ":1e400}".

(** The request body of a client that asks for a temperature too large for a
    binary64. *)
Definition overflow_request_text : jstring :=
  js "{" ++ quoted "temperature" ++ js ":1e400}".

(** An upstream answer with the number negative zero. *)
Definition negative_zero_text : jstring := js "{" ++ quoted "created" ++ js ":-0}".

(** The request body of a client that asks for the temperature negative
    zero. *)
Definition negative_zero_request_text : jstring :=
  js "{" ++ quoted "temperature" ++ js ":-0}".

(** ** The console and other platforms *)

(** The lines of [console.error] in a trace: the label and what was logged. *)
Fixpoint console_lines (t : list effect) : list (jstring * logged) :=
  match t with
  | [] => []
  | Fetch _ :: t' => console_lines t'
  | ConsoleError label arg :: t' => (label, arg) :: console_lines t'
  end.

(** A trace as calls of [fetch] followed by lines of the console. *)
Definition requests_then_lines (t : list effect) : list effect :=
  map Fetch (fetches t)
  ++ map (fun line => ConsoleError (fst line) (snd line)) (console_lines t).

(** A platform whose network gives the same [answer] to every request. *)
Definition platform_answering (key : option jstring) (answer : fetch_result) : platform :=
  {| OPENAI_API_KEY := key;
     fetch := fun _ => answer;
     syntax_error := fun _ => {| error_name := js "SyntaxError";
                                 message := js "Unexpected end of JSON input" |} |}.

(** The TypeError of a [fetch] that cannot reach the network. *)
Definition fetch_failed : js_error :=
  {| error_name := js "TypeError"; message := js "fetch failed" |}.

(** The error of a body whose stream ends early. *)
Definition body_terminated : js_error :=
  {| error_name := js "TypeError"; message := js "terminated" |}.

(** ** The process and what it reads *)

(** The credential the process is configured with. *)
Definition configured_key (s : process) : option jstring :=
  lookup (js "OPENAI_API_KEY") (env s).

(** The process [s] after it has sent and logged [t]. *)
Definition grow (s : process) (t : list effect) : process :=
  {| env := env s; history := history s ++ t |}.

(** What the process returns and adds to its history once the request is
    sent, for each answer of the network. *)
Definition answered (eng : engine) (requestBody : value) (apiKey : jstring)
           (answer : fetch_result) : outbound_response * list effect :=
  let req := openai_request apiKey requestBody in
  let thrown e := (fst (caught e), Fetch req :: snd (caught e)) in
  match answer with
  | FetchRejects e => thrown e
  | FetchResolves r =>
      match upstream_body r with
      | BodyFails e => thrown e
      | BodyText t =>
          if ok r then
            match JSON_parse t with
            | Some data =>
                if stringify_returns eng data then
                  ({| statusCode := 200; body := JSON_stringify data |}, [Fetch req])
                else thrown (RangeError eng)
            | None => thrown (SyntaxError eng t)
            end
          else
            ({| statusCode := status r;
                body := JSON_stringify (upstream_envelope (statusText r) t) |},
             [Fetch req; ConsoleError (js "OpenAI API Error:") (LogText t)])
      end
  end.

(** What an invocation returns and adds to the history of the process, from
    what it reads there: the credential, and the answers of the network. *)
Definition outcome (eng : engine) (key : option jstring)
           (answers : upstream_request -> fetch_result) (ev : event)
  : outbound_response * list effect :=
  if negb (jstring_eqb (httpMethod ev) (js "POST")) then
    ({| statusCode := 405; body := js "Method Not Allowed" |}, [])
  else
    match JSON_parse (ToString (event_body ev)) with
    | None => caught (SyntaxError eng (ToString (event_body ev)))
    | Some requestBody =>
        if falsy key then caught (Error missing_key_message)
        else if stringify_returns eng requestBody then
          answered eng requestBody (interpolate key)
                   (answers (openai_request (interpolate key) requestBody))
        else caught (RangeError eng)
    end.

(** A stub of the upstream that returns identical responses: its answer to a
    request does not depend on the requests it received before. *)
Definition steady (net : network) : Prop :=
  forall seen seen' req, net seen req = net seen' req.

(** How deep the arrays and objects of a value nest. *)
Fixpoint nesting (v : value) : nat :=
  match v with
  | JArray elems => S (fold_right (fun e n => Nat.max (nesting e) n) O elems)
  | JObject props => S (fold_right (fun kv n => Nat.max (nesting (snd kv)) n) O props)
  | _ => O
  end.

(** An engine whose stack lets [JSON.stringify] walk values that nest up to
    [depth] deep, with the messages of V8. *)
Definition engine_with_stack (depth : nat) : engine :=
  {| SyntaxError := fun _ => {| error_name := js "SyntaxError";
                                message := js "Unexpected end of JSON input" |};
     stringify_returns := fun v => Nat.leb (nesting v) depth;
     RangeError := {| error_name := js "RangeError";
                      message := js "Maximum call stack size exceeded" |} |}.

(** The JSON text of [n] arrays, each the only element of the one around. *)
Definition nested_text (n : nat) : jstring :=
  repeat Ch.lbracket n ++ repeat Ch.rbracket n.

(** A process that has done nothing yet, configured with [key]. *)
Definition configured (key : jstring) : process :=
  {| env := [ (js "PATH", js "/usr/bin"); (js "OPENAI_API_KEY", key) ];
     history := [] |}.

(** A network that answers every request with the same response. *)
Definition answering (st : Z) (st_text : jstring) (upstream_text : jstring) : network :=
  fun _ _ => FetchResolves {| status := st; statusText := st_text;
                              upstream_body := BodyText upstream_text |}.

(** The platform a process finds around it. *)
Definition platform_of (eng : engine) (net : network) (s : process) : platform :=
  {| OPENAI_API_KEY := configured_key s;
     fetch := net (fetches (history s));
     syntax_error := SyntaxError eng |}.

(** * Properties of the runtime model *)

(** ** Strings *)

Lemma unit_eqb_eq (a b : code_unit) : unit_eqb a b = true <-> a = b.
Proof. apply N.eqb_eq. Qed.

Lemma unit_eqb_neq (a b : code_unit) : unit_eqb a b = false <-> a <> b.
Proof. apply N.eqb_neq. Qed.

Lemma unit_eqb_refl (a : code_unit) : unit_eqb a a = true.
Proof. apply N.eqb_refl. Qed.

Lemma jstring_eqb_eq (a b : jstring) : jstring_eqb a b = true <-> a = b.
Proof.
  revert b; induction a as [|x a IH]; intros [|y b]; simpl; split; intro H;
    try reflexivity; try discriminate.
  - apply andb_true_iff in H as [Hx Hab].
    apply unit_eqb_eq in Hx. apply IH in Hab. congruence.
  - injection H as -> ->. rewrite unit_eqb_refl. simpl. now apply IH.
Qed.

Lemma jstring_eqb_refl (a : jstring) : jstring_eqb a a = true.
Proof. now apply jstring_eqb_eq. Qed.

Lemma jstring_eqb_neq (a b : jstring) : jstring_eqb a b = false <-> a <> b.
Proof.
  split.
  - intros H E. apply jstring_eqb_eq in E. congruence.
  - intro H. destruct (jstring_eqb a b) eqn:E; [|reflexivity].
    apply jstring_eqb_eq in E. contradiction.
Qed.

(** ** String literals are read back *)

Lemma hex_value_hex_char (d : N) : (d < 16)%N -> hex_value (hex_char d) = Some d.
Proof.
  intro H.
  assert (C : In d (map N.of_nat (seq 0 16))).
  { replace d with (N.of_nat (N.to_nat d)) by apply N2Nat.id.
    apply in_map, in_seq. lia. }
  simpl in C. repeat (destruct C as [<- | C]; [reflexivity|]). destruct C.
Qed.

Lemma hex4_unicode_escape (c : code_unit) :
  (c < 65536)%N ->
  hex4_value (hex_char ((c / 4096) mod 16)) (hex_char ((c / 256) mod 16))
             (hex_char ((c / 16) mod 16)) (hex_char (c mod 16)) = Some c.
Proof.
  intro H. unfold hex4_value.
  rewrite !hex_value_hex_char by (apply N.mod_lt; discriminate).
  f_equal. zify. Z.to_euclidean_division_equations. lia.
Qed.

Lemma parse_chars_plain (c : code_unit) (tail : jstring) :
  c <> Ch.quote -> c <> Ch.backslash -> (32 <= c)%N ->
  parse_chars (c :: tail) = cons_char c (parse_chars tail).
Proof.
  intros Hq Hb Hc. simpl.
  apply unit_eqb_neq in Hq, Hb. rewrite Hq, Hb.
  apply N.ltb_ge in Hc. now rewrite Hc.
Qed.

Lemma parse_chars_quote_unit (c : code_unit) (tail : jstring) :
  parse_chars (quote_unit c ++ tail) = cons_char c (parse_chars tail).
Proof.
  unfold quote_unit.
  destruct (unit_eqb c 8) eqn:E8; [apply unit_eqb_eq in E8; now subst|].
  destruct (unit_eqb c 9) eqn:E9; [apply unit_eqb_eq in E9; now subst|].
  destruct (unit_eqb c 10) eqn:E10; [apply unit_eqb_eq in E10; now subst|].
  destruct (unit_eqb c 12) eqn:E12; [apply unit_eqb_eq in E12; now subst|].
  destruct (unit_eqb c 13) eqn:E13; [apply unit_eqb_eq in E13; now subst|].
  destruct (unit_eqb c Ch.quote) eqn:Eq; [apply unit_eqb_eq in Eq; now subst|].
  destruct (unit_eqb c Ch.backslash) eqn:Eb; [apply unit_eqb_eq in Eb; now subst|].
  destruct ((c <? 32)%N || is_leading_surrogate c || is_trailing_surrogate c) eqn:Eu.
  - assert (Hc : (c < 65536)%N).
    { unfold is_leading_surrogate, is_trailing_surrogate in Eu.
      apply orb_true_iff in Eu as [Eu | Eu];
        [apply orb_true_iff in Eu as [Eu | Eu]|].
      - apply N.ltb_lt in Eu. lia.
      - apply andb_true_iff in Eu as [_ Eu]. apply N.leb_le in Eu. lia.
      - apply andb_true_iff in Eu as [_ Eu]. apply N.leb_le in Eu. lia. }
    unfold unicode_escape.
    change (parse_chars ([Ch.backslash; Ch.lower_u;
                          hex_char ((c / 4096) mod 16); hex_char ((c / 256) mod 16);
                          hex_char ((c / 16) mod 16); hex_char (c mod 16)] ++ tail))
      with (match hex4_value (hex_char ((c / 4096) mod 16)) (hex_char ((c / 256) mod 16))
                             (hex_char ((c / 16) mod 16)) (hex_char (c mod 16)) with
            | Some u => cons_char u (parse_chars tail)
            | None => None
            end).
    now rewrite hex4_unicode_escape.
  - apply orb_false_iff in Eu as [Eu _]. apply orb_false_iff in Eu as [Eu _].
    apply N.ltb_ge in Eu. apply unit_eqb_neq in Eq, Eb.
    now apply parse_chars_plain.
Qed.

Lemma surrogate_plain (c : code_unit) :
  is_leading_surrogate c = true \/ is_trailing_surrogate c = true ->
  c <> Ch.quote /\ c <> Ch.backslash /\ (32 <= c)%N.
Proof.
  unfold is_leading_surrogate, is_trailing_surrogate, Ch.quote, Ch.backslash.
  intros [H | H]; apply andb_true_iff in H as [H _]; apply N.leb_le in H;
    repeat split; lia.
Qed.

Lemma parse_chars_quote_units_bounded (n : nat) :
  forall s rest, (List.length s <= n)%nat ->
    parse_chars (quote_units s ++ Ch.quote :: rest) = Some (s, rest).
Proof.
  induction n as [|n IH]; intros s rest Hlen.
  - destruct s; [reflexivity | simpl in Hlen; lia].
  - destruct s as [|c s]; [reflexivity|].
    simpl in Hlen. cbn [quote_units].
    assert (Hone : parse_chars ((quote_unit c ++ quote_units s) ++ Ch.quote :: rest)
                   = Some (c :: s, rest)).
    { rewrite <- app_assoc, parse_chars_quote_unit, IH by lia. reflexivity. }
    destruct (is_leading_surrogate c) eqn:Elead; [|exact Hone].
    destruct s as [|d s];
      [cbn [quote_units] in Hone; rewrite app_nil_r in Hone; exact Hone|].
    destruct (is_trailing_surrogate d) eqn:Etrail; [|exact Hone].
    destruct (surrogate_plain c (or_introl Elead)) as (Hq & Hb & Hc).
    destruct (surrogate_plain d (or_intror Etrail)) as (Hq' & Hb' & Hc').
    cbn [app]. rewrite parse_chars_plain, parse_chars_plain by assumption.
    simpl in Hlen. rewrite IH by lia. reflexivity.
Qed.

Lemma parse_chars_quote_units (s rest : jstring) :
  parse_chars (quote_units s ++ Ch.quote :: rest) = Some (s, rest).
Proof. now apply (parse_chars_quote_units_bounded (List.length s)). Qed.

(** ** Decimal digits *)

Lemma pos_lt_pow2_size (p : positive) : Z.pos p < 2 ^ Z.of_nat (Pos.size_nat p).
Proof.
  induction p as [p IH | p IH |]; cbn [Pos.size_nat];
    rewrite ?Nat2Z.inj_succ, ?Z.pow_succ_r by lia;
    [rewrite Pos2Z.inj_xI | rewrite Pos2Z.inj_xO | ]; lia.
Qed.

Lemma is_digit_digit_char (n : Z) : 0 <= n <= 9 -> is_digit (digit_char n) = true.
Proof.
  intro H. unfold is_digit, digit_char.
  apply andb_true_iff; split; apply N.leb_le; lia.
Qed.

Lemma digit_char_nonzero (n : Z) : 1 <= n <= 9 -> digit_char n <> Ch.zero.
Proof. unfold digit_char, Ch.zero. lia. Qed.

Lemma digits_loop_shape (fuel : nat) :
  forall n acc, 0 < n < 2 ^ Z.of_nat fuel ->
    exists d tl, digits_loop fuel n acc = d :: tl ++ acc
                 /\ is_digit d = true /\ d <> Ch.zero /\ forallb is_digit tl = true.
Proof.
  induction fuel as [|fuel IH]; intros n acc Hn.
  - simpl in Hn. lia.
  - cbn [digits_loop]. destruct (n <? 10) eqn:E.
    + apply Z.ltb_lt in E. exists (digit_char n), [].
      repeat split; [apply is_digit_digit_char | apply digit_char_nonzero]; lia.
    + apply Z.ltb_ge in E.
      rewrite Nat2Z.inj_succ, Z.pow_succ_r in Hn by lia.
      destruct (IH (n / 10) (digit_char (n mod 10) :: acc)) as (d & tl & -> & Hd & Hz & Htl).
      { split; [apply Z.div_str_pos; lia|].
        apply Z.div_lt_upper_bound; lia. }
      exists d, (tl ++ [digit_char (n mod 10)]).
      rewrite <- app_assoc. repeat split; try assumption.
      rewrite forallb_app, Htl. simpl.
      rewrite is_digit_digit_char; [reflexivity|].
      pose proof (Z.mod_pos_bound n 10). lia.
Qed.

Lemma digits_of_pos_shape (p : positive) : leading_digits (digits_of_pos p).
Proof.
  unfold digits_of_pos.
  destruct (digits_loop_shape (Pos.size_nat p) (Z.pos p) []) as (d & tl & E & H).
  { split; [lia | apply pos_lt_pow2_size]. }
  exists d, tl. rewrite E, app_nil_r. now split.
Qed.

Lemma leading_digits_all (ds : jstring) :
  leading_digits ds -> forallb is_digit ds = true /\ ds <> [].
Proof.
  intros (d & tl & -> & Hd & _ & Htl). simpl. rewrite Hd, Htl. now split.
Qed.

(** ** Binary digits *)

Lemma fexp_eq (z : Z) : fexp prec emax z = Z.max (z - 53) (-1074).
Proof. reflexivity. Qed.

Lemma digits2_pos_size (p : positive) : digits2_pos p = Pos.size p.
Proof. induction p; simpl; congruence. Qed.

Lemma digits2_pos_bounds (p : positive) :
  2 ^ (Z.pos (digits2_pos p) - 1) <= Z.pos p < 2 ^ Z.pos (digits2_pos p).
Proof.
  rewrite digits2_pos_size.
  pose proof (Pos.size_gt p) as Hgt. pose proof (Pos.size_le p) as Hle.
  apply Pos2Z.pos_lt_pos in Hgt. apply Pos2Z.pos_le_pos in Hle.
  rewrite Pos2Z.inj_pow in Hgt, Hle. change (Z.pos p~0) with (2 * Z.pos p) in Hle.
  split; [|exact Hgt].
  replace (Z.pos (Pos.size p)) with (Z.succ (Z.pos (Pos.size p) - 1)) in Hle by lia.
  rewrite Z.pow_succ_r in Hle by lia. lia.
Qed.

Lemma Zdigits2_bounds (m : Z) :
  0 < m -> 2 ^ (Zdigits2 m - 1) <= m < 2 ^ Zdigits2 m.
Proof. destruct m as [|p|p]; try lia. intros _. apply digits2_pos_bounds. Qed.

Lemma Zdigits2_pos (m : Z) : 0 < m -> 0 < Zdigits2 m.
Proof. destruct m; simpl; lia. Qed.

Lemma Zdigits2_nonneg (m : Z) : 0 <= Zdigits2 m.
Proof. destruct m; simpl; lia. Qed.

Lemma pow2_lt_inv (a b : Z) : 0 <= b -> 2 ^ a < 2 ^ b -> a < b.
Proof. intros Hb H. apply (Z.pow_lt_mono_r_iff 2); lia. Qed.

Lemma pow2_le (a b : Z) : 0 <= a <= b -> 2 ^ a <= 2 ^ b.
Proof. intro H. apply Z.pow_le_mono_r; lia. Qed.

Lemma pow2_pos (a : Z) : 0 <= a -> 0 < 2 ^ a.
Proof. intro H. apply Z.pow_pos_nonneg; lia. Qed.

(** The number of binary digits is fixed by the powers of two around. *)
Lemma Zdigits2_unique (m k : Z) :
  2 ^ (k - 1) <= m < 2 ^ k -> 0 < k -> Zdigits2 m = k.
Proof.
  intros [Hlo Hhi] Hk.
  assert (Hm : 0 < m) by (pose proof (pow2_pos (k - 1)); lia).
  pose proof (Zdigits2_bounds m Hm) as [Hlo' Hhi'].
  pose proof (Zdigits2_pos m Hm) as Hd.
  assert (k - 1 < Zdigits2 m).
  { apply pow2_lt_inv; lia. }
  assert (Zdigits2 m - 1 < k).
  { apply pow2_lt_inv; lia. }
  lia.
Qed.

Lemma Zdigits2_le (m k : Z) : 0 <= k -> 0 <= m < 2 ^ k -> Zdigits2 m <= k.
Proof.
  intros Hk [H0 Hm].
  destruct (Z.eq_dec m 0) as [-> | Hne]; [simpl; lia|].
  pose proof (Zdigits2_bounds m ltac:(lia)) as [Hlo _].
  pose proof (Zdigits2_pos m ltac:(lia)).
  assert (Zdigits2 m - 1 < k) by (apply pow2_lt_inv; lia).
  lia.
Qed.

Lemma Zdigits2_ge (m k : Z) : 2 ^ (k - 1) <= m -> 0 < k -> k <= Zdigits2 m.
Proof.
  intros Hm Hk.
  assert (0 < m) by (pose proof (pow2_pos (k - 1)); lia).
  pose proof (Zdigits2_bounds m ltac:(lia)) as [_ Hhi].
  assert (k - 1 < Zdigits2 m) by (apply pow2_lt_inv; [apply Zdigits2_nonneg | lia]).
  lia.
Qed.

Lemma Zdigits2_shift (m n : Z) : 0 < m -> 0 <= n -> Zdigits2 (m * 2 ^ n) = Zdigits2 m + n.
Proof.
  intros Hm Hn. pose proof (Zdigits2_bounds m Hm) as [Hlo Hhi].
  pose proof (Zdigits2_pos m Hm). pose proof (pow2_pos n Hn).
  apply Zdigits2_unique; [|lia].
  replace (Zdigits2 m + n - 1) with ((Zdigits2 m - 1) + n) by lia.
  rewrite !Z.pow_add_r by lia. nia.
Qed.

(** The digits of a quotient by a power of two. *)
Lemma Zdigits2_div (m n : Z) :
  0 < m -> 0 <= n -> Zdigits2 (m / 2 ^ n) = Z.max (Zdigits2 m - n) 0.
Proof.
  intros Hm Hn. pose proof (Zdigits2_bounds m Hm) as [Hlo Hhi].
  pose proof (Zdigits2_pos m Hm) as Hd. pose proof (pow2_pos n Hn) as Hp.
  destruct (Z_lt_le_dec n (Zdigits2 m)) as [Hlt | Hge].
  - rewrite Z.max_l by lia. apply Zdigits2_unique; [|lia]. split.
    + apply Z.div_le_lower_bound; [lia|].
      rewrite <- Z.pow_add_r by lia. now replace (n + (Zdigits2 m - n - 1)) with (Zdigits2 m - 1) by lia.
    + apply Z.div_lt_upper_bound; [lia|].
      rewrite <- Z.pow_add_r by lia. now replace (n + (Zdigits2 m - n)) with (Zdigits2 m) by lia.
  - rewrite Z.max_r by lia. rewrite Z.div_small; [reflexivity|].
    split; [lia|]. pose proof (pow2_le (Zdigits2 m) n). lia.
Qed.

(** ** Shifting a mantissa *)

Lemma iter_pos_iter {A : Type} (f : A -> A) (p : positive) (x : A) :
  iter_pos f p x = Pos.iter f x p.
Proof.
  revert x. induction p as [p IH | p IH |]; intro x; simpl.
  - rewrite !IH. now rewrite <- !Pos.iter_swap.
  - now rewrite !IH.
  - reflexivity.
Qed.

Lemma shr_1_m (mrs : shr_record) :
  0 <= shr_m mrs -> shr_m (shr_1 mrs) = shr_m mrs / 2.
Proof.
  destruct mrs as [m r s]. simpl. intro Hm.
  destruct m as [|[p|p|]|p]; simpl; try lia; try reflexivity.
  - rewrite Pos2Z.inj_xI. apply Z.div_unique with 1; lia.
  - rewrite Pos2Z.inj_xO. apply Z.div_unique with 0; lia.
Qed.

Lemma iter_shr_1_m (p : positive) (mrs : shr_record) :
  0 <= shr_m mrs -> shr_m (Pos.iter shr_1 mrs p) = shr_m mrs / 2 ^ Z.pos p.
Proof.
  intro Hm. induction p as [|p IH] using Pos.peano_ind.
  - simpl. rewrite shr_1_m by assumption. reflexivity.
  - rewrite Pos.iter_succ, shr_1_m.
    + rewrite IH, Pos2Z.inj_succ, Z.pow_succ_r by lia.
      rewrite Z.div_div by (try apply pow2_pos; lia). f_equal. lia.
    + rewrite IH. apply Z.div_pos; [lia | apply pow2_pos; lia].
Qed.

Lemma shr_m_of_loc (m : Z) (l : location) : shr_m (shr_record_of_loc m l) = m.
Proof. destruct l as [|[]]; reflexivity. Qed.

(** What [shr] leaves of the mantissa. *)
Lemma shr_spec (m : Z) (l : location) (e n : Z) :
  0 <= m ->
  shr_m (fst (shr (shr_record_of_loc m l) e n)) = m / 2 ^ Z.max n 0
  /\ snd (shr (shr_record_of_loc m l) e n) = e + Z.max n 0.
Proof.
  intro Hm. destruct n as [|p|p]; simpl.
  - rewrite shr_m_of_loc, Z.div_1_r. split; [reflexivity | lia].
  - rewrite iter_pos_iter, iter_shr_1_m by now rewrite shr_m_of_loc.
    rewrite shr_m_of_loc. split; reflexivity.
  - rewrite shr_m_of_loc, Z.div_1_r. split; [reflexivity | lia].
Qed.

Lemma shr_1_even (a : Z) :
  0 <= a -> shr_1 (Build_shr_record (2 * a) false false) = Build_shr_record a false false.
Proof. destruct a; try lia; reflexivity. Qed.

Lemma iter_shr_1_exact (p : positive) (a : Z) :
  0 <= a ->
  Pos.iter shr_1 (Build_shr_record (a * 2 ^ Z.pos p) false false) p
  = Build_shr_record a false false.
Proof.
  intro Ha. revert a Ha. induction p as [|p IH] using Pos.peano_ind; intros a Ha.
  - cbn [Pos.iter]. replace (a * 2 ^ 1) with (2 * a) by lia. now apply shr_1_even.
  - rewrite Pos.iter_succ_r.
    rewrite Pos2Z.inj_succ, Z.pow_succ_r by lia.
    replace (a * (2 * 2 ^ Z.pos p)) with (2 * (a * 2 ^ Z.pos p)) by lia.
    rewrite shr_1_even; [now apply IH|].
    pose proof (pow2_pos (Z.pos p)). nia.
Qed.

Lemma round_nearest_even_cases (m : Z) (l : location) :
  round_nearest_even m l = m \/ round_nearest_even m l = m + 1.
Proof. destruct l as [|[]]; simpl; auto. destruct (Z.even m); auto. Qed.

Lemma shl_iter (a d : positive) : Z.pos (Pos.iter xO a d) = Z.pos a * 2 ^ Z.pos d.
Proof.
  induction d as [|d IH] using Pos.peano_ind.
  - simpl. lia.
  - rewrite Pos.iter_succ, Pos2Z.inj_xO, IH, Pos2Z.inj_succ, Z.pow_succ_r by lia. lia.
Qed.

(** ** Rounding *)

Lemma bounded_spec (m : positive) (e : Z) :
  bounded prec emax m e = true
  <-> Z.max (Z.pos (digits2_pos m) + e - 53) (-1074) = e /\ e <= 971.
Proof.
  unfold bounded, canonical_mantissa. rewrite andb_true_iff, Z.eqb_eq, Z.leb_le.
  rewrite fexp_eq. reflexivity.
Qed.

(** A mantissa that is the canonical one shifted left is rounded to it. *)
Lemma binary_round_aux_exact (sx : bool) (m : positive) (e ex : Z) :
  bounded prec emax m e = true -> ex <= e ->
  binary_round_aux prec emax sx (Z.pos m * 2 ^ (e - ex)) ex loc_Exact
  = S754_finite sx m e.
Proof.
  intros Hb Hex. pose proof Hb as Hb'. apply bounded_spec in Hb' as [Hc Hle].
  unfold binary_round_aux, shr_fexp.
  rewrite Zdigits2_shift by lia. rewrite fexp_eq.
  change (Zdigits2 (Z.pos m)) with (Z.pos (digits2_pos m)).
  replace (Z.pos (digits2_pos m) + (e - ex) + ex) with (Z.pos (digits2_pos m) + e)
    by lia.
  rewrite Hc.
  assert (Hshr : shr (shr_record_of_loc (Z.pos m * 2 ^ (e - ex)) loc_Exact) ex (e - ex)
                 = (Build_shr_record (Z.pos m) false false, e)).
  { destruct (e - ex) as [|p|p] eqn:En; try lia.
    - simpl. f_equal; [f_equal; lia | lia].
    - cbn [shr shr_record_of_loc]. rewrite iter_pos_iter, iter_shr_1_exact by lia.
      f_equal. lia. }
  rewrite Hshr. cbn [shr_m loc_of_shr_record round_nearest_even].
  rewrite fexp_eq. cbn [Zdigits2]. rewrite Hc, Z.sub_diag.
  cbn [shr shr_record_of_loc shr_m].
  replace (e <=? emax - prec) with true; [reflexivity|].
  symmetry. apply Z.leb_le. unfold emax, prec. lia.
Qed.

Lemma pow2_53 : 2 ^ 53 = 9007199254740992.
Proof. reflexivity. Qed.

Lemma pow2_52 : 2 ^ 52 = 4503599627370496.
Proof. reflexivity. Qed.

(** A mantissa with at least the digits of the format is rounded to a number
    in canonical form. *)
Lemma binary_round_aux_valid (sx : bool) (mx ex : Z) (lx : location) :
  0 <= mx -> ex <= fexp prec emax (Zdigits2 mx + ex) ->
  valid_binary prec emax (binary_round_aux prec emax sx mx ex lx) = true.
Proof.
  intros Hmx Hex. unfold binary_round_aux, shr_fexp.
  rewrite fexp_eq in *.
  set (f := Z.max (Zdigits2 mx + ex - 53) (-1074)) in *.
  destruct (shr_spec mx lx ex (f - ex) Hmx) as [Hm1 He1].
  destruct (shr (shr_record_of_loc mx lx) ex (f - ex)) as [mrs' e'].
  cbn [fst snd] in Hm1, He1.
  rewrite Z.max_l in Hm1, He1 by lia.
  assert (He' : e' = f) by lia. clear He1. subst e'.
  set (m1 := shr_m mrs') in *.
  set (m2 := round_nearest_even m1 (loc_of_shr_record mrs')).
  assert (Hm1' : 0 <= m1 < 2 ^ 53 /\ (-1074 < f -> 2 ^ 52 <= m1)).
  { destruct (Z.eq_dec mx 0) as [E0 | Hne].
    - rewrite Hm1, E0, Z.div_0_l by (pose proof (pow2_pos (f - ex)); lia).
      rewrite pow2_53. split; [lia|]. intro Hf. exfalso.
      unfold f in Hf, Hex. rewrite E0 in *. simpl in *. lia.
    - assert (Hpos : 0 < mx) by lia.
      pose proof (Zdigits2_div mx (f - ex) Hpos ltac:(lia)) as Hd.
      rewrite <- Hm1 in Hd.
      pose proof (Zdigits2_pos mx Hpos) as Hdx.
      assert (H0 : 0 <= m1).
      { rewrite Hm1. apply Z.div_pos; [lia | apply pow2_pos; lia]. }
      split; [split; [exact H0|]|].
      + destruct (Z.eq_dec m1 0) as [-> | Hne1]; [rewrite pow2_53; lia|].
        pose proof (Zdigits2_bounds m1 ltac:(lia)) as [_ Hhi].
        pose proof (Zdigits2_pos m1 ltac:(lia)).
        pose proof (pow2_le (Zdigits2 m1) 53). unfold f in *. lia.
      + intro Hf.
        assert (Hdd : Zdigits2 m1 = 53) by (unfold f in *; lia).
        destruct (Z.eq_dec m1 0) as [E | Hne1]; [rewrite E in Hdd; discriminate|].
        pose proof (Zdigits2_bounds m1 ltac:(lia)) as [Hlo _].
        now rewrite Hdd in Hlo. }
  destruct Hm1' as [[Hm1lo Hm1hi] Hnorm].
  assert (Hm2 : (m2 = m1 \/ m2 = m1 + 1)) by apply round_nearest_even_cases.
  assert (Hm2pos : 0 <= m2) by lia.
  rewrite (fexp_eq (Zdigits2 m2 + f)).
  set (n2 := Z.max (Zdigits2 m2 + f - 53) (-1074) - f).
  destruct (shr_spec m2 loc_Exact f n2 Hm2pos) as [Hm3 He3].
  destruct (shr (shr_record_of_loc m2 loc_Exact) f n2) as [mrs'' e''].
  cbn [fst snd] in Hm3, He3.
  destruct (shr_m mrs'') as [|m3|m3] eqn:E3; try reflexivity.
  destruct (e'' <=? emax - prec) eqn:Ele; [|reflexivity].
  cbn [valid_binary]. apply bounded_spec.
  apply Z.leb_le in Ele. unfold emax, prec in Ele. split; [|lia].
  change (Z.pos (digits2_pos m3)) with (Zdigits2 (Z.pos m3)).
  assert (Hf : -1074 <= f) by (unfold f; lia).
  rewrite pow2_53 in *. rewrite pow2_52 in *.
  destruct (Z.eq_dec m2 9007199254740992) as [E2 | Hne2].
  - assert (Hd2 : Zdigits2 m2 = 54) by (rewrite E2; reflexivity).
    unfold n2 in *. rewrite Hd2 in *.
    replace (Z.max (Z.max (54 + f - 53) (-1074) - f) 0) with 1 in * by lia.
    rewrite E2 in Hm3. change (9007199254740992 / 2 ^ 1) with 4503599627370496 in Hm3.
    rewrite Hm3. change (Zdigits2 4503599627370496) with 53. lia.
  - assert (Hlt : m2 < 2 ^ 53) by (rewrite pow2_53; lia).
    pose proof (Zdigits2_le m2 53 ltac:(lia) ltac:(lia)) as Hd2.
    unfold n2 in *.
    replace (Z.max (Z.max (Zdigits2 m2 + f - 53) (-1074) - f) 0) with 0 in * by lia.
    rewrite Z.div_1_r in Hm3. rewrite Hm3, He3, Z.add_0_r.
    destruct (Z.eq_dec f (-1074)) as [Ef | Hfne]; [lia|].
    assert (Hge : 53 <= Zdigits2 m2).
    { apply Zdigits2_ge; [|lia]. change (2 ^ (53 - 1)) with 4503599627370496. lia. }
    lia.
Qed.

(** ** The sign *)

Lemma binary_round_aux_opp (mx ex : Z) (lx : location) :
  binary_round_aux prec emax true mx ex lx
  = SFopp (binary_round_aux prec emax false mx ex lx).
Proof.
  unfold binary_round_aux.
  destruct (shr_fexp prec emax mx ex lx) as [mrs' e'].
  destruct (shr_fexp prec emax _ e' loc_Exact) as [mrs'' e''].
  destruct (shr_m mrs''); [reflexivity | | reflexivity].
  destruct (e'' <=? emax - prec); reflexivity.
Qed.

Lemma number_of_decimal_opp (s t : Z) :
  number_of_decimal true s t = SFopp (number_of_decimal false s t).
Proof.
  unfold number_of_decimal. destruct s as [|p|p]; try reflexivity.
  destruct (0 <=? t).
  - unfold binary_round. destruct (shl_align _ _ _) as [mz ez].
    apply binary_round_aux_opp.
  - unfold SFdiv. destruct (SFdiv_core_binary _ _ _ _ _ _) as [[mz ez] lz].
    apply binary_round_aux_opp.
Qed.

Lemma number_of_decimal_sign (neg : bool) (s t : Z) (m : positive) (e : Z) :
  number_of_decimal false s t = S754_finite false m e ->
  number_of_decimal neg s t = S754_finite neg m e.
Proof.
  intro H. destruct neg; [|exact H]. now rewrite number_of_decimal_opp, H.
Qed.

(** ** The quotient of two integers *)

Lemma new_location_exact (d : Z) : new_location d 0 = loc_Exact.
Proof. unfold new_location. destruct (Z.even d); reflexivity. Qed.

Lemma SFdiv_core_binary_spec (p d : positive) :
  let e' := Z.min (Z.max (Z.pos (digits2_pos p) - Z.pos (digits2_pos d) - 53) (-1074)) 0 in
  SFdiv_core_binary prec emax (Z.pos p) 0 (Z.pos d) 0
  = ((Z.pos p * 2 ^ (- e')) / Z.pos d, e',
     new_location (Z.pos d) ((Z.pos p * 2 ^ (- e')) mod Z.pos d)).
Proof.
  intro e'. unfold SFdiv_core_binary. rewrite fexp_eq. cbn [Zdigits2].
  rewrite !Z.add_0_r, !Z.sub_0_r. change (0 - 0) with 0. fold e'.
  assert (He' : e' <= 0) by (unfold e'; lia).
  assert (Hm : match 0 - e' with
               | 0 => Z.pos p
               | Z.pos _ => Z.shiftl (Z.pos p) (0 - e')
               | Z.neg _ => 0
               end = Z.pos p * 2 ^ (- e')).
  { destruct (0 - e') as [|n|n] eqn:En; try lia.
    - replace (- e') with 0 by lia. lia.
    - rewrite Z.shiftl_mul_pow2 by lia. f_equal. f_equal. lia. }
  rewrite Hm. unfold Z.div, Z.modulo.
  destruct (Z.div_eucl (Z.pos p * 2 ^ (- e')) (Z.pos d)) as [q r]. reflexivity.
Qed.

(** ** The numbers [number_of_decimal] builds are in canonical form *)

Lemma binary_round_valid (sx : bool) (p : positive) :
  valid_binary prec emax (binary_round prec emax sx p 0) = true.
Proof.
  unfold binary_round, shl_align. rewrite fexp_eq, Z.add_0_r, Z.sub_0_r.
  remember (Z.max (Z.pos (digits2_pos p) - 53) (-1074)) as f eqn:Ef.
  destruct f as [|n|n].
  - apply binary_round_aux_valid; [lia|].
    rewrite fexp_eq. cbn [Zdigits2]. lia.
  - apply binary_round_aux_valid; [lia|].
    rewrite fexp_eq. cbn [Zdigits2]. lia.
  - apply binary_round_aux_valid; [lia|].
    rewrite fexp_eq, shl_iter, Zdigits2_shift by lia. cbn [Zdigits2]. lia.
Qed.

Lemma SFdiv_valid (sx : bool) (p d : positive) :
  valid_binary prec emax
    (SFdiv prec emax (S754_finite sx p 0) (S754_finite false d 0)) = true.
Proof.
  unfold SFdiv. rewrite SFdiv_core_binary_spec.
  set (dp := Z.pos (digits2_pos p)). set (dd := Z.pos (digits2_pos d)).
  set (e' := Z.min (Z.max (dp - dd - 53) (-1074)) 0).
  assert (Hpow : 0 < 2 ^ (- e')) by (apply pow2_pos; unfold e'; lia).
  apply binary_round_aux_valid.
  - apply Z.div_pos; lia.
  - rewrite fexp_eq.
    destruct (Z_le_gt_dec e' (-1074)) as [Hle | Hgt]; [lia|].
    assert (He : e' <= dp - dd - 53) by (unfold e' in *; lia).
    assert (He0 : e' <= 0) by (unfold e'; lia).
    enough (53 <= Zdigits2 (Z.pos p * 2 ^ (- e') / Z.pos d)) by lia.
    apply Zdigits2_ge; [|lia].
    apply Z.div_le_lower_bound; [lia|].
    pose proof (digits2_pos_bounds p) as [Hplo _].
    pose proof (digits2_pos_bounds d) as [_ Hdhi].
    fold dp in Hplo. fold dd in Hdhi.
    assert (Hdd : 0 < dd) by (unfold dd; lia).
    assert (H1 : 2 ^ dd * 2 ^ (53 - 1) <= 2 ^ (dp - 1) * 2 ^ (- e')).
    { rewrite <- !Z.pow_add_r by lia. apply pow2_le. lia. }
    pose proof (pow2_pos (53 - 1) ltac:(lia)).
    pose proof (pow2_pos (dp - 1) ltac:(unfold dp; lia)).
    nia.
Qed.

Lemma number_of_decimal_valid (neg : bool) (s t : Z) :
  valid_binary prec emax (number_of_decimal neg s t) = true.
Proof.
  unfold number_of_decimal. destruct s as [|p|p]; try reflexivity.
  destruct (0 <=? t); [apply binary_round_valid | apply SFdiv_valid].
Qed.

(** ** A decimal that is a binary64 value is read as that value *)

Lemma binary_round_exact (neg : bool) (p m : positive) (e : Z) :
  bounded prec emax m e = true ->
  Z.pos p * 2 ^ Z.max (- e) 0 = Z.pos m * 2 ^ Z.max e 0 ->
  binary_round prec emax neg p 0 = S754_finite neg m e.
Proof.
  intros Hb Hv. pose proof Hb as Hb'. apply bounded_spec in Hb' as [Hc Hle].
  unfold binary_round, shl_align. rewrite fexp_eq, Z.add_0_r, Z.sub_0_r.
  destruct (Z_le_gt_dec 0 e) as [He | He].
  - rewrite (Z.max_r (- e) 0), (Z.max_l e 0), Z.pow_0_r, Z.mul_1_r in Hv by lia.
    assert (Hd : Z.pos (digits2_pos p) = Z.pos (digits2_pos m) + e).
    { change (Zdigits2 (Z.pos p) = Zdigits2 (Z.pos m) + e).
      rewrite Hv. apply Zdigits2_shift; lia. }
    rewrite Hd, Hc.
    replace (match e with Z.neg d => (Pos.iter xO p d, e) | _ => (p, 0) end)
      with (p, 0) by (destruct e; try reflexivity; lia).
    rewrite Hv. replace e with (e - 0) at 1 by lia.
    now apply binary_round_aux_exact.
  - rewrite (Z.max_l (- e) 0), (Z.max_r e 0), Z.pow_0_r, Z.mul_1_r in Hv by lia.
    assert (Hd : Z.pos (digits2_pos m) = Z.pos (digits2_pos p) + - e).
    { change (Zdigits2 (Z.pos m) = Zdigits2 (Z.pos p) + - e).
      rewrite <- Hv. apply Zdigits2_shift; lia. }
    replace (Z.pos (digits2_pos p) - 53) with (Z.pos (digits2_pos m) + e - 53) by lia.
    rewrite Hc. destruct e as [|n|n]; try lia.
    assert (Hm : Pos.iter xO p n = m).
    { apply Pos2Z.inj. rewrite shl_iter. exact Hv. }
    rewrite Hm.
    replace (Z.pos m) with (Z.pos m * 2 ^ (Z.neg n - Z.neg n))
      by (rewrite Z.sub_diag; lia).
    apply binary_round_aux_exact; [assumption | lia].
Qed.

Lemma SFdiv_exact (neg : bool) (p d m : positive) (e : Z) :
  bounded prec emax m e = true ->
  Z.pos p * 2 ^ Z.max (- e) 0 = Z.pos m * 2 ^ Z.max e 0 * Z.pos d ->
  SFdiv prec emax (S754_finite neg p 0) (S754_finite false d 0)
  = S754_finite neg m e.
Proof.
  intros Hb Hv. pose proof Hb as Hb'. apply bounded_spec in Hb' as [Hc Hle].
  unfold SFdiv. rewrite SFdiv_core_binary_spec, xorb_false_r.
  set (dp := Z.pos (digits2_pos p)) in *. set (dd := Z.pos (digits2_pos d)) in *.
  set (dm := Z.pos (digits2_pos m)) in *.
  set (e' := Z.min (Z.max (dp - dd - 53) (-1074)) 0).
  pose proof (digits2_pos_bounds p) as [Hplo Hphi].
  pose proof (digits2_pos_bounds d) as [Hdlo Hdhi].
  pose proof (digits2_pos_bounds m) as [Hmlo Hmhi].
  fold dp in Hplo, Hphi. fold dd in Hdlo, Hdhi. fold dm in Hmlo, Hmhi.
  assert (Hdp : 0 < dp) by (unfold dp; lia).
  assert (Hdd : 0 < dd) by (unfold dd; lia).
  assert (Hdm : 0 < dm) by (unfold dm; lia).
  assert (He' : e' <= e).
  { destruct (Z_le_gt_dec 0 e) as [He | He]; [unfold e'; lia|].
    rewrite (Z.max_l (- e) 0), (Z.max_r e 0), Z.pow_0_r, Z.mul_1_r in Hv by lia.
    enough (dp - dd <= dm + e) by (unfold e'; lia).
    assert (H1 : 2 ^ (dp - 1 - e) < 2 ^ (dm + dd)).
    { replace (dp - 1 - e) with ((dp - 1) + - e) by lia.
      rewrite !Z.pow_add_r by lia.
      pose proof (pow2_pos (- e) ltac:(lia)).
      pose proof (pow2_pos (dp - 1) ltac:(lia)). nia. }
    apply pow2_lt_inv in H1; lia. }
  assert (He0 : e' <= 0) by (unfold e'; lia).
  assert (Hq : Z.pos p * 2 ^ (- e') = Z.pos m * 2 ^ (e - e') * Z.pos d).
  { destruct (Z_le_gt_dec 0 e) as [He | He].
    - rewrite (Z.max_r (- e) 0), (Z.max_l e 0), Z.pow_0_r, Z.mul_1_r in Hv by lia.
      rewrite Hv. replace (e - e') with (e + - e') by lia.
      rewrite Z.pow_add_r by lia. lia.
    - rewrite (Z.max_l (- e) 0), (Z.max_r e 0), Z.pow_0_r, Z.mul_1_r in Hv by lia.
      replace (- e') with (- e + (e - e')) by lia.
      rewrite Z.pow_add_r by lia. rewrite Z.mul_assoc, Hv. lia. }
  rewrite Hq, Z.div_mul, Z.mod_mul by lia.
  rewrite new_location_exact.
  now apply binary_round_aux_exact.
Qed.

Lemma pow10_pos (n : Z) : 0 <= n -> 0 < 10 ^ n.
Proof. intro H. apply Z.pow_pos_nonneg; lia. Qed.

Lemma number_of_decimal_exact (neg : bool) (s t : Z) (m : positive) (e : Z) :
  0 < s -> bounded prec emax m e = true -> represents s t m e ->
  number_of_decimal neg s t = S754_finite neg m e.
Proof.
  intros Hs Hb Hv. unfold represents in Hv. unfold number_of_decimal.
  destruct s as [|p|p]; try lia.
  destruct (0 <=? t) eqn:Et.
  - apply Z.leb_le in Et. rewrite (Z.max_l t 0), (Z.max_r (- t) 0), (Z.pow_0_r 10), Z.mul_1_r in Hv by lia.
    pose proof (pow10_pos t Et).
    apply binary_round_exact; [assumption|].
    rewrite Pos2Z.inj_mul, Z2Pos.id by assumption. exact Hv.
  - apply Z.leb_gt in Et. rewrite (Z.max_r t 0), (Z.max_l (- t) 0), (Z.pow_0_r 10), Z.mul_1_r in Hv by lia.
    pose proof (pow10_pos (- t) ltac:(lia)).
    apply SFdiv_exact; [assumption|].
    rewrite Z2Pos.id by assumption. exact Hv.
Qed.

(** ** The decimal Number::toString chooses *)

Lemma number_eqb_eq (x y : number) : number_eqb x y = true -> x = y.
Proof.
  destruct x as [a | a | | a m e], y as [b | b | | b m' e']; simpl; try discriminate;
    try reflexivity.
  - intro H. apply Bool.eqb_prop in H. now subst.
  - intro H. apply Bool.eqb_prop in H. now subst.
  - rewrite !andb_true_iff. intros [[H1 H2] H3].
    apply Bool.eqb_prop in H1. apply Pos.eqb_eq in H2. apply Z.eqb_eq in H3.
    now subst.
Qed.

Lemma number_eqb_refl (x : number) : number_eqb x x = true.
Proof.
  destruct x as [a | a | | a m e]; simpl; rewrite ?Bool.eqb_reflx; try reflexivity.
  now rewrite Pos.eqb_refl, Z.eqb_refl.
Qed.

(** A decimal read as a finite number has a positive coefficient. *)
Lemma number_of_decimal_finite (s t : Z) (neg : bool) (m : positive) (e : Z) :
  number_of_decimal false s t = S754_finite neg m e -> 0 < s.
Proof. destruct s; simpl; try discriminate. lia. Qed.

Lemma represents_strip (s t : Z) (m : positive) (e : Z) :
  represents (10 * s) t m e -> represents s (t + 1) m e.
Proof.
  unfold represents. intro H.
  set (A := 2 ^ Z.max (- e) 0) in *. set (B := Z.pos m * 2 ^ Z.max e 0) in *.
  destruct (Z_le_gt_dec 0 t) as [Ht | Ht].
  - rewrite (Z.max_l t 0), (Z.max_r (- t) 0) in H by lia.
    rewrite (Z.max_l (t + 1) 0), (Z.max_r (- (t + 1)) 0) by lia.
    rewrite Z.pow_add_r by lia. change (10 ^ 1) with 10. lia.
  - rewrite (Z.max_r t 0), (Z.max_l (- t) 0) in H by lia.
    rewrite (Z.max_r (t + 1) 0), (Z.max_l (- (t + 1)) 0) by lia.
    replace (- t) with (- (t + 1) + 1) in H by lia.
    rewrite Z.pow_add_r in H by lia. change (10 ^ 1) with 10 in H.
    rewrite Z.pow_0_r in *. lia.
Qed.

Lemma strip_zeros_represents (fuel : nat) (m : positive) (e : Z) :
  forall s t, 0 < s -> represents s t m e ->
    0 < fst (strip_zeros fuel s t)
    /\ represents (fst (strip_zeros fuel s t)) (snd (strip_zeros fuel s t)) m e.
Proof.
  induction fuel as [|fuel IH]; intros s t Hs Hr; cbn [strip_zeros].
  - now split.
  - destruct ((s mod 10 =? 0) && (0 <? s)) eqn:E; [|now split].
    apply andb_true_iff in E as [E _]. apply Z.eqb_eq in E.
    assert (Hs10 : s = 10 * (s / 10)).
    { pose proof (Z.div_mod s 10 ltac:(lia)). lia. }
    apply IH; [lia|]. apply represents_strip. now rewrite <- Hs10.
Qed.

Lemma full_expansion_represents (m : positive) (e : Z) :
  0 < fst (full_expansion m e)
  /\ represents (fst (full_expansion m e)) (snd (full_expansion m e)) m e.
Proof.
  unfold full_expansion. destruct (0 <=? e) eqn:E.
  - apply Z.leb_le in E. apply strip_zeros_represents.
    + pose proof (pow2_pos e E). nia.
    + unfold represents. rewrite (Z.max_r (- e) 0), (Z.max_l e 0) by lia.
      rewrite !Z.max_id, (Z.pow_0_r 2). lia.
  - apply Z.leb_gt in E. apply strip_zeros_represents.
    + assert (0 < 5 ^ (- e)) by (apply Z.pow_pos_nonneg; lia). nia.
    + unfold represents.
      rewrite (Z.max_l (- e) 0), (Z.max_r e 0) by lia.
      rewrite !Z.pow_0_r, !Z.mul_1_r, <- Z.mul_assoc, <- Z.pow_mul_l. reflexivity.
Qed.

Lemma full_expansion_reads (m : positive) (e : Z) :
  bounded prec emax m e = true -> reads_as (full_expansion m e) m e.
Proof.
  intro Hb. destruct (full_expansion_represents m e) as [Hs Hr].
  split; [exact Hs|]. now apply number_of_decimal_exact.
Qed.

Lemma candidate_reads (m : positive) (e k : Z) (st : Z * Z) :
  candidate m e k = Some st -> reads_as st m e.
Proof.
  unfold candidate. destruct (fraction_of m e) as [p q].
  destruct (scaled p q (decade p q - k)) as [[lo r] den].
  set (lower := strip_zeros (Z.to_nat k) lo (decade p q - k)).
  set (upper := strip_zeros (Z.to_nat k) (lo + 1) (decade p q - k)).
  assert (Hok : forall c, number_eqb (number_of_decimal false (fst c) (snd c))
                            (S754_finite false m e) = true -> reads_as c m e).
  { intros c H. apply number_eqb_eq in H. split; [|exact H].
    now apply number_of_decimal_finite in H. }
  destruct (number_eqb (number_of_decimal false (fst lower) (snd lower)) _) eqn:El;
    destruct (number_eqb (number_of_decimal false (fst upper) (snd upper)) _) eqn:Eu;
    try discriminate.
  - destruct (2 * r ?= den); [destruct (Z.even lo)| |];
      intro H; injection H as <-; auto.
  - intro H; injection H as <-; auto.
  - intro H; injection H as <-; auto.
Qed.

Lemma shortest_from_reads (fuel : nat) (m : positive) (e : Z) :
  bounded prec emax m e = true ->
  forall k, reads_as (shortest_from fuel m e k) m e.
Proof.
  intro Hb. induction fuel as [|fuel IH]; intro k; cbn [shortest_from].
  - now apply full_expansion_reads.
  - destruct (candidate m e k) as [st|] eqn:E; [|apply IH].
    now apply candidate_reads in E.
Qed.

(** ** Decimal numerals *)

Lemma digits_value_snoc (ds : list code_unit) (c : code_unit) :
  digits_value (ds ++ [c]) = 10 * digits_value ds + digit_value c.
Proof. unfold digits_value. now rewrite fold_left_app. Qed.

Lemma digits_value_app (a b : list code_unit) :
  digits_value (a ++ b) = digits_value a * 10 ^ Z.of_nat (List.length b) + digits_value b.
Proof.
  induction b as [|c b IH] using rev_ind.
  - rewrite app_nil_r. simpl. unfold digits_value at 3. simpl. lia.
  - rewrite app_assoc, !digits_value_snoc, IH, length_app, Nat2Z.inj_add.
    cbn [List.length]. rewrite Z.pow_add_r by lia.
    change (10 ^ Z.of_nat 1) with 10. lia.
Qed.

Lemma digits_value_cons (c : code_unit) (ds : list code_unit) :
  digits_value (c :: ds) = digit_value c * 10 ^ Z.of_nat (List.length ds) + digits_value ds.
Proof.
  change (c :: ds) with ([c] ++ ds). now rewrite digits_value_app.
Qed.

Lemma digit_value_char (n : Z) : 0 <= n -> digit_value (digit_char n) = n.
Proof. intro H. unfold digit_value, digit_char. lia. Qed.

Lemma digits_loop_value (fuel : nat) :
  forall n acc, 0 <= n < 2 ^ Z.of_nat fuel ->
    digits_value (digits_loop fuel n acc)
    = n * 10 ^ Z.of_nat (List.length acc) + digits_value acc.
Proof.
  induction fuel as [|fuel IH]; intros n acc Hn.
  - simpl in Hn. simpl. assert (n = 0) by lia. subst. lia.
  - cbn [digits_loop]. destruct (n <? 10) eqn:E.
    + rewrite digits_value_cons, digit_value_char by lia. reflexivity.
    + apply Z.ltb_ge in E.
      rewrite Nat2Z.inj_succ, Z.pow_succ_r in Hn by lia.
      rewrite IH.
      * rewrite digits_value_cons. cbn [List.length].
        rewrite Nat2Z.inj_succ, Z.pow_succ_r by lia.
        pose proof (Z.mod_pos_bound n 10 ltac:(lia)).
        rewrite digit_value_char by lia.
        pose proof (Z.div_mod n 10 ltac:(lia)). nia.
      * split; [apply Z.div_pos; lia | apply Z.div_lt_upper_bound; lia].
Qed.

Lemma digits_of_pos_value (p : positive) : digits_value (digits_of_pos p) = Z.pos p.
Proof.
  unfold digits_of_pos. rewrite digits_loop_value.
  - simpl. unfold digits_value. simpl. lia.
  - split; [lia | apply pos_lt_pow2_size].
Qed.

Lemma digits_value_zeros_l (n : Z) (ds : list code_unit) :
  digits_value (zeros n ++ ds) = digits_value ds.
Proof.
  unfold zeros. induction (Z.to_nat n) as [|k IH]; [reflexivity|].
  cbn [repeat app]. rewrite digits_value_cons, IH. reflexivity.
Qed.

Lemma digits_value_zeros_r (ds : list code_unit) (n : Z) :
  0 <= n -> digits_value (ds ++ zeros n) = digits_value ds * 10 ^ n.
Proof.
  intro Hn. rewrite digits_value_app.
  pose proof (digits_value_zeros_l n []) as H. rewrite app_nil_r in H.
  rewrite H. unfold zeros. rewrite repeat_length, Z2Nat.id by lia.
  unfold digits_value at 2. simpl. lia.
Qed.

(** The digits and the exponent Number::toString writes for a canonical
    [m * 2^e] name a decimal that is read as [m * 2^e]. *)
Lemma shortest_digits_reads (neg : bool) (m : positive) (e : Z) :
  bounded prec emax m e = true ->
  number_of_decimal neg (digits_value (fst (shortest_digits m e)))
    (snd (shortest_digits m e) - Z.of_nat (List.length (fst (shortest_digits m e))))
  = S754_finite neg m e.
Proof.
  intro Hb. unfold shortest_digits.
  destruct (shortest_from_reads 17 m e Hb 1) as [Hs Hr].
  destruct (shortest_from 17 m e 1) as [s t]. cbn [fst snd] in *.
  rewrite digits_of_pos_value, Z2Pos.id by assumption.
  replace (t + _ - _) with t by lia.
  now apply number_of_decimal_sign.
Qed.

Lemma number_of_decimal_zeros (neg : bool) (s j : Z) :
  0 < s -> 0 <= j -> number_of_decimal neg (s * 10 ^ j) 0 = number_of_decimal neg s j.
Proof.
  intros Hs Hj. pose proof (pow10_pos j Hj) as Hp.
  unfold number_of_decimal. destruct s as [|p|p]; try lia.
  replace (0 <=? j) with true by (symmetry; now apply Z.leb_le).
  destruct (Z.pos p * 10 ^ j) as [|P|P] eqn:E; try lia.
  cbn [Z.leb Z.compare]. change (Z.to_pos (10 ^ 0)) with 1%positive.
  rewrite Pos.mul_1_r. f_equal. apply Pos2Z.inj.
  rewrite Pos2Z.inj_mul, Z2Pos.id by assumption. now rewrite E.
Qed.

(** ** Number literals are read back *)

Lemma span_digits_app (ds rest : jstring) :
  forallb is_digit ds = true -> no_digit_head rest ->
  span_digits (ds ++ rest) = (ds, rest).
Proof.
  intros Hds Hrest. induction ds as [|d ds IH]; simpl.
  - destruct rest as [|c rest]; [reflexivity|]. simpl in *. now rewrite Hrest.
  - simpl in Hds. apply andb_true_iff in Hds as [Hd Hds].
    rewrite Hd, IH by assumption. reflexivity.
Qed.

Lemma delimited_no_digit (rest : jstring) : delimited rest -> no_digit_head rest.
Proof. destruct rest; simpl; tauto. Qed.

Lemma lex_int_shape (ip tail : jstring) :
  int_shape ip -> no_digit_head tail -> lex_int (ip ++ tail) = Some (ip, tail).
Proof.
  intros [-> | (d & tl & -> & Hd & Hz & Htl)] Htail; [reflexivity|].
  cbn [app lex_int]. apply unit_eqb_neq in Hz. rewrite Hz, Hd.
  now rewrite span_digits_app.
Qed.

Lemma lex_exp_shape (e : Z) (x rest : jstring) :
  exp_shape e x -> delimited rest -> lex_exp (x ++ rest) = Some (e, rest).
Proof.
  intros [[-> ->] | (sg & ds & -> & Hsg & Hds & Hne)] Hrest.
  - destruct rest as [|c rest]; [reflexivity|].
    simpl in *. destruct Hrest as (_ & _ & He & HE).
    apply unit_eqb_neq in He, HE. now rewrite He, HE.
  - cbn [app lex_exp]. rewrite unit_eqb_refl. cbn [orb].
    apply delimited_no_digit in Hrest.
    destruct Hsg as [[-> ->] | [-> ->]]; cbn [unit_eqb N.eqb Ch.plus Ch.minus Pos.eqb];
      rewrite span_digits_app by assumption;
      destruct ds; [contradiction | reflexivity | contradiction | reflexivity].
Qed.

Lemma lex_frac_shape (fp f tail : jstring) :
  frac_shape fp f -> no_digit_head tail ->
  match tail with [] => True | c :: _ => c <> Ch.dot end ->
  lex_frac (f ++ tail) = Some (fp, tail).
Proof.
  intros [[-> ->] | (-> & Hfp & Hne)] Htail Hdot.
  - destruct tail as [|c tail]; [reflexivity|].
    simpl. apply unit_eqb_neq in Hdot. now rewrite Hdot.
  - cbn [app lex_frac]. rewrite unit_eqb_refl, span_digits_app by assumption.
    destruct fp; [contradiction | reflexivity].
Qed.

Lemma exp_tail (e : Z) (x rest : jstring) :
  exp_shape e x -> delimited rest ->
  no_digit_head (x ++ rest)
  /\ match x ++ rest with [] => True | c :: _ => c <> Ch.dot end.
Proof.
  intros [[-> ->] | (sg & ds & -> & _)] Hrest.
  - destruct rest; simpl in *; tauto.
  - simpl. split; [reflexivity | discriminate].
Qed.

Lemma frac_tail (fp f tail : jstring) :
  frac_shape fp f -> no_digit_head tail -> no_digit_head (f ++ tail).
Proof. intros [[-> ->] | (-> & _)] H; [exact H | reflexivity]. Qed.

Lemma lex_unsigned_shape (neg : bool) (ip fp f x rest : jstring) (e : Z) :
  int_shape ip -> frac_shape fp f -> exp_shape e x -> delimited rest ->
  lex_unsigned neg (ip ++ f ++ x ++ rest) = Some (literal_value neg ip fp e, rest).
Proof.
  intros Hi Hf Hx Hrest. unfold lex_unsigned.
  destruct (exp_tail e x rest Hx Hrest) as [Hnd Hdot].
  rewrite (lex_int_shape ip) by (assumption || now apply (frac_tail fp)).
  rewrite (lex_frac_shape fp) by assumption.
  now rewrite (lex_exp_shape e).
Qed.

Lemma int_shape_head (ip tail : jstring) :
  int_shape ip ->
  exists c s, ip ++ tail = c :: s /\ unit_eqb c Ch.minus = false.
Proof.
  intros [-> | (d & tl & -> & Hd & _)].
  - now exists Ch.zero, tail.
  - exists d, (tl ++ tail). split; [reflexivity|].
    apply unit_eqb_neq. intros ->. discriminate.
Qed.

Lemma lex_number_literal (lit : jstring) (y : number) (rest : jstring) :
  number_literal lit y -> delimited rest ->
  lex_number (lit ++ rest) = Some (y, rest).
Proof.
  intros (neg & ip & fp & f & e & x & -> & Hi & Hf & Hx & ->) Hrest.
  rewrite <- !app_assoc.
  destruct neg; cbn [app lex_number].
  - rewrite unit_eqb_refl. now apply lex_unsigned_shape.
  - destruct (int_shape_head ip (f ++ x ++ rest) Hi) as (c & s & E & Hc).
    rewrite E. cbn [lex_number]. rewrite Hc, <- E. now apply lex_unsigned_shape.
Qed.

Lemma zeros_digits (n : Z) : forallb is_digit (zeros n) = true.
Proof. unfold zeros. induction (Z.to_nat n); simpl; auto. Qed.

Lemma exponent_part_shape (z : Z) : z <> 0 -> exp_shape z (exponent_part z).
Proof.
  intro Hz. unfold exponent_part.
  destruct (leading_digits_all _ (digits_of_pos_shape (Z.to_pos (Z.abs z)))) as [Hd Hne].
  pose proof (digits_of_pos_value (Z.to_pos (Z.abs z))) as Hv.
  rewrite Z2Pos.id in Hv by lia.
  right. destruct (z <? 0) eqn:E.
  - apply Z.ltb_lt in E. eexists _, _. split; [reflexivity|].
    split; [right; split; [reflexivity | lia]|]. now split.
  - apply Z.ltb_ge in E. eexists _, _. split; [reflexivity|].
    split; [left; split; [reflexivity | lia]|]. now split.
Qed.

Lemma digits_value_nonneg (ds : jstring) :
  forallb is_digit ds = true -> 0 <= digits_value ds.
Proof.
  induction ds as [|c ds IH] using rev_ind; intro H; [reflexivity|].
  rewrite forallb_app in H. apply andb_true_iff in H as [Hds Hc].
  rewrite digits_value_snoc. specialize (IH Hds).
  simpl in Hc. rewrite andb_true_r in Hc. unfold is_digit in Hc.
  apply andb_true_iff in Hc as [Hc _]. apply N.leb_le in Hc.
  unfold digit_value. lia.
Qed.

Lemma leading_digits_positive (ds : jstring) : leading_digits ds -> 0 < digits_value ds.
Proof.
  intros (d & tl & -> & Hd & Hz & Htl). rewrite digits_value_cons.
  pose proof (digits_value_nonneg tl Htl).
  pose proof (pow10_pos (Z.of_nat (List.length tl)) ltac:(lia)).
  unfold is_digit in Hd. apply andb_true_iff in Hd as [Hd _]. apply N.leb_le in Hd.
  assert (1 <= digit_value d) by (unfold digit_value, Ch.zero in *; lia).
  nia.
Qed.

(** What is written for the digits [ds] and the exponent [n] is a number
    literal, and its Number value is that of the decimal
    [0.ds * 10^n]. *)
Lemma render_decimal_literal (neg : bool) (ds : jstring) (n : Z) :
  leading_digits ds ->
  number_literal ((if neg then [Ch.minus] else []) ++ render_decimal ds n)
    (number_of_decimal neg (digits_value ds) (n - Z.of_nat (List.length ds))).
Proof.
  intro Hlead. pose proof (leading_digits_positive ds Hlead) as Hpos.
  destruct Hlead as (d & tl & -> & Hd & Hz & Htl). unfold render_decimal.
  set (k := Z.of_nat (List.length (d :: tl))) in *.
  assert (Hk : k = Z.of_nat (S (List.length tl))) by reflexivity.
  destruct ((k <=? n) && (n <=? 21)) eqn:E1;
    [|destruct ((0 <? n) && (n <=? 21)) eqn:E2;
      [|destruct ((-6 <? n) && (n <=? 0)) eqn:E3]].
  - (* digits and zeros *)
    apply andb_true_iff in E1 as [E1 _]. apply Z.leb_le in E1.
    exists neg, ((d :: tl) ++ zeros (n - k)), [], [], 0, [].
    rewrite !app_nil_r. split; [reflexivity|].
    split; [|split; [|split]]; try (left; now split).
    + right. exists d, (tl ++ zeros (n - k)).
      rewrite forallb_app, Htl, zeros_digits. now repeat split.
    + unfold literal_value. rewrite app_nil_r, digits_value_zeros_r by lia.
      cbn [List.length Z.of_nat Z.sub Z.opp Z.add].
      now rewrite number_of_decimal_zeros by lia.
  - (* digits, a dot, digits *)
    apply andb_true_iff in E2 as [Hn Hn']. apply Z.ltb_lt in Hn. apply Z.leb_le in Hn'.
    apply andb_false_iff in E1 as [E1 | E1]; apply Z.leb_gt in E1; [|lia].
    destruct (Z.to_nat n) as [|m] eqn:Em; [lia|].
    assert (Hm : (m < List.length tl)%nat) by lia.
    assert (Hsplit : forallb is_digit (firstn m tl) = true
                     /\ forallb is_digit (skipn m tl) = true).
    { rewrite <- (firstn_skipn m tl), forallb_app in Htl.
      now apply andb_true_iff in Htl. }
    destruct Hsplit as [Hfirst Hskip].
    exists neg, (d :: firstn m tl), (skipn m tl), (Ch.dot :: skipn m tl), 0, [].
    rewrite !app_nil_r. cbn [firstn skipn app].
    split; [reflexivity|].
    split; [right; exists d, (firstn m tl); now repeat split|].
    split; [|split; [left; now split|]].
    + right. repeat split; [assumption|].
      intro Hnil. apply (f_equal (@List.length _)) in Hnil.
      rewrite length_skipn in Hnil. simpl in Hnil. lia.
    + unfold literal_value. cbn [app]. rewrite firstn_skipn, length_skipn.
      f_equal. lia.
  - (* zero, a dot, zeros, digits *)
    apply andb_true_iff in E3 as [_ Hn0]. apply Z.leb_le in Hn0.
    exists neg, [Ch.zero], (zeros (- n) ++ d :: tl),
           (Ch.dot :: zeros (- n) ++ d :: tl), 0, [].
    rewrite !app_nil_r. split; [reflexivity|].
    split; [now left|].
    split; [|split; [left; now split|]].
    + right. split; [reflexivity|]. split.
      * rewrite forallb_app, zeros_digits. simpl. now rewrite Hd, Htl.
      * intro Hnil. now apply app_eq_nil in Hnil as [_ Hnil].
    + unfold literal_value. cbn [app].
      rewrite (digits_value_cons Ch.zero), digits_value_zeros_l.
      change (digit_value Ch.zero) with 0. rewrite Z.mul_0_l, Z.add_0_l.
      f_equal. rewrite length_app. unfold zeros. rewrite repeat_length. lia.
  - (* exponent notation *)
    assert (Hn1 : n - 1 <> 0).
    { apply andb_false_iff in E2. apply andb_false_iff in E3.
      rewrite Z.ltb_ge, Z.leb_gt in E2. rewrite Z.ltb_ge, Z.leb_gt in E3. lia. }
    pose proof (exponent_part_shape (n - 1) Hn1) as He.
    destruct tl as [|d' tl].
    + exists neg, [d], [], [], (n - 1), (exponent_part (n - 1)).
      split; [reflexivity|].
      split; [right; exists d, []; now repeat split|].
      split; [left; now split|]. split; [exact He|].
      unfold literal_value. rewrite app_nil_r. f_equal.
      unfold k. cbn [List.length]. lia.
    + exists neg, [d], (d' :: tl), (Ch.dot :: d' :: tl), (n - 1), (exponent_part (n - 1)).
      split; [reflexivity|].
      split; [right; exists d, []; now repeat split|].
      split; [right; now repeat split|]. split; [exact He|].
      unfold literal_value. cbn [app]. f_equal. unfold k. cbn [List.length]. lia.
Qed.

(** The number read from what [Number_toString] writes for [x]. *)
Lemma Number_toString_literal (x : number) :
  is_finite x = true -> exists y, number_literal (Number_toString x) y.
Proof.
  destruct x as [s | s | | neg m e]; try discriminate; intros _.
  - eexists. exists false, [Ch.zero], [], [], 0, [].
    split; [reflexivity|]. split; [now left|].
    split; [left; now split|]. split; [left; now split | reflexivity].
  - unfold Number_toString, shortest_digits.
    destruct (shortest_from 17 m e 1) as [s t].
    eexists. apply render_decimal_literal, digits_of_pos_shape.
Qed.

(** [Number_toString] writes a canonical finite number as a literal of that
    very number. *)
Lemma Number_toString_exact (neg : bool) (m : positive) (e : Z) :
  bounded prec emax m e = true ->
  number_literal (Number_toString (S754_finite neg m e)) (S754_finite neg m e).
Proof.
  intro Hb. pose proof (shortest_digits_reads neg m e Hb) as Hr.
  unfold Number_toString.
  assert (Hlead : leading_digits (fst (shortest_digits m e))).
  { unfold shortest_digits. destruct (shortest_from 17 m e 1) as [s t].
    apply digits_of_pos_shape. }
  destruct (shortest_digits m e) as [ds n]. cbn [fst snd] in *.
  rewrite <- Hr. now apply render_decimal_literal.
Qed.

Lemma lex_number_toString (x : number) (rest : jstring) :
  is_finite x = true -> delimited rest ->
  lex_number (Number_toString x ++ rest) = Some (reread x, rest).
Proof.
  intros Hx Hrest. destruct (Number_toString_literal x Hx) as [y Hy].
  unfold reread.
  pose proof (lex_number_literal _ _ [] Hy I) as H0. rewrite app_nil_r in H0.
  rewrite H0. now apply lex_number_literal.
Qed.

Lemma number_literal_head (lit : jstring) (y : number) :
  number_literal lit y ->
  exists c s, lit = c :: s /\ (c = Ch.minus \/ is_digit c = true).
Proof.
  intros (neg & ip & fp & f & e & x & -> & Hi & _).
  destruct neg; [exists Ch.minus; eexists; split; [reflexivity | now left]|].
  destruct Hi as [-> | (d & tl & -> & Hd & _)];
    eexists _, _; (split; [reflexivity | now right]).
Qed.

(** ** What JSON.parse reads from the output of JSON.stringify *)

Lemma is_digit_cases (c : code_unit) :
  is_digit c = true -> In c [48; 49; 50; 51; 52; 53; 54; 55; 56; 57]%N.
Proof.
  unfold is_digit. intro H. apply andb_true_iff in H as [H1 H2].
  apply N.leb_le in H1, H2.
  assert (C : In c (map N.of_nat (seq 48 10))).
  { replace c with (N.of_nat (N.to_nat c)) by apply N2Nat.id.
    apply in_map, in_seq. lia. }
  exact C.
Qed.

Lemma value_head_plain (c : code_unit) :
  value_head c ->
  is_ws c = false /\ unit_eqb c Ch.rbracket = false /\ unit_eqb c Ch.rbrace = false.
Proof.
  intros [H | H]; [|apply is_digit_cases in H];
    simpl in H; repeat (destruct H as [<- | H]; [now repeat split|]); destruct H.
Qed.

Lemma JSON_stringify_head (v : value) :
  exists c s, JSON_stringify v = c :: s /\ value_head c.
Proof.
  destruct v as [|[|]|x|s|elems|props]; cbn [JSON_stringify].
  - eexists _, _; split; [reflexivity|]. left. simpl. tauto.
  - eexists _, _; split; [reflexivity|]. left. simpl. tauto.
  - eexists _, _; split; [reflexivity|]. left. simpl. tauto.
  - destruct (is_finite x) eqn:Hx.
    + destruct (Number_toString_literal x Hx) as [y Hy].
      destruct (number_literal_head _ _ Hy) as (c & s & -> & [-> | Hc]);
        eexists _, _; (split; [reflexivity|]); [left; simpl; tauto | now right].
    + eexists _, _; split; [reflexivity|]. left. simpl. tauto.
  - eexists _, _; split; [reflexivity|]. left. simpl. tauto.
  - eexists _, _; split; [reflexivity|]. left. simpl. tauto.
  - eexists _, _; split; [reflexivity|]. left. simpl. tauto.
Qed.

Lemma skip_ws_plain (c : code_unit) (s : jstring) :
  is_ws c = false -> skip_ws (c :: s) = c :: s.
Proof. intro H. simpl. now rewrite H. Qed.

Lemma join_comma_cons (x y : jstring) (l : list jstring) :
  join_comma (x :: y :: l) = x ++ Ch.comma :: join_comma (y :: l).
Proof. reflexivity. Qed.

(** Reading a value that starts with [c]: the cases of [parse_value]. *)
Lemma parse_value_number (fuel : nat) (lit : jstring) (y : number) (rest : jstring) :
  number_literal lit y -> delimited rest ->
  parse_value (S fuel) (lit ++ rest) = Parsed (JNumber y) rest.
Proof.
  intros Hlit Hrest.
  pose proof (lex_number_literal lit y rest Hlit Hrest) as Hlex.
  destruct (number_literal_head lit y Hlit) as (c & s & -> & Hc).
  cbn [app] in *. cbn [parse_value]. unfold value_step.
  assert (Hws : is_ws c = false /\ forallb (fun k => negb (unit_eqb c k))
            [Ch.quote; Ch.lbracket; Ch.lbrace; Ch.lower_t; Ch.lower_f; Ch.lower_n] = true).
  { destruct Hc as [-> | Hc]; [now split|].
    apply is_digit_cases in Hc. simpl in Hc.
    repeat (destruct Hc as [<- | Hc]; [now split|]). destruct Hc. }
  destruct Hws as [Hws Hk]. rewrite skip_ws_plain by assumption.
  cbn [forallb] in Hk. rewrite !andb_true_iff, !negb_true_iff in Hk.
  destruct Hk as (-> & -> & -> & -> & -> & -> & _).
  now rewrite Hlex.
Qed.

Lemma delimited_comma (s : jstring) : delimited (Ch.comma :: s).
Proof. simpl. repeat split; discriminate. Qed.

Lemma delimited_rbracket (s : jstring) : delimited (Ch.rbracket :: s).
Proof. simpl. repeat split; discriminate. Qed.

Lemma delimited_rbrace (s : jstring) : delimited (Ch.rbrace :: s).
Proof. simpl. repeat split; discriminate. Qed.

(** The next character is not white space and is the one looked for. *)
Ltac next_char :=
  repeat first
    [ rewrite (skip_ws_plain Ch.quote) by reflexivity
    | rewrite (skip_ws_plain Ch.colon) by reflexivity
    | rewrite (skip_ws_plain Ch.comma) by reflexivity
    | rewrite (skip_ws_plain Ch.lbracket) by reflexivity
    | rewrite (skip_ws_plain Ch.rbracket) by reflexivity
    | rewrite (skip_ws_plain Ch.lbrace) by reflexivity
    | rewrite (skip_ws_plain Ch.rbrace) by reflexivity
    | rewrite unit_eqb_refl ].

Lemma parse_elements_stringify (elems : list value) :
  Forall reads_back elems -> elems <> [] ->
  forall fuel rest,
    (list_sum (map (fun e => S (size e)) elems) <= fuel)%nat ->
    parse_elements fuel (join_comma (map JSON_stringify elems) ++ Ch.rbracket :: rest)
    = Parsed (map reparse elems) rest.
Proof.
  induction 1 as [|v elems Hv Helems IH]; [contradiction|]; intros _ fuel rest Hfuel.
  cbn [map list_sum] in Hfuel.
  destruct fuel as [|fuel]; [simpl in Hfuel; lia|].
  cbn [parse_elements]. unfold elements_step. destruct elems as [|w elems].
  - cbn [map join_comma].
    rewrite Hv by (simpl in Hfuel; lia || apply delimited_rbracket).
    reflexivity.
  - cbn [map]. rewrite join_comma_cons, <- app_assoc. cbn [app].
    rewrite Hv by (simpl in Hfuel; lia || apply delimited_comma).
    next_char. cbn [unit_eqb N.eqb Ch.comma Pos.eqb].
    change (JSON_stringify w :: map JSON_stringify elems)
      with (map JSON_stringify (w :: elems)).
    rewrite IH by (discriminate || (simpl in Hfuel |- *; lia)).
    reflexivity.
Qed.

Lemma parse_members_stringify (props : list (jstring * value)) :
  Forall (fun kv => reads_back (snd kv)) props -> props <> [] ->
  forall fuel rest,
    (list_sum (map (fun kv => S (size (snd kv))) props) <= fuel)%nat ->
    parse_members fuel
      (join_comma (map (fun kv => QuoteJSONString (fst kv) ++ Ch.colon
                                    :: JSON_stringify (snd kv)) props)
       ++ Ch.rbrace :: rest)
    = Parsed (map (fun kv => (fst kv, reparse (snd kv))) props) rest.
Proof.
  induction 1 as [|[k v] props Hv Hprops IH]; [contradiction|]; intros _ fuel rest Hfuel.
  cbn [map list_sum fst snd] in Hfuel, Hv |- *.
  destruct fuel as [|fuel]; [simpl in Hfuel; lia|].
  cbn [parse_members]. unfold members_step, QuoteJSONString at 1.
  destruct props as [|w props].
  - cbn [map join_comma app]. rewrite <- !app_assoc. cbn [app].
    next_char. rewrite parse_chars_quote_units. next_char.
    rewrite Hv by (simpl in Hfuel; lia || apply delimited_rbrace).
    reflexivity.
  - cbn [map]. rewrite join_comma_cons. cbn [fst snd app]. rewrite <- !app_assoc.
    cbn [app]. next_char. rewrite parse_chars_quote_units. next_char.
    rewrite Hv by (simpl in Hfuel; lia || apply delimited_comma).
    next_char.
    change ((QuoteJSONString (fst w) ++ Ch.colon :: JSON_stringify (snd w))
              :: map (fun kv => QuoteJSONString (fst kv) ++ Ch.colon
                                  :: JSON_stringify (snd kv)) props)
      with (map (fun kv => QuoteJSONString (fst kv) ++ Ch.colon
                             :: JSON_stringify (snd kv)) (w :: props)).
    rewrite IH by (discriminate || (simpl in Hfuel |- *; lia)).
    reflexivity.
Qed.

Lemma JSON_stringify_reads_back (v : value) : reads_back v.
Proof.
  induction v as [| b | x | s | elems IH | props IH] using value_induction;
    intros fuel rest Hfuel Hrest;
    (destruct fuel as [|fuel]; [simpl in Hfuel; lia|]).
  - reflexivity.
  - destruct b; reflexivity.
  - cbn [JSON_stringify reparse]. destruct (is_finite x) eqn:Hx; [|reflexivity].
    destruct (Number_toString_literal x Hx) as [y Hy].
    assert (Hr : reread x = y).
    { unfold reread. pose proof (lex_number_literal _ _ [] Hy I) as H0.
      rewrite app_nil_r in H0. now rewrite H0. }
    rewrite Hr. now apply parse_value_number.
  - cbn [JSON_stringify reparse parse_value]. unfold value_step, QuoteJSONString.
    cbn [app]. next_char.
    rewrite <- app_assoc. cbn [app]. now rewrite parse_chars_quote_units.
  - cbn [JSON_stringify reparse parse_value app]. unfold value_step. next_char.
    cbn [unit_eqb N.eqb Ch.quote Ch.lbracket Pos.eqb].
    destruct elems as [|v elems]; [reflexivity|].
    rewrite <- app_assoc. cbn [app].
    rewrite (parse_elements_stringify (v :: elems) IH)
      by (discriminate || (cbn [size] in Hfuel; lia)).
    destruct (JSON_stringify_head v) as (c & s & E & Hc).
    destruct (value_head_plain c Hc) as (Hws & Hrb & _).
    destruct elems; cbn [map join_comma]; rewrite E; cbn [app];
      rewrite skip_ws_plain, Hrb by assumption; reflexivity.
  - cbn [JSON_stringify reparse parse_value app]. unfold value_step. next_char.
    cbn [unit_eqb N.eqb Ch.quote Ch.lbracket Ch.lbrace Pos.eqb].
    destruct props as [|[k v] props]; [reflexivity|].
    rewrite <- app_assoc. cbn [app].
    rewrite (parse_members_stringify ((k, v) :: props) IH)
      by (discriminate || (cbn [size] in Hfuel; lia)).
    cbn [map fst]. unfold QuoteJSONString at 1.
    destruct props; cbn [join_comma app]; reflexivity.
Qed.

(** ** The parser consumes its input *)

Lemma skip_ws_length (s : jstring) : (List.length (skip_ws s) <= List.length s)%nat.
Proof.
  induction s as [|c s IH]; simpl; [lia|]. destruct (is_ws c); simpl; lia.
Qed.

Lemma skip_ws_cons_length (s : jstring) (c : code_unit) (r : jstring) :
  skip_ws s = c :: r -> (List.length r < List.length s)%nat.
Proof.
  intro H. pose proof (skip_ws_length s) as L. rewrite H in L. simpl in L. lia.
Qed.

Lemma cons_char_length (c : code_unit) (o : option (jstring * jstring))
      (str rest : jstring) (n : nat) :
  cons_char c o = Some (str, rest) ->
  (forall str' rest', o = Some (str', rest') -> (List.length rest' < n)%nat) ->
  (List.length rest < n)%nat.
Proof.
  destruct o as [[str' rest']|]; simpl; [|discriminate].
  intros H Ho. injection H as _ <-. now apply (Ho str').
Qed.

Lemma parse_chars_length_bounded (n : nat) :
  forall s str rest, (List.length s <= n)%nat ->
    parse_chars s = Some (str, rest) -> (List.length rest < List.length s)%nat.
Proof.
  induction n as [|n IH]; intros s str rest Hn H.
  - destruct s; [discriminate | simpl in Hn; lia].
  - destruct s as [|c s]; [discriminate|]. simpl in Hn. cbn [parse_chars] in H.
    destruct (unit_eqb c Ch.quote); [injection H as _ <-; simpl; lia|].
    destruct (unit_eqb c Ch.backslash).
    + destruct s as [|e s]; [discriminate|].
      destruct (unit_eqb e Ch.lower_u).
      * destruct s as [|h1 [|h2 [|h3 [|h4 s]]]]; try discriminate.
        destruct (hex4_value h1 h2 h3 h4); [|discriminate].
        apply cons_char_length with (n := List.length s) in H.
        -- simpl; lia.
        -- intros str' rest' E. apply IH in E; simpl in Hn; lia.
      * destruct (simple_escape e); [|discriminate].
        apply cons_char_length with (n := List.length s) in H.
        -- simpl; lia.
        -- intros str' rest' E. apply IH in E; simpl in Hn; lia.
    + destruct (c <? 32)%N; [discriminate|].
      apply cons_char_length with (n := List.length s) in H.
      * simpl; lia.
      * intros str' rest' E. apply IH in E; lia.
Qed.

Lemma parse_chars_length (s str rest : jstring) :
  parse_chars s = Some (str, rest) -> (List.length rest < List.length s)%nat.
Proof. now apply (parse_chars_length_bounded (List.length s)). Qed.

Lemma span_digits_length (s ds r : jstring) :
  span_digits s = (ds, r) -> (List.length r <= List.length s)%nat.
Proof.
  revert ds r; induction s as [|c s IH]; intros ds r H; simpl in H.
  - injection H as _ <-. simpl; lia.
  - destruct (is_digit c).
    + destruct (span_digits s) as [ds' r'] eqn:E. injection H as _ <-.
      specialize (IH _ _ eq_refl). simpl; lia.
    + injection H as _ <-. lia.
Qed.

Lemma lex_int_length (s ip r : jstring) :
  lex_int s = Some (ip, r) -> (List.length r < List.length s)%nat.
Proof.
  destruct s as [|c s]; [discriminate|]. cbn [lex_int].
  destruct (unit_eqb c Ch.zero); [intro H; injection H as _ <-; simpl; lia|].
  destruct (is_digit c); [|discriminate].
  destruct (span_digits s) as [ds r'] eqn:E. intro H. injection H as _ <-.
  apply span_digits_length in E. simpl; lia.
Qed.

Lemma lex_frac_length (s fp r : jstring) :
  lex_frac s = Some (fp, r) -> (List.length r <= List.length s)%nat.
Proof.
  destruct s as [|c s]; cbn [lex_frac]; [intro H; injection H as _ <-; lia|].
  destruct (unit_eqb c Ch.dot).
  - destruct (span_digits s) as [[|d ds] r'] eqn:E; [discriminate|].
    intro H. injection H as _ <-. apply span_digits_length in E. simpl; lia.
  - intro H. injection H as _ <-. lia.
Qed.

Lemma lex_exp_length (s : jstring) (e : Z) (r : jstring) :
  lex_exp s = Some (e, r) -> (List.length r <= List.length s)%nat.
Proof.
  destruct s as [|c s]; cbn [lex_exp]; [intro H; injection H as _ <-; lia|].
  destruct (unit_eqb c Ch.lower_e || unit_eqb c Ch.upper_e).
  - destruct s as [|sg s'].
    + simpl. discriminate.
    + destruct (unit_eqb sg Ch.minus); [|destruct (unit_eqb sg Ch.plus)];
        destruct (span_digits _) as [[|d ds] r'] eqn:E; try discriminate;
        intro H; injection H as _ <-; apply span_digits_length in E; simpl in *; lia.
  - intro H. injection H as _ <-. lia.
Qed.

Lemma lex_unsigned_length (neg : bool) (s : jstring) (y : number) (r : jstring) :
  lex_unsigned neg s = Some (y, r) -> (List.length r < List.length s)%nat.
Proof.
  unfold lex_unsigned.
  destruct (lex_int s) as [[ip s2]|] eqn:E1; [|discriminate].
  destruct (lex_frac s2) as [[fp s3]|] eqn:E2; [|discriminate].
  destruct (lex_exp s3) as [[e s4]|] eqn:E3; [|discriminate].
  intro H. injection H as _ <-.
  apply lex_int_length in E1. apply lex_frac_length in E2. apply lex_exp_length in E3.
  lia.
Qed.

Lemma lex_number_length (s : jstring) (y : number) (r : jstring) :
  lex_number s = Some (y, r) -> (List.length r < List.length s)%nat.
Proof.
  destruct s as [|c s]; [discriminate|]. cbn [lex_number].
  destruct (unit_eqb c Ch.minus); intro H; apply lex_unsigned_length in H; simpl in *; lia.
Qed.

Lemma match_prefix_length (kw s r : jstring) :
  match_prefix kw s = Some r -> (List.length r <= List.length s)%nat.
Proof.
  revert s; induction kw as [|k kw IH]; intros s H.
  - destruct s; injection H as <-; lia.
  - destruct s as [|c s]; [discriminate|]. simpl in H.
    destruct (unit_eqb k c); [|discriminate]. apply IH in H. simpl; lia.
Qed.

Lemma keyword_length (kw : jstring) (v w : value) (s r : jstring) :
  keyword kw v s = Parsed w r -> (List.length r <= List.length s)%nat.
Proof.
  unfold keyword. destruct (match_prefix kw s) eqn:E; [|discriminate].
  intro H. injection H as _ <-. now apply match_prefix_length in E.
Qed.

(** Case analysis on a parser call that is known to have returned. *)
Ltac parser_cases H :=
  repeat match type of H with
         | match ?x with _ => _ end = _ => destruct x eqn:?; try discriminate H
         | (if ?b then _ else _) = _ => destruct b eqn:?; try discriminate H
         end.

Lemma parsers_consume (fuel : nat) :
  consumes (parse_value fuel) /\ consumes (parse_elements fuel)
  /\ consumes (parse_members fuel).
Proof.
  induction fuel as [|fuel (IHv & IHe & IHm)];
    [repeat split; intros s a r H; discriminate H|].
  repeat split; intros s a r H.
  - cbn [parse_value] in H. unfold value_step in H. parser_cases H;
      repeat match goal with
             | E : skip_ws _ = _ :: _ |- _ => apply skip_ws_cons_length in E
             | E : parse_chars _ = Some _ |- _ => apply parse_chars_length in E
             | E : lex_number _ = Some _ |- _ => apply lex_number_length in E
             | E : parse_elements _ _ = Parsed _ _ |- _ => apply IHe in E
             | E : parse_members _ _ = Parsed _ _ |- _ => apply IHm in E
             end;
      try (apply keyword_length in H);
      try (injection H as _ <-); simpl in *; lia.
  - cbn [parse_elements] in H. unfold elements_step in H. parser_cases H;
      repeat match goal with
             | E : skip_ws _ = _ :: _ |- _ => apply skip_ws_cons_length in E
             | E : parse_value _ _ = Parsed _ _ |- _ => apply IHv in E
             | E : parse_elements _ _ = Parsed _ _ |- _ => apply IHe in E
             end;
      injection H as _ <-; simpl in *; lia.
  - cbn [parse_members] in H. unfold members_step in H. parser_cases H;
      repeat match goal with
             | E : skip_ws _ = _ :: _ |- _ => apply skip_ws_cons_length in E
             | E : parse_chars _ = Some _ |- _ => apply parse_chars_length in E
             | E : parse_value _ _ = Parsed _ _ |- _ => apply IHv in E
             | E : parse_members _ _ = Parsed _ _ |- _ => apply IHm in E
             end;
      injection H as _ <-; simpl in *; lia.
Qed.

(** ** The fuel of JSON.parse is enough *)

Lemma parsers_fuel (fuel : nat) :
  (forall s, (2 * List.length s + 2 <= fuel)%nat -> parse_value fuel s <> Exhausted)
  /\ (forall s, (2 * List.length s + 3 <= fuel)%nat -> parse_elements fuel s <> Exhausted)
  /\ (forall s, (2 * List.length s + 3 <= fuel)%nat -> parse_members fuel s <> Exhausted).
Proof.
  induction fuel as [|fuel (IHv & IHe & IHm)]; [repeat split; intros s Hs; lia|].
  destruct (parsers_consume fuel) as (Cv & Ce & Cm).
  repeat split; intros s Hs H.
  - cbn [parse_value] in H. unfold value_step, keyword in H. parser_cases H;
      repeat match goal with
             | E : skip_ws _ = _ :: _ |- _ => apply skip_ws_cons_length in E
             | E : parse_chars _ = Some _ |- _ => apply parse_chars_length in E
             end;
      match goal with
      | E : parse_elements _ ?x = Exhausted |- _ => apply (IHe x); [simpl in *; lia | exact E]
      | E : parse_members _ ?x = Exhausted |- _ => apply (IHm x); [simpl in *; lia | exact E]
      end.
  - cbn [parse_elements] in H. unfold elements_step in H. parser_cases H;
      repeat match goal with
             | E : skip_ws _ = _ :: _ |- _ => apply skip_ws_cons_length in E
             | E : parse_value _ _ = Parsed _ _ |- _ => apply Cv in E
             end;
      match goal with
      | E : parse_elements _ ?x = Exhausted |- _ => apply (IHe x); [simpl in *; lia | exact E]
      | E : parse_value _ ?x = Exhausted |- _ => apply (IHv x); [simpl in *; lia | exact E]
      end.
  - cbn [parse_members] in H. unfold members_step in H. parser_cases H;
      repeat match goal with
             | E : skip_ws _ = _ :: _ |- _ => apply skip_ws_cons_length in E
             | E : parse_chars _ = Some _ |- _ => apply parse_chars_length in E
             | E : parse_value _ _ = Parsed _ _ |- _ => apply Cv in E
             end;
      match goal with
      | E : parse_members _ ?x = Exhausted |- _ => apply (IHm x); [simpl in *; lia | exact E]
      | E : parse_value _ ?x = Exhausted |- _ => apply (IHv x); [simpl in *; lia | exact E]
      end.
Qed.

Lemma parse_value_S (fuel : nat) (s : jstring) :
  parse_value (S fuel) s = value_step (parse_elements fuel) (parse_members fuel) s.
Proof. reflexivity. Qed.

Lemma parse_elements_S (fuel : nat) (s : jstring) :
  parse_elements (S fuel) s = elements_step (parse_value fuel) (parse_elements fuel) s.
Proof. reflexivity. Qed.

Lemma parse_members_S (fuel : nat) (s : jstring) :
  parse_members (S fuel) s = members_step (parse_value fuel) (parse_members fuel) s.
Proof. reflexivity. Qed.

(** More fuel does not change an answer. *)
Lemma parsers_stable (fuel : nat) :
  (forall s, parse_value fuel s <> Exhausted ->
             parse_value (S fuel) s = parse_value fuel s)
  /\ (forall s, parse_elements fuel s <> Exhausted ->
                parse_elements (S fuel) s = parse_elements fuel s)
  /\ (forall s, parse_members fuel s <> Exhausted ->
                parse_members (S fuel) s = parse_members fuel s).
Proof.
  induction fuel as [|fuel (IHv & IHe & IHm)];
    [repeat split; intros s H; now contradiction H|].
  repeat split; intros s H.
  - rewrite (parse_value_S (S fuel)). rewrite parse_value_S in H |- *.
    unfold value_step in *.
    destruct (skip_ws s) as [|c rest]; [reflexivity|].
    repeat match goal with
           | |- context [if ?b then _ else _] => destruct b; try reflexivity
           | |- context [match skip_ws ?x with _ => _ end] =>
               destruct (skip_ws x); try reflexivity
           end.
    + rewrite IHe; [reflexivity|]. intro E. now rewrite E in H.
    + rewrite IHm; [reflexivity|]. intro E. now rewrite E in H.
  - rewrite (parse_elements_S (S fuel)). rewrite parse_elements_S in H |- *.
    unfold elements_step in *.
    rewrite IHv by (intro E; now rewrite E in H).
    destruct (parse_value fuel s) as [v rest| |]; try reflexivity.
    destruct (skip_ws rest) as [|c rest']; [reflexivity|].
    destruct (unit_eqb c Ch.comma); [|reflexivity].
    rewrite IHe; [reflexivity|]. intro E. now rewrite E in H.
  - rewrite (parse_members_S (S fuel)). rewrite parse_members_S in H |- *.
    unfold members_step in *.
    destruct (skip_ws s) as [|c rest]; [reflexivity|].
    destruct (unit_eqb c Ch.quote); [|reflexivity].
    destruct (parse_chars rest) as [[k rest1]|]; [|reflexivity].
    destruct (skip_ws rest1) as [|c1 rest2]; [reflexivity|].
    destruct (unit_eqb c1 Ch.colon); [|reflexivity].
    rewrite IHv by (intro E; now rewrite E in H).
    destruct (parse_value fuel rest2) as [v rest3| |]; try reflexivity.
    destruct (skip_ws rest3) as [|c3 rest4]; [reflexivity|].
    destruct (unit_eqb c3 Ch.comma); [|reflexivity].
    rewrite IHm; [reflexivity|]. intro E. now rewrite E in H.
Qed.

Lemma parse_value_more_fuel (fuel extra : nat) (s : jstring) :
  parse_value fuel s <> Exhausted -> parse_value (extra + fuel) s = parse_value fuel s.
Proof.
  intro H. induction extra as [|extra IH]; [reflexivity|].
  cbn [Nat.add]. destruct (parsers_stable (extra + fuel)) as (Sv & _).
  rewrite Sv; rewrite IH; [reflexivity | exact H].
Qed.

(** The answer of [JSON.parse] is the answer for any larger fuel. *)
Lemma parse_value_fuel (fuel : nat) (text : jstring) :
  (parse_fuel text <= fuel)%nat ->
  parse_value fuel text = parse_value (parse_fuel text) text
  /\ parse_value (parse_fuel text) text <> Exhausted.
Proof.
  intro H.
  assert (Hne : parse_value (parse_fuel text) text <> Exhausted).
  { destruct (parsers_fuel (parse_fuel text)) as (Fv & _). apply Fv.
    unfold parse_fuel. lia. }
  split; [|exact Hne].
  replace fuel with ((fuel - parse_fuel text) + parse_fuel text)%nat by lia.
  now apply parse_value_more_fuel.
Qed.

(** ** JSON.parse after JSON.stringify *)

Theorem JSON_parse_stringify (v : value) :
  JSON_parse (JSON_stringify v) = Some (reparse v).
Proof.
  unfold JSON_parse.
  set (s := JSON_stringify v).
  destruct (parse_value_fuel (size v + parse_fuel s) s) as [E _]; [lia|].
  rewrite <- E.
  pose proof (JSON_stringify_reads_back v (size v + parse_fuel s)%nat [] ltac:(lia) I) as R.
  rewrite app_nil_r in R. fold s in R. now rewrite R.
Qed.

(** ** Objects keep the enumeration order *)

(** *** Array indices name their keys *)

Lemma digit_value_bound (d : code_unit) :
  is_digit d = true -> 0 <= digit_value d <= 9.
Proof.
  unfold is_digit, digit_value. intro H. apply andb_true_iff in H as [H1 H2].
  apply N.leb_le in H1, H2. lia.
Qed.

Lemma digit_value_inj (d d' : code_unit) :
  is_digit d = true -> is_digit d' = true -> digit_value d = digit_value d' -> d = d'.
Proof.
  unfold is_digit, digit_value. intros H H' E.
  apply andb_true_iff in H as [H1 H2]. apply N.leb_le in H1, H2. lia.
Qed.

Lemma digits_value_bound (ds : jstring) :
  forallb is_digit ds = true ->
  0 <= digits_value ds < 10 ^ Z.of_nat (List.length ds).
Proof.
  induction ds as [|d ds IH] using rev_ind; intro H; [unfold digits_value; simpl; lia|].
  rewrite forallb_app in H. apply andb_true_iff in H as [Hds Hd].
  simpl in Hd. rewrite andb_true_r in Hd.
  rewrite digits_value_snoc, length_app, Nat2Z.inj_add, Z.pow_add_r by lia.
  pose proof (digit_value_bound d Hd). specialize (IH Hds).
  change (Z.of_nat (List.length [d])) with 1. lia.
Qed.

Lemma digits_value_lower (d : code_unit) (tl : jstring) :
  is_digit d = true -> d <> Ch.zero -> forallb is_digit tl = true ->
  10 ^ Z.of_nat (List.length tl) <= digits_value (d :: tl).
Proof.
  intros Hd Hz. induction tl as [|c tl IH] using rev_ind; intro H.
  - unfold digits_value. simpl fold_left.
    pose proof (digit_value_bound d Hd).
    assert (digit_value d <> 0).
    { intro E. apply Hz. apply digit_value_inj; [assumption | reflexivity | exact E]. }
    simpl; lia.
  - rewrite forallb_app in H. apply andb_true_iff in H as [Htl Hc].
    simpl in Hc. rewrite andb_true_r in Hc.
    change (d :: tl ++ [c]) with ((d :: tl) ++ [c]).
    rewrite digits_value_snoc, length_app, Nat2Z.inj_add, Z.pow_add_r by lia.
    pose proof (digit_value_bound c Hc). specialize (IH Htl).
    change (Z.of_nat (List.length [c])) with 1. lia.
Qed.

Lemma digits_value_inj_length (a b : jstring) :
  List.length a = List.length b ->
  forallb is_digit a = true -> forallb is_digit b = true ->
  digits_value a = digits_value b -> a = b.
Proof.
  revert b. induction a as [|x a IH] using rev_ind; intros b Hlen Ha Hb E.
  - destruct b; [reflexivity | discriminate].
  - destruct b as [|y b _] using rev_ind;
      [rewrite length_app in Hlen; simpl in Hlen; lia|].
    rewrite !length_app in Hlen. simpl in Hlen.
    rewrite forallb_app in Ha, Hb.
    apply andb_true_iff in Ha as [Ha Hx]. apply andb_true_iff in Hb as [Hb Hy].
    simpl in Hx, Hy. rewrite andb_true_r in Hx, Hy.
    rewrite !digits_value_snoc in E.
    pose proof (digit_value_bound x Hx). pose proof (digit_value_bound y Hy).
    assert (digits_value a = digits_value b /\ digit_value x = digit_value y) as [Ea Ex]
      by lia.
    f_equal; [apply IH; (assumption || lia) | f_equal; now apply digit_value_inj].
Qed.

(** A canonical numeric string: a zero, or digits without a leading zero. *)
Lemma array_index_shape (k : jstring) (i : Z) :
  array_index k = Some i ->
  i = digits_value k /\ forallb is_digit k = true
  /\ (k = [Ch.zero] \/ leading_digits k).
Proof.
  unfold array_index. destruct k as [|c rest]; [discriminate|].
  destruct (forallb is_digit (c :: rest)) eqn:Hd; [|discriminate].
  destruct (negb (unit_eqb c Ch.zero) || match rest with [] => true | _ => false end)
    eqn:Hz; [|discriminate].
  cbn [andb].
  destruct ((Z.of_nat (List.length (c :: rest)) <=? 10)
            && (digits_value (c :: rest) <=? max_array_index)); [|discriminate].
  intro H. injection H as <-. repeat split.
  simpl in Hd. apply andb_true_iff in Hd as [Hc Hrest].
  destruct (unit_eqb c Ch.zero) eqn:Ec.
  - apply unit_eqb_eq in Ec. subst c. destruct rest; [now left | discriminate].
  - right. exists c, rest. apply unit_eqb_neq in Ec. now repeat split.
Qed.

Lemma array_index_inj (k k' : jstring) (i : Z) :
  array_index k = Some i -> array_index k' = Some i -> k = k'.
Proof.
  intros H H'.
  apply array_index_shape in H as (E & Hd & Hs).
  apply array_index_shape in H' as (E' & Hd' & Hs').
  assert (Hlen : forall a b, (a = [Ch.zero] \/ leading_digits a) ->
                   (b = [Ch.zero] \/ leading_digits b) ->
                   forallb is_digit a = true -> forallb is_digit b = true ->
                   digits_value a = digits_value b ->
                   (List.length a <= List.length b)%nat).
  { intros a b Sa Sb Da Db Eab.
    destruct Sa as [-> | (d & tl & -> & Hd1 & Hz1 & Htl1)].
    - destruct Sb as [-> | (d & tl & -> & _)]; simpl; lia.
    - pose proof (digits_value_lower d tl Hd1 Hz1 Htl1) as L.
      pose proof (digits_value_bound b Db) as U. rewrite <- Eab in U.
      assert (Hp : 10 ^ Z.of_nat (List.length tl) < 10 ^ Z.of_nat (List.length b)) by lia.
      apply Z.pow_lt_mono_r_iff in Hp; simpl; lia. }
  apply digits_value_inj_length; try assumption; [|congruence].
  apply Nat.le_antisymm; apply Hlen; (assumption || congruence).
Qed.

(** *** [set_property] keeps the enumeration order *)

Lemma key_before_neq (k1 k2 : jstring) : key_before k1 k2 -> k1 <> k2.
Proof.
  unfold key_before. intros H ->.
  destruct (array_index k2); [lia | contradiction].
Qed.

Lemma has_key_In (o : list (jstring * value)) (k : jstring) :
  has_key o k = true <-> In k (map fst o).
Proof.
  induction o as [|[k' v'] o IH]; simpl; [split; [discriminate | contradiction]|].
  rewrite orb_true_iff, jstring_eqb_eq, IH. tauto.
Qed.

Lemma has_key_not_In (o : list (jstring * value)) (k : jstring) :
  has_key o k = false <-> ~ In k (map fst o).
Proof.
  rewrite <- has_key_In. destruct (has_key o k); split; congruence.
Qed.

Lemma replace_value_keys (o : list (jstring * value)) (k : jstring) (v : value) :
  map fst (replace_value o k v) = map fst o.
Proof.
  induction o as [|[k' v'] o IH]; simpl; [reflexivity|].
  destruct (jstring_eqb k' k); simpl; congruence.
Qed.

Lemma insert_index_keys (o : list (jstring * value)) (k : jstring) (i : Z) (v : value)
      (x : jstring) :
  In x (map fst (insert_index o k i v)) <-> x = k \/ In x (map fst o).
Proof.
  induction o as [|[k' v'] o IH]; simpl; [intuition congruence|].
  destruct (array_index k') as [j|]; [destruct (j <? i)|]; simpl;
    rewrite ?IH; intuition congruence.
Qed.

Lemma sorted_snoc {A : Type} (R : A -> A -> Prop) (l : list A) (a : A) :
  StronglySorted R (l ++ [a]) <-> StronglySorted R l /\ Forall (fun x => R x a) l.
Proof.
  induction l as [|x l IH]; simpl.
  - split; [intros _; split; constructor | intros _; repeat constructor].
  - split.
    + intro H. inversion H as [|? ? Hs Hf]; subst.
      apply IH in Hs as [Hs Ha]. apply Forall_app in Hf as [Hf Hx].
      inversion Hx; subst. split; constructor; assumption.
    + intros [H Ha]. inversion H as [|? ? Hs Hf]; subst.
      inversion Ha; subst. constructor.
      * apply IH. now split.
      * apply Forall_app. split; [assumption | now constructor].
Qed.

Lemma insert_index_canonical (o : list (jstring * value)) (k : jstring) (i : Z)
      (v : value) :
  array_index k = Some i -> ~ In k (map fst o) ->
  canonical o -> canonical (insert_index o k i v).
Proof.
  intros Hk. unfold canonical.
  induction o as [|[k' v'] o IH]; intros Hnew Ho; simpl.
  - repeat constructor.
  - simpl in Hnew, Ho. inversion Ho as [|? ? Hs Hf]; subst.
    assert (Hmove : StronglySorted key_before (k :: k' :: map fst o)
                    \/ exists j, array_index k' = Some j /\ j < i).
    { destruct (array_index k') as [j|] eqn:Ej.
      - destruct (Z.lt_ge_cases j i) as [Hlt | Hge]; [right; now exists j|].
        left. constructor; [assumption|].
        assert (Hij : i < j).
        { destruct (Z.eq_dec i j) as [-> | Hne]; [|lia].
          exfalso. apply Hnew. left. now apply (array_index_inj k' k j). }
        constructor; [unfold key_before; now rewrite Hk, Ej|].
        rewrite Forall_forall in Hf |- *. intros x Hx. specialize (Hf x Hx).
        unfold key_before in Hf |- *. rewrite Hk. rewrite Ej in Hf.
        destruct (array_index x); [lia | exact I].
      - left. constructor; [assumption|].
        constructor; [unfold key_before; now rewrite Hk, Ej|].
        rewrite Forall_forall in Hf |- *. intros x Hx. specialize (Hf x Hx).
        unfold key_before in Hf |- *. rewrite Hk. rewrite Ej in Hf.
        destruct (array_index x); [contradiction | exact I]. }
    destruct (array_index k') as [j|] eqn:Ej.
    + destruct (j <? i) eqn:Eji.
      * simpl. constructor; [apply IH; tauto|].
        rewrite Forall_forall in Hf |- *. intros x Hx.
        apply insert_index_keys in Hx as [-> | Hx]; [|now apply Hf].
        apply Z.ltb_lt in Eji. unfold key_before. now rewrite Ej, Hk.
      * destruct Hmove as [Hm | (j' & Ej' & Hlt)]; [exact Hm|].
        apply Z.ltb_ge in Eji. injection Ej' as <-. lia.
    + destruct Hmove as [Hm | (j' & Ej' & _)]; [exact Hm | discriminate].
Qed.

Lemma set_property_canonical (o : list (jstring * value)) (k : jstring) (v : value) :
  canonical o -> canonical (set_property o k v).
Proof.
  intro Ho. unfold set_property.
  destruct (has_key o k) eqn:Hk.
  - unfold canonical. now rewrite replace_value_keys.
  - apply has_key_not_In in Hk.
    destruct (array_index k) as [i|] eqn:Ei; [now apply insert_index_canonical|].
    unfold canonical. rewrite map_app. cbn [map fst].
    apply sorted_snoc. split; [exact Ho|].
    apply Forall_forall. intros x Hx. unfold key_before. rewrite Ei.
    destruct (array_index x); [exact I|]. intros ->. contradiction.
Qed.

Lemma fold_set_property_canonical (members acc : list (jstring * value)) :
  canonical acc ->
  canonical (fold_left (fun o kv => set_property o (fst kv) (snd kv)) members acc).
Proof.
  revert acc; induction members as [|[k v] members IH]; intros acc Hacc; simpl;
    [exact Hacc|]. now apply IH, set_property_canonical.
Qed.

Lemma build_object_canonical (members : list (jstring * value)) :
  canonical (build_object members).
Proof. apply fold_set_property_canonical. constructor. Qed.

(** *** Building a canonical object again gives the same object *)

Lemma insert_index_last (o : list (jstring * value)) (k : jstring) (i : Z) (v : value) :
  Forall (fun x => key_before x k) (map fst o) -> array_index k = Some i ->
  insert_index o k i v = o ++ [(k, v)].
Proof.
  intros H Hk. induction o as [|[k' v'] o IH]; simpl; [reflexivity|].
  simpl in H. inversion H as [|? ? Hb Hf]; subst.
  unfold key_before in Hb. rewrite Hk in Hb.
  destruct (array_index k') as [j|]; [|contradiction].
  apply Z.ltb_lt in Hb. rewrite Hb. now rewrite IH.
Qed.

Lemma set_property_last (o : list (jstring * value)) (k : jstring) (v : value) :
  canonical (o ++ [(k, v)]) -> set_property o k v = o ++ [(k, v)].
Proof.
  unfold canonical. rewrite map_app. cbn [map fst]. intro H.
  apply sorted_snoc in H as [_ Hf]. unfold set_property.
  assert (Hk : has_key o k = false).
  { apply has_key_not_In. intro Hin. rewrite Forall_forall in Hf.
    now apply (key_before_neq k k (Hf k Hin)). }
  rewrite Hk. destruct (array_index k) as [i|] eqn:Ei; [|reflexivity].
  now apply insert_index_last.
Qed.

Lemma build_object_snoc (members : list (jstring * value)) (k : jstring) (v : value) :
  build_object (members ++ [(k, v)]) = set_property (build_object members) k v.
Proof. unfold build_object. now rewrite fold_left_app. Qed.

Lemma build_object_id (props : list (jstring * value)) :
  canonical props -> build_object props = props.
Proof.
  induction props as [|[k v] props IH] using rev_ind; intro H; [reflexivity|].
  rewrite build_object_snoc.
  assert (Hp : canonical props).
  { unfold canonical in H |- *. rewrite map_app in H. now apply sorted_snoc in H. }
  rewrite IH by exact Hp. now apply set_property_last.
Qed.

(** ** The values JSON.parse builds *)

Section PropertyValues.
Variable P : value -> Prop.

Lemma replace_value_all (o : list (jstring * value)) (k : jstring) (v : value) :
  all_values P o -> P v -> all_values P (replace_value o k v).
Proof.
  intros Ho Hv. induction Ho as [|[k' v'] o Hkv Ho IH]; simpl; [constructor|].
  destruct (jstring_eqb k' k); constructor; assumption.
Qed.

Lemma insert_index_all (o : list (jstring * value)) (k : jstring) (i : Z) (v : value) :
  all_values P o -> P v -> all_values P (insert_index o k i v).
Proof.
  intros Ho Hv. induction Ho as [|[k' v'] o Hkv Ho IH]; simpl;
    [repeat constructor; assumption|].
  destruct (array_index k') as [j|]; [destruct (j <? i)|];
    repeat (constructor; try assumption).
Qed.

Lemma set_property_all (o : list (jstring * value)) (k : jstring) (v : value) :
  all_values P o -> P v -> all_values P (set_property o k v).
Proof.
  intros Ho Hv. unfold set_property.
  destruct (has_key o k); [now apply replace_value_all|].
  destruct (array_index k); [now apply insert_index_all|].
  apply Forall_app. split; [assumption | now repeat constructor].
Qed.

Lemma build_object_all (members : list (jstring * value)) :
  all_values P members -> all_values P (build_object members).
Proof.
  unfold build_object.
  assert (G : forall acc, all_values P acc -> all_values P members ->
                all_values P (fold_left (fun o kv => set_property o (fst kv) (snd kv))
                               members acc)).
  { induction members as [|[k v] members IH]; intros acc Hacc Hm; simpl;
      [exact Hacc|].
    inversion Hm; subst. apply IH; [|assumption]. now apply set_property_all. }
  apply G. constructor.
Qed.
End PropertyValues.

Lemma keyword_well_formed (kw : jstring) (v w : value) (s r : jstring) :
  well_formed v -> keyword kw v s = Parsed w r -> well_formed w.
Proof.
  unfold keyword. destruct (match_prefix kw s); [|discriminate].
  intros Hv H. now injection H as <- _.
Qed.

Lemma lex_number_valid (s r : jstring) (y : number) :
  lex_number s = Some (y, r) -> valid_binary prec emax y = true.
Proof.
  assert (U : forall neg s', lex_unsigned neg s' = Some (y, r) ->
                valid_binary prec emax y = true).
  { intros neg s'. unfold lex_unsigned.
    destruct (lex_int s') as [[ip s2]|]; [|discriminate].
    destruct (lex_frac s2) as [[fp s3]|]; [|discriminate].
    destruct (lex_exp s3) as [[e s4]|]; [|discriminate].
    intro H. injection H as <- _. apply number_of_decimal_valid. }
  unfold lex_number. destruct s as [|c s]; [discriminate|].
  destruct (unit_eqb c Ch.minus); apply U.
Qed.

Lemma parsers_well_formed (fuel : nat) :
  (forall s v r, parse_value fuel s = Parsed v r -> well_formed v)
  /\ (forall s vs r, parse_elements fuel s = Parsed vs r -> Forall well_formed vs)
  /\ (forall s ms r, parse_members fuel s = Parsed ms r ->
                     Forall (fun kv => well_formed (snd kv)) ms).
Proof.
  induction fuel as [|fuel (IHv & IHe & IHm)];
    [repeat split; intros s a r H; discriminate H|].
  repeat split; intros s a r H.
  - cbn [parse_value] in H. unfold value_step in H. parser_cases H;
      try (eapply keyword_well_formed; [|exact H]; constructor);
      injection H as <- _; constructor;
      try (apply build_object_canonical); try (apply build_object_all);
      try (now constructor); try (eapply lex_number_valid; eassumption);
      try (eapply IHe; eassumption); eapply IHm; eassumption.
  - cbn [parse_elements] in H. unfold elements_step in H. parser_cases H;
      injection H as <- _; repeat constructor;
      try (eapply IHv; eassumption); eapply IHe; eassumption.
  - cbn [parse_members] in H. unfold members_step in H. parser_cases H;
      injection H as <- _; repeat constructor;
      try (eapply IHv; eassumption); eapply IHm; eassumption.
Qed.

Lemma JSON_parse_well_formed (text : jstring) (v : value) :
  JSON_parse text = Some v -> well_formed v.
Proof.
  unfold JSON_parse.
  destruct (parse_value (parse_fuel text) text) as [w r| |] eqn:E; try discriminate.
  destruct (skip_ws r); [|discriminate]. intro H. injection H as <-.
  destruct (parsers_well_formed (parse_fuel text)) as (Wv & _). eapply Wv, E.
Qed.

(** *** Numbers that are read back *)

(** A finite number in canonical form, other than negative zero, is read back
    from its decimal as the same number. *)
Lemma reread_plain (x : number) :
  valid_binary prec emax x = true -> is_finite x = true ->
  number_eqb x (S754_zero true) = false -> reread x = x.
Proof.
  intros Hv Hf Hz. destruct x as [[|] | | | neg m e]; try discriminate.
  - reflexivity.
  - unfold reread. pose proof (Number_toString_exact neg m e Hv) as Hl.
    pose proof (lex_number_literal _ _ [] Hl I) as H0. rewrite app_nil_r in H0.
    now rewrite H0.
Qed.

Lemma map_fixed {A : Type} (f : A -> A) (l : list A) :
  Forall (fun x => f x = x) l -> map f l = l.
Proof. induction 1; simpl; congruence. Qed.

Lemma reparse_id (v : value) :
  well_formed v -> plain_numbers v = true -> reparse v = v.
Proof.
  induction v as [| b | x | s | elems IH | props IH] using value_induction;
    intros Hwf Hn; try reflexivity.
  - inversion Hwf as [| | ? Hv | | |]; subst.
    simpl in Hn |- *. apply andb_true_iff in Hn as [Hf Hz]. rewrite Hf.
    apply negb_true_iff in Hz. now rewrite reread_plain.
  - inversion Hwf as [| | | | ? Hall |]; subst. cbn [plain_numbers] in Hn.
    cbn [reparse]. f_equal. apply map_fixed.
    rewrite Forall_forall in IH, Hall |- *. rewrite forallb_forall in Hn.
    intros e He. now apply IH; [| apply Hall | apply Hn].
  - inversion Hwf as [| | | | | ? Hcan Hall]; subst. cbn [plain_numbers] in Hn.
    cbn [reparse]. f_equal.
    rewrite map_fixed; [now apply build_object_id|].
    rewrite Forall_forall in IH, Hall |- *. rewrite forallb_forall in Hn.
    intros [k e] He. cbn [fst snd]. f_equal.
    now apply (IH (k, e)); [| apply (Hall (k, e)) | apply (Hn (k, e))].
Qed.

(** [JSON.parse(JSON.stringify(v))] is [v] for a value [v] that [JSON.parse]
    built and whose numbers are finite and not negative zero. *)
Theorem JSON_round_trip (text : jstring) (v : value) :
  JSON_parse text = Some v -> plain_numbers v = true ->
  JSON_parse (JSON_stringify v) = Some v.
Proof.
  intros Hp Hn. rewrite JSON_parse_stringify. f_equal.
  apply reparse_id; [now apply (JSON_parse_well_formed text) | exact Hn].
Qed.

(** * The handler *)

Lemma catch_block_caught (e : js_error) :
  catch_block e = (inl (fst (caught e)), snd (caught e)).
Proof. reflexivity. Qed.

Lemma handler_not_post (p : platform) (ev : event) :
  httpMethod ev <> js "POST" ->
  handler p ev = (inl {| statusCode := 405; body := js "Method Not Allowed" |}, []).
Proof.
  intro H. unfold handler. apply jstring_eqb_neq in H. now rewrite H.
Qed.

Section PostRequest.
Variable p : platform.
Variable ev : event.
Hypothesis Hpost : httpMethod ev = js "POST".

Lemma handler_post : handler p ev = try_catch (try_block p ev) catch_block.
Proof. unfold handler. now rewrite Hpost, jstring_eqb_refl. Qed.

(** The body is not JSON: the SyntaxError is caught. *)
Lemma handler_malformed :
  JSON_parse (ToString (event_body ev)) = None ->
  handler p ev = (inl (fst (caught (syntax_error p (ToString (event_body ev))))),
                  snd (caught (syntax_error p (ToString (event_body ev))))).
Proof.
  intro H. rewrite handler_post. unfold try_block, json_parse.
  rewrite H. reflexivity.
Qed.

Section Parsed.
Variable requestBody : value.
Hypothesis Hparse : JSON_parse (ToString (event_body ev)) = Some requestBody.

(** No key: the Error of line 31 is caught. *)
Lemma handler_no_key :
  falsy (OPENAI_API_KEY p) = true ->
  handler p ev = (inl (fst (caught (Error missing_key_message))),
                  snd (caught (Error missing_key_message))).
Proof.
  intro H. rewrite handler_post. unfold try_block, json_parse.
  rewrite Hparse. cbn [bind ret]. rewrite H. reflexivity.
Qed.

Section Keyed.
Variable apiKey : jstring.
Hypothesis Hkey : OPENAI_API_KEY p = Some apiKey.
Hypothesis Hset : apiKey <> [].

Lemma falsy_key : falsy (OPENAI_API_KEY p) = false.
Proof. rewrite Hkey. destruct apiKey; [contradiction | reflexivity]. Qed.

(** The key is set: the request is sent, and the answer decides. *)
Lemma handler_fetch :
  handler p ev
  = (inl (fst (after_fetch p requestBody apiKey
                 (fetch p (openai_request apiKey requestBody)))),
     snd (after_fetch p requestBody apiKey
            (fetch p (openai_request apiKey requestBody)))).
Proof.
  rewrite handler_post. unfold try_block, json_parse.
  rewrite Hparse. cbn [bind ret]. rewrite falsy_key.
  rewrite Hkey. cbn [interpolate].
  unfold await_fetch, emit. cbn [bind].
  unfold after_fetch.
  destruct (fetch p (openai_request apiKey requestBody)) as [e | r];
    [reflexivity|].
  unfold json, text. cbn [ret bind app].
  destruct (upstream_body r) as [t | e]; [|destruct (ok r); reflexivity].
  destruct (ok r); cbn [negb bind ret].
  - unfold json_parse. destruct (JSON_parse t); reflexivity.
  - reflexivity.
Qed.
End Keyed.
End Parsed.
End PostRequest.

Lemma JSON_stringify_valid (v : value) :
  valid_json (JSON_stringify v) /\ JSON_stringify v <> [].
Proof.
  split; [exists (reparse v); apply JSON_parse_stringify|].
  destruct (JSON_stringify_head v) as (c & s & -> & _). discriminate.
Qed.

Lemma error_envelope_readback (msg : jstring) :
  JSON_parse (JSON_stringify (error_envelope msg)) = Some (error_envelope msg).
Proof. now rewrite JSON_parse_stringify. Qed.

Lemma upstream_envelope_readback (status_text details : jstring) :
  JSON_parse (JSON_stringify (upstream_envelope status_text details))
  = Some (upstream_envelope status_text details).
Proof. now rewrite JSON_parse_stringify. Qed.

(** * The process *)

Lemma grow_nil (s : process) : grow s [] = s.
Proof. destruct s. unfold grow. cbn. now rewrite app_nil_r. Qed.

Lemma grow_grow (s : process) (t u : list effect) :
  grow (grow s t) u = grow s (t ++ u).
Proof. unfold grow. cbn. now rewrite app_assoc. Qed.

Lemma process_catch_block (e : js_error) (s : process) :
  Process.catch_block e s = (inl (fst (caught e)), grow s (snd (caught e))).
Proof. reflexivity. Qed.

Lemma process_caught_after (e : js_error) (s : process) (t : list effect) :
  Process.catch_block e (grow s t)
  = (inl (fst (caught e)), grow s (t ++ snd (caught e))).
Proof. now rewrite process_catch_block, grow_grow. Qed.

(** An invocation returns and adds to the history what [outcome] says, and
    leaves the environment as it is. *)
Lemma process_handler_outcome (eng : engine) (net : network) (ev : event) (s : process) :
  Process.handler eng net ev s
  = (inl (fst (outcome eng (configured_key s) (net (fetches (history s))) ev)),
     grow s (snd (outcome eng (configured_key s) (net (fetches (history s))) ev))).
Proof.
  unfold Process.handler, outcome.
  destruct (negb (jstring_eqb (httpMethod ev) (js "POST"))).
  { unfold Process.ret. cbn [fst snd]. now rewrite grow_nil. }
  unfold Process.try_catch, Process.try_block, Process.bind, Process.parse.
  destruct (JSON_parse (ToString (event_body ev))) as [v|];
    [|apply process_catch_block].
  unfold Process.ret, Process.getenv.
  change (lookup (js "OPENAI_API_KEY") (env s)) with (configured_key s).
  destruct (falsy (configured_key s)); [apply process_catch_block|].
  unfold Process.stringify.
  destruct (stringify_returns eng v); [|apply process_catch_block].
  unfold Process.ret, Process.fetch.
  change (mk_request openai_url (js "POST")
            [ (js "Content-Type", js "application/json");
              (js "Authorization", js "Bearer " ++ interpolate (configured_key s)) ]
            (JSON_stringify v))
    with (openai_request (interpolate (configured_key s)) v).
  set (req := openai_request (interpolate (configured_key s)) v).
  change (mk_process (env s) (history s ++ [Fetch req])) with (grow s [Fetch req]).
  unfold answered. fold req.
  destruct (net (fetches (history s)) req) as [e | r];
    [apply process_caught_after|].
  cbv [Process.json Process.text Process.bind Process.parse Process.stringify
       Process.ret Process.throw Process.console_error].
  destruct (upstream_body r) as [t | e]; destruct (ok r); cbv beta iota; cbn [negb];
    try apply process_caught_after.
  - destruct (JSON_parse t) as [data|]; [|apply process_caught_after].
    destruct (stringify_returns eng data); [reflexivity | apply process_caught_after].
  - cbn [fst snd]. f_equal. unfold grow. cbn. now rewrite <- app_assoc.
Qed.

(** The handler asks the network about the one request it sends. *)
Lemma outcome_answers (eng : engine) (key : option jstring)
      (a1 a2 : upstream_request -> fetch_result) (ev : event) :
  (forall req, a1 req = a2 req) ->
  outcome eng key a1 ev = outcome eng key a2 ev.
Proof.
  intro H. unfold outcome.
  destruct (negb (jstring_eqb (httpMethod ev) (js "POST"))); [reflexivity|].
  destruct (JSON_parse (ToString (event_body ev))) as [v|]; [|reflexivity].
  destruct (falsy key); [reflexivity|].
  destruct (stringify_returns eng v); [|reflexivity].
  now rewrite H.
Qed.

Section ProcessRequest.
Variable eng : engine.
Variable answers : upstream_request -> fetch_result.
Variable ev : event.
Variable requestBody : value.
Variable apiKey : jstring.
Hypothesis Hpost : httpMethod ev = js "POST".
Hypothesis Hparse : JSON_parse (ToString (event_body ev)) = Some requestBody.
Hypothesis Hset : apiKey <> [].

(** [JSON.stringify] returns on the body: the request is sent. *)
Lemma outcome_sent :
  stringify_returns eng requestBody = true ->
  outcome eng (Some apiKey) answers ev
  = answered eng requestBody apiKey (answers (openai_request apiKey requestBody)).
Proof.
  intro Hr. unfold outcome. rewrite Hpost, jstring_eqb_refl, Hparse. cbn [negb].
  destruct apiKey as [|c k]; [contradiction|]. cbn [falsy interpolate]. now rewrite Hr.
Qed.

(** [JSON.stringify] throws on the body: the RangeError is caught. *)
Lemma outcome_overflow :
  stringify_returns eng requestBody = false ->
  outcome eng (Some apiKey) answers ev = caught (RangeError eng).
Proof.
  intro Hr. unfold outcome. rewrite Hpost, jstring_eqb_refl, Hparse. cbn [negb].
  destruct apiKey as [|c k]; [contradiction|]. cbn [falsy interpolate]. now rewrite Hr.
Qed.
End ProcessRequest.

Lemma fetches_app (t u : list effect) : fetches (t ++ u) = fetches t ++ fetches u.
Proof.
  induction t as [|[req | label arg] t IH]; simpl; [reflexivity | now rewrite IH | exact IH].
Qed.

Lemma answered_fetches (eng : engine) (v : value) (k : jstring) (a : fetch_result) :
  fetches (snd (answered eng v k a)) = [openai_request k v].
Proof.
  unfold answered. destruct a as [e | r]; [reflexivity|].
  destruct (upstream_body r) as [t | e]; [|reflexivity].
  destruct (ok r); [|reflexivity].
  destruct (JSON_parse t) as [data|]; [|reflexivity].
  destruct (stringify_returns eng data); reflexivity.
Qed.

(** Whenever [JSON.stringify] returns on what the invocation gives it, the
    process does what the handler of the first embedding does on the platform
    it finds around it. *)
Lemma answered_after_fetch (eng : engine) (p : platform) (v : value) (k : jstring)
      (a : fetch_result) :
  (forall r t data, a = FetchResolves r -> upstream_body r = BodyText t ->
                    JSON_parse t = Some data -> stringify_returns eng data = true) ->
  syntax_error p = SyntaxError eng ->
  answered eng v k a = after_fetch p v k a.
Proof.
  intros Hr Hs. unfold answered, after_fetch.
  destruct a as [e | r]; [reflexivity|].
  destruct (upstream_body r) as [t | e] eqn:Hb; [|reflexivity].
  destruct (ok r); [|reflexivity].
  destruct (JSON_parse t) as [data|] eqn:Hd; [|now rewrite Hs].
  now rewrite (Hr r t data eq_refl Hb Hd).
Qed.

Theorem process_handler_platform (eng : engine) (net : network) (ev : event) (s : process) :
  (forall requestBody, JSON_parse (ToString (event_body ev)) = Some requestBody ->
                       stringify_returns eng requestBody = true) ->
  (forall req r t data, net (fetches (history s)) req = FetchResolves r ->
                        upstream_body r = BodyText t -> JSON_parse t = Some data ->
                        stringify_returns eng data = true) ->
  Process.handler eng net ev s
  = (fst (handler (platform_of eng net s) ev),
     grow s (snd (handler (platform_of eng net s) ev))).
Proof.
  intros Hbody Hdata. rewrite process_handler_outcome.
  set (p := platform_of eng net s).
  enough (E : handler p ev
              = (inl (fst (outcome eng (configured_key s) (net (fetches (history s))) ev)),
                 snd (outcome eng (configured_key s) (net (fetches (history s))) ev)))
    by now rewrite E.
  unfold outcome.
  destruct (jstring_eqb (httpMethod ev) (js "POST")) eqn:Em; cbn [negb].
  - apply jstring_eqb_eq in Em.
    destruct (JSON_parse (ToString (event_body ev))) as [v|] eqn:Hp;
      [|now rewrite (handler_malformed p ev Em Hp)].
    destruct (falsy (configured_key s)) eqn:Hf;
      [now rewrite (handler_no_key p ev Em v Hp Hf)|].
    rewrite (Hbody v eq_refl).
    destruct (configured_key s) as [[|c k]|] eqn:Hk; try discriminate.
    rewrite (handler_fetch p ev Em v Hp (c :: k) Hk) by discriminate.
    cbn [interpolate].
    rewrite (answered_after_fetch eng p v (c :: k)); [reflexivity | | reflexivity].
    intros r t data. apply Hdata.
  - apply jstring_eqb_neq in Em. now rewrite (handler_not_post p ev Em).
Qed.

(** ** The model at work *)

Example toString_tenth : Number_toString (number_of_decimal false 1 (-1)) = js "0.1".
Proof. vm_compute. reflexivity. Qed.

Example toString_exponent :
  Number_toString (number_of_decimal false 123456789 13) = js "1.23456789e+21".
Proof. vm_compute. reflexivity. Qed.

Example toString_small :
  Number_toString (number_of_decimal true 15 (-8)) = js "-1.5e-7".
Proof. vm_compute. reflexivity. Qed.

Example toString_rounds :
  Number_toString (number_of_decimal false 9007199254740993 0) = js "9007199254740992".
Proof. vm_compute. reflexivity. Qed.

Example toString_extremes :
  map Number_toString [ number_of_decimal false 5 (-324);
                        number_of_decimal false 17976931348623157 292;
                        number_of_decimal false 30000000000000004 (-17);
                        number_of_decimal false 1 21;
                        number_of_decimal false 1 (-7) ]
  = [ js "5e-324"; js "1.7976931348623157e+308"; js "0.30000000000000004";
      js "1e+21"; js "1e-7" ].
Proof. vm_compute. reflexivity. Qed.

Example parse_overflow : JSON_parse (js "1e400") = Some (JNumber (S754_infinity false)).
Proof. vm_compute. reflexivity. Qed.

Example stringify_infinity : JSON_stringify (JNumber (S754_infinity false)) = js "null".
Proof. reflexivity. Qed.

Example negative_zero :
  JSON_parse (js "-0") = Some (JNumber (S754_zero true))
  /\ JSON_stringify (JNumber (S754_zero true)) = js "0".
Proof. split; vm_compute; reflexivity. Qed.

(** Index keys come first and in ascending order; a key written twice keeps
    its first place and its last value. *)
Example property_order :
  option_map JSON_stringify
    (JSON_parse (js "{" ++ quoted "b" ++ js ":1," ++ quoted "10" ++ js ":2,"
                    ++ quoted "9" ++ js ":3," ++ quoted "a" ++ js ":4,"
                    ++ quoted "b" ++ js ":5}"))
  = Some (js "{" ++ quoted "9" ++ js ":3," ++ quoted "10" ++ js ":2,"
             ++ quoted "b" ++ js ":5," ++ quoted "a" ++ js ":4}").
Proof. vm_compute. reflexivity. Qed.

Example escapes_read_back :
  JSON_parse (JSON_stringify (JString [34; 92; 10; 7; 55357; 56832; 56832; 233]%N))
  = Some (JString [34; 92; 10; 7; 55357; 56832; 56832; 233]%N).
Proof. vm_compute. reflexivity. Qed.

Example malformed_texts :
  map JSON_parse [js "01"; js "[1,]"; js "1."; js ".5"; js "+1"; js "tru"; js "{a:1}"; js ""]
  = [None; None; None; None; None; None; None; None].
Proof. vm_compute. reflexivity. Qed.

(** A POST of the chat request, the key set, the upstream answering 200: the
    answer is relayed. *)
Example scenario_success :
  let p := stub_platform (Some (js "sk-test")) 200 (js "OK")
             (js "{" ++ quoted "id" ++ js ":" ++ quoted "abc" ++ js ","
                 ++ quoted "choices" ++ js ":[]}") in
  fst (handler p (post chat_request_text))
  = inl {| statusCode := 200;
           body := js "{" ++ quoted "id" ++ js ":" ++ quoted "abc" ++ js ","
                      ++ quoted "choices" ++ js ":[]}" |}.
Proof. vm_compute. reflexivity. Qed.

(** The same POST without the key. *)
Example scenario_no_key :
  let p := stub_platform None 200 (js "OK") chat_response_text in
  fst (handler p (post chat_request_text))
  = inl {| statusCode := 500;
           body := js "{" ++ quoted "error" ++ js ":"
                      ++ quoted "OpenAI API key is not set in Netlify environment variables."
                      ++ js "}" |}.
Proof. vm_compute. reflexivity. Qed.

(** A GET. *)
Example scenario_get :
  let p := stub_platform (Some (js "sk-test")) 200 (js "OK") chat_response_text in
  handler p {| httpMethod := js "GET"; event_body := None |}
  = (inl {| statusCode := 405; body := js "Method Not Allowed" |}, []).
Proof. reflexivity. Qed.

(** A POST without a body: [JSON.parse(null)] is [null], which is forwarded. *)
Example scenario_null_body :
  let p := stub_platform (Some (js "sk-test")) 200 (js "OK") chat_response_text in
  map request_body (fetches (snd (handler p {| httpMethod := js "POST";
                                               event_body := None |})))
  = [js "null"].
Proof. vm_compute. reflexivity. Qed.

(** The same POST twice in one process, the upstream answering 429: each
    invocation sends the request and logs the answer, and the environment
    stays. *)
Example scenario_process_twice :
  let eng := engine_with_stack 2500 in
  let net := answering 429 (js "Too Many Requests") (js "slow down") in
  let ev := post chat_request_text in
  let s := configured (js "sk-test") in
  let req := openai_request (js "sk-test") chat_request_value in
  let line := ConsoleError (js "OpenAI API Error:") (LogText (js "slow down")) in
  snd (Process.handler eng net ev (snd (Process.handler eng net ev s)))
  = {| env := env s; history := [Fetch req; line; Fetch req; line] |}.
Proof. vm_compute. reflexivity. Qed.

(** A POST of 5000 nested arrays on an engine whose stack holds half of them:
    the body is read, and the RangeError of [JSON.stringify] is caught before
    anything is sent. *)
Example scenario_process_deep :
  let eng := engine_with_stack 2500 in
  let net := answering 200 (js "OK") chat_response_text in
  Process.handler eng net (post (nested_text 5000)) (configured (js "sk-test"))
  = (inl {| statusCode := 500;
            body := js "{" ++ quoted "error" ++ js ":"
                       ++ quoted "Maximum call stack size exceeded" ++ js "}" |},
     grow (configured (js "sk-test"))
          [ConsoleError (js "Proxy function error:") (LogError (RangeError eng))]).
Proof. vm_compute. reflexivity. Qed.

(** * The claims *)

(** C1, as stated, fails, in four ways.  The upstream answers 200 with the
    JSON text [overflow_text], whose number is read as Infinity: the handler
    returns 200 with the number replaced by [null].  The upstream answers 200
    with [negative_zero_text]: the handler returns 200 with [0] in the place
    of negative zero.  In both cases the body does not deep-equal the
    upstream's JSON body.  The upstream answers 200 with a JSON text of 5000
    nested arrays, on an engine whose [JSON.stringify] cannot go that deep:
    the handler returns 500.  The upstream answers 200 with a body that is
    not JSON: the handler returns 500. *)
Lemma C1_counterexample :
  let eng := engine_with_stack 2500 in
  let s := configured (js "sk-test") in
  let ev := post chat_request_text in
  let req := openai_request (js "sk-test") chat_request_value in
  (JSON_parse overflow_text
   = Some (JObject [ (js "created", JNumber (S754_infinity false)) ])
   /\ Process.handler eng (answering 200 (js "OK") overflow_text) ev s
      = (inl {| statusCode := 200;
                body := js "{" ++ quoted "created" ++ js ":null}" |},
         grow s [Fetch req])
   /\ JSON_parse (js "{" ++ quoted "created" ++ js ":null}") <> JSON_parse overflow_text)
  /\ (JSON_parse negative_zero_text
      = Some (JObject [ (js "created", JNumber (S754_zero true)) ])
      /\ Process.handler eng (answering 200 (js "OK") negative_zero_text) ev s
         = (inl {| statusCode := 200;
                   body := js "{" ++ quoted "created" ++ js ":0}" |},
            grow s [Fetch req])
      /\ JSON_parse (js "{" ++ quoted "created" ++ js ":0}")
         <> JSON_parse negative_zero_text)
  /\ (JSON_parse (nested_text 5000) <> None
      /\ fst (Process.handler eng (answering 200 (js "OK") (nested_text 5000)) ev s)
         = inl {| statusCode := 500;
                  body := JSON_stringify
                            (error_envelope (js "Maximum call stack size exceeded")) |})
  /\ fst (Process.handler eng (answering 200 (js "OK") (js "upstream is up")) ev s)
     = inl {| statusCode := 500;
              body := JSON_stringify
                        (error_envelope (js "Unexpected end of JSON input")) |}.
Proof.
  repeat split; try (vm_compute; reflexivity); vm_compute; discriminate.
Qed.

(** C1 (amended). For a POST request whose body parses as JSON to
    [requestBody], with the credential set to a non-empty string and a
    [requestBody] that [JSON.stringify] returns on, when the upstream answers
    the request with a success status and a body that parses as JSON to
    [data]: if [JSON.stringify] returns on [data], the handler returns status
    200 and the body [JSON.stringify(data)], after that one upstream request,
    and the body parses back to [data], so deep-equals the upstream's JSON
    body, whenever no number of [data] is infinite or negative zero; if
    [JSON.stringify] throws on [data], the handler returns status 500 with the
    message of the RangeError. *)
Theorem C1_success_relays_upstream (eng : engine) (net : network) (ev : event)
        (s : process) (requestBody : value) (apiKey : jstring)
        (r : upstream_response) (upstream_text : jstring) (data : value) :
  httpMethod ev = js "POST" ->
  JSON_parse (ToString (event_body ev)) = Some requestBody ->
  configured_key s = Some apiKey -> apiKey <> [] ->
  stringify_returns eng requestBody = true ->
  net (fetches (history s)) (openai_request apiKey requestBody) = FetchResolves r ->
  200 <= status r <= 299 ->
  upstream_body r = BodyText upstream_text ->
  JSON_parse upstream_text = Some data ->
  (stringify_returns eng data = true ->
   Process.handler eng net ev s
   = (inl {| statusCode := 200; body := JSON_stringify data |},
      grow s [Fetch (openai_request apiKey requestBody)])
   /\ (plain_numbers data = true ->
       JSON_parse (JSON_stringify data) = JSON_parse upstream_text))
  /\ (stringify_returns eng data = false ->
      Process.handler eng net ev s
      = (inl {| statusCode := 500;
                body := JSON_stringify (error_envelope (message (RangeError eng))) |},
         grow s [Fetch (openai_request apiKey requestBody);
                 ConsoleError (js "Proxy function error:") (LogError (RangeError eng))])).
Proof.
  intros Hpost Hparse Hkey Hset Hfits Hfetch Hok Hbody Hdata.
  rewrite process_handler_outcome, Hkey.
  rewrite (outcome_sent eng _ ev requestBody apiKey Hpost Hparse Hset Hfits).
  rewrite Hfetch. unfold answered. rewrite Hbody, Hdata.
  replace (ok r) with true
    by (symmetry; unfold ok; apply andb_true_iff; split; apply Z.leb_le; lia).
  split; intro Hr; rewrite Hr; [split; [reflexivity|] | reflexivity].
  intro Hn. now apply (JSON_round_trip upstream_text).
Qed.

Lemma C1_success_relays_upstream_witness :
  let eng := engine_with_stack 2500 in
  let s := configured (js "sk-test") in
  let ev := post chat_request_text in
  Process.handler eng (answering 201 (js "Created") chat_response_text) ev s
  = (inl {| statusCode := 200; body := JSON_stringify chat_response_value |},
     grow s [Fetch (openai_request (js "sk-test") chat_request_value)])
  /\ JSON_parse (JSON_stringify chat_response_value) = JSON_parse chat_response_text.
Proof.
  intros eng s ev.
  destruct (C1_success_relays_upstream eng (answering 201 (js "Created") chat_response_text)
              ev s chat_request_value (js "sk-test")
              {| status := 201; statusText := js "Created";
                 upstream_body := BodyText chat_response_text |}
              chat_response_text chat_response_value) as [H _];
    try (vm_compute; reflexivity).
  - discriminate.
  - simpl; lia.
  - destruct (H eq_refl) as [H1 H2]. split; [exact H1 | exact (H2 eq_refl)].
Defined.

(** C2. A request whose method is not POST gets status 405 and the plain text
    [Method Not Allowed], whatever its body and whatever the platform: the
    body is not read and the trace is empty, so nothing is sent upstream and
    nothing is logged; any other body, on any other platform, gets the same
    answer. *)
Theorem C2_method_not_allowed (p : platform) (ev : event) :
  httpMethod ev <> js "POST" ->
  handler p ev = (inl {| statusCode := 405; body := js "Method Not Allowed" |}, [])
  /\ fetches (snd (handler p ev)) = []
  /\ (forall (q : platform) (b : option jstring),
         handler q {| httpMethod := httpMethod ev; event_body := b |} = handler p ev).
Proof.
  intro H. rewrite (handler_not_post p ev H). repeat split.
  intros q b. now apply handler_not_post.
Qed.

Lemma C2_method_not_allowed_witness :
  let p := stub_platform (Some (js "sk-test")) 200 (js "OK") chat_response_text in
  let ev := {| httpMethod := js "GET"; event_body := Some chat_request_text |} in
  handler p ev = (inl {| statusCode := 405; body := js "Method Not Allowed" |}, [])
  /\ fetches (snd (handler p ev)) = []
  /\ (forall (q : platform) (b : option jstring),
         handler q {| httpMethod := httpMethod ev; event_body := b |} = handler p ev).
Proof.
  intros p ev. apply (C2_method_not_allowed p ev). vm_compute. discriminate.
Defined.

(** C3, as stated, fails: a POST request whose body is not JSON, on a platform
    without the credential.  [JSON.parse] throws before the credential is
    read, so the message returned is the SyntaxError's and not the one about
    the missing credential; the handler answers the same when the credential
    is set. *)
Lemma C3_counterexample :
  let p := stub_platform None 200 (js "OK") chat_response_text in
  let ev := post (js "{") in
  OPENAI_API_KEY p = None
  /\ JSON_parse (ToString (event_body ev)) = None
  /\ handler p ev = handler (with_key p (Some (js "sk-test"))) ev
  /\ handler p ev
     = (inl {| statusCode := 500;
               body := JSON_stringify (error_envelope (js "Unexpected end of JSON input")) |},
        [ConsoleError (js "Proxy function error:")
                      (LogError {| error_name := js "SyntaxError";
                                   message := js "Unexpected end of JSON input" |})])
  /\ js "Unexpected end of JSON input" <> missing_key_message.
Proof.
  repeat split; try (vm_compute; reflexivity). vm_compute. discriminate.
Qed.

(** C3 (amended). For a POST request, if the body fails JSON parsing or the
    credential is absent, the handler returns status 500 with a JSON body
    whose [error] field holds the message of the exception thrown, and sends
    nothing upstream.  The exception is the SyntaxError when the body fails
    to parse; when the body parses and the credential is absent it is the
    Error about the missing key. *)
Theorem C3_parse_failure_or_missing_key (p : platform) (ev : event) :
  httpMethod ev = js "POST" ->
  JSON_parse (ToString (event_body ev)) = None \/ OPENAI_API_KEY p = None ->
  exists e : js_error,
    handler p ev
    = (inl {| statusCode := 500; body := JSON_stringify (error_envelope (message e)) |},
       [ConsoleError (js "Proxy function error:") (LogError e)])
    /\ JSON_parse (JSON_stringify (error_envelope (message e)))
       = Some (JObject [ (js "error", JString (message e)) ])
    /\ (JSON_parse (ToString (event_body ev)) = None ->
        e = syntax_error p (ToString (event_body ev)))
    /\ (JSON_parse (ToString (event_body ev)) <> None ->
        message e = missing_key_message).
Proof.
  intros Hpost H.
  destruct (JSON_parse (ToString (event_body ev))) as [v|] eqn:Hparse.
  - destruct H as [H | Hkey]; [discriminate|].
    exists (Error missing_key_message).
    rewrite (handler_no_key p ev Hpost v Hparse) by now rewrite Hkey.
    split; [reflexivity|]. split; [apply error_envelope_readback|].
    split; [discriminate | reflexivity].
  - exists (syntax_error p (ToString (event_body ev))).
    rewrite (handler_malformed p ev Hpost Hparse).
    split; [reflexivity|]. split; [apply error_envelope_readback|].
    split; [reflexivity | congruence].
Qed.

Lemma C3_parse_failure_or_missing_key_witness :
  let p := stub_platform None 200 (js "OK") chat_response_text in
  let ev := post chat_request_text in
  exists e : js_error,
    handler p ev
    = (inl {| statusCode := 500; body := JSON_stringify (error_envelope (message e)) |},
       [ConsoleError (js "Proxy function error:") (LogError e)])
    /\ JSON_parse (JSON_stringify (error_envelope (message e)))
       = Some (JObject [ (js "error", JString (message e)) ])
    /\ (JSON_parse (ToString (event_body ev)) = None ->
        e = syntax_error p (ToString (event_body ev)))
    /\ (JSON_parse (ToString (event_body ev)) <> None ->
        message e = missing_key_message).
Proof.
  intros p ev. apply (C3_parse_failure_or_missing_key p ev).
  - reflexivity.
  - right. reflexivity.
Defined.

(** C4. For a POST request with a body that parses and a credential set to a
    non-empty string, if the upstream answers with a status [S] outside
    200..299 and the body text [T], the handler returns status [S] and a JSON
    body whose [details] field is [T] and whose [error] field is the summary
    [OpenAI API request failed: ] followed by the status text. *)
Theorem C4_upstream_failure (p : platform) (ev : event) (requestBody : value)
        (apiKey : jstring) (r : upstream_response) (T : jstring) :
  httpMethod ev = js "POST" ->
  JSON_parse (ToString (event_body ev)) = Some requestBody ->
  OPENAI_API_KEY p = Some apiKey -> apiKey <> [] ->
  fetch p (openai_request apiKey requestBody) = FetchResolves r ->
  ~ (200 <= status r <= 299) ->
  upstream_body r = BodyText T ->
  exists resp t,
    handler p ev = (inl resp, t)
    /\ statusCode resp = status r
    /\ JSON_parse (body resp)
       = Some (JObject [ (js "error",
                          JString (js "OpenAI API request failed: " ++ statusText r));
                         (js "details", JString T) ]).
Proof.
  intros Hpost Hparse Hkey Hset Hfetch Hok Hbody.
  rewrite (handler_fetch p ev Hpost requestBody Hparse apiKey Hkey Hset).
  rewrite Hfetch. unfold after_fetch. rewrite Hbody.
  replace (ok r) with false.
  - eexists _, _. split; [reflexivity|]. split; [reflexivity|].
    apply upstream_envelope_readback.
  - symmetry. unfold ok. apply andb_false_iff.
    destruct (Z.lt_ge_cases (status r) 200); [left; apply Z.leb_gt | right; apply Z.leb_gt];
      lia.
Qed.

Lemma C4_upstream_failure_witness :
  let p := stub_platform (Some (js "sk-test")) 429 (js "Too Many Requests")
                         (js "rate limit reached") in
  let ev := post chat_request_text in
  exists resp t,
    handler p ev = (inl resp, t)
    /\ statusCode resp = 429
    /\ JSON_parse (body resp)
       = Some (JObject [ (js "error",
                          JString (js "OpenAI API request failed: Too Many Requests"));
                         (js "details", JString (js "rate limit reached")) ]).
Proof.
  intros p ev.
  apply (C4_upstream_failure p ev chat_request_value (js "sk-test")
           {| status := 429; statusText := js "Too Many Requests";
              upstream_body := BodyText (js "rate limit reached") |}
           (js "rate limit reached")); try (vm_compute; reflexivity).
  - discriminate.
  - simpl; lia.
Defined.

(** C5. For every request and every platform the handler returns a response
    (it never throws).  Its status is 200, 405, 500 or the status of the
    upstream response to the one request it sent.  For a POST request the body
    is a non-empty text that [JSON.parse] accepts; otherwise the status is 405
    and the body is the plain text [Method Not Allowed], which is not JSON. *)
Theorem C5_status_and_body (p : platform) (ev : event) :
  exists resp t,
    handler p ev = (inl resp, t)
    /\ (statusCode resp = 200 \/ statusCode resp = 405 \/ statusCode resp = 500
        \/ exists req r, fetches t = [req] /\ fetch p req = FetchResolves r
                         /\ statusCode resp = status r)
    /\ (if jstring_eqb (httpMethod ev) (js "POST")
        then valid_json (body resp) /\ body resp <> []
        else statusCode resp = 405 /\ body resp = js "Method Not Allowed"
             /\ ~ valid_json (body resp)).
Proof.
  destruct (jstring_eqb (httpMethod ev) (js "POST")) eqn:Em.
  - apply jstring_eqb_eq in Em.
    destruct (JSON_parse (ToString (event_body ev))) as [v|] eqn:Hparse.
    + destruct (falsy (OPENAI_API_KEY p)) eqn:Hf.
      * rewrite (handler_no_key p ev Em v Hparse Hf). eexists _, _.
        split; [reflexivity|]. split; [tauto | apply JSON_stringify_valid].
      * destruct (OPENAI_API_KEY p) as [[|c k]|] eqn:Hkey; try discriminate.
        rewrite (handler_fetch p ev Em v Hparse (c :: k) Hkey) by discriminate.
        eexists _, _. split; [reflexivity|]. unfold after_fetch.
        destruct (fetch p (openai_request (c :: k) v)) as [e | r] eqn:Hfetch;
          [split; [tauto | apply JSON_stringify_valid]|].
        destruct (upstream_body r) as [t | e];
          [|split; [tauto | apply JSON_stringify_valid]].
        destruct (ok r).
        -- destruct (JSON_parse t); (split; [tauto | apply JSON_stringify_valid]).
        -- split; [|apply JSON_stringify_valid].
           right; right; right. now exists (openai_request (c :: k) v), r.
    + rewrite (handler_malformed p ev Em Hparse). eexists _, _.
      split; [reflexivity|]. split; [tauto | apply JSON_stringify_valid].
  - apply jstring_eqb_neq in Em. rewrite (handler_not_post p ev Em). eexists _, _.
    split; [reflexivity|]. split; [tauto|]. repeat split.
    intros [v Hv]. vm_compute in Hv. discriminate.
Qed.

(** The one request a POST with a body that parses and a key sends. *)
Lemma handler_fetches (p : platform) (ev : event) (requestBody : value)
      (apiKey : jstring) :
  httpMethod ev = js "POST" ->
  JSON_parse (ToString (event_body ev)) = Some requestBody ->
  OPENAI_API_KEY p = Some apiKey -> apiKey <> [] ->
  fetches (snd (handler p ev)) = [openai_request apiKey requestBody].
Proof.
  intros Hpost Hparse Hkey Hset.
  rewrite (handler_fetch p ev Hpost requestBody Hparse apiKey Hkey Hset).
  cbn [snd]. unfold after_fetch.
  destruct (fetch p (openai_request apiKey requestBody)) as [e | r]; [reflexivity|].
  destruct (upstream_body r) as [t | e]; [|reflexivity].
  destruct (ok r); [|reflexivity].
  destruct (JSON_parse t); reflexivity.
Qed.

(** C6, as stated, fails: a POST request whose body is the JSON text of 5000
    nested arrays, with the credential set, on an engine whose
    [JSON.stringify] cannot go that deep.  The body parses, [JSON.stringify]
    throws while the request is being built, and the handler sends nothing
    upstream and returns 500. *)
Lemma C6_counterexample :
  let eng := engine_with_stack 2500 in
  let s := configured (js "sk-test") in
  let ev := post (nested_text 5000) in
  let run := Process.handler eng (answering 200 (js "OK") chat_response_text) ev s in
  httpMethod ev = js "POST"
  /\ JSON_parse (ToString (event_body ev)) <> None
  /\ configured_key s = Some (js "sk-test")
  /\ fetches (history (snd run)) = []
  /\ fst run
     = inl {| statusCode := 500;
              body := JSON_stringify
                        (error_envelope (js "Maximum call stack size exceeded")) |}.
Proof.
  repeat split; try (vm_compute; reflexivity). vm_compute. discriminate.
Qed.

(** C6 (amended). For a POST request with a body that parses to [requestBody]
    and a credential set to the non-empty string [apiKey]: if
    [JSON.stringify] returns on [requestBody], the handler sends exactly one
    upstream request: method POST, the fixed URL, the headers Content-Type
    [application/json] and Authorization [Bearer ] followed by [apiKey], and
    as body [JSON.stringify(requestBody)]; if [JSON.stringify] throws, the
    handler sends nothing upstream and returns status 500 with the message of
    the RangeError. *)
Theorem C6_one_upstream_request (eng : engine) (net : network) (ev : event)
        (s : process) (requestBody : value) (apiKey : jstring) :
  httpMethod ev = js "POST" ->
  JSON_parse (ToString (event_body ev)) = Some requestBody ->
  configured_key s = Some apiKey -> apiKey <> [] ->
  let run := Process.handler eng net ev s in
  (stringify_returns eng requestBody = true ->
   fetches (history (snd run))
   = fetches (history s)
     ++ [ {| url := js "https://api.openai.com/v1/chat/completions";
             method := js "POST";
             headers := [ (js "Content-Type", js "application/json");
                          (js "Authorization", js "Bearer " ++ apiKey) ];
             request_body := JSON_stringify requestBody |} ])
  /\ (stringify_returns eng requestBody = false ->
      fetches (history (snd run)) = fetches (history s)
      /\ fst run
         = inl {| statusCode := 500;
                  body := JSON_stringify (error_envelope (message (RangeError eng))) |}).
Proof.
  intros Hpost Hparse Hkey Hset run. unfold run.
  rewrite process_handler_outcome, Hkey. cbn [fst snd grow history].
  rewrite fetches_app. split; intro Hr.
  - rewrite (outcome_sent eng _ ev requestBody apiKey Hpost Hparse Hset Hr).
    now rewrite answered_fetches.
  - rewrite (outcome_overflow eng _ ev requestBody apiKey Hpost Hparse Hset Hr).
    cbn [caught fst snd fetches]. now rewrite app_nil_r.
Qed.

Lemma C6_one_upstream_request_witness :
  let eng := engine_with_stack 2500 in
  let s := configured (js "sk-test") in
  let ev := post spaced_request_text in
  fetches (history (snd (Process.handler eng (answering 200 (js "OK") chat_response_text)
                           ev s)))
  = [ {| url := js "https://api.openai.com/v1/chat/completions";
         method := js "POST";
         headers := [ (js "Content-Type", js "application/json");
                      (js "Authorization", js "Bearer sk-test") ];
         request_body := chat_request_text |} ].
Proof.
  intros eng s ev.
  exact (proj1 (C6_one_upstream_request eng (answering 200 (js "OK") chat_response_text)
                  ev s chat_request_value (js "sk-test")
                  eq_refl
                  (eq_refl : JSON_parse (ToString (event_body ev)) = Some chat_request_value)
                  eq_refl
                  ltac:(discriminate))
               eq_refl).
Defined.




(** C8. The handler keeps no state.  Invoked twice in a row in the same
    process with the same request, against a stub of the upstream that
    returns identical responses, it returns the same response both times; an
    invocation leaves the environment of the process as it found it; and the
    second invocation sends and logs again exactly what the first did. *)
Theorem C8_stateless (eng : engine) (net : network) (ev : event) (s : process) :
  steady net ->
  let first := Process.handler eng net ev s in
  let second := Process.handler eng net ev (snd first) in
  fst second = fst first
  /\ env (snd first) = env s
  /\ env (snd second) = env s
  /\ exists t, history (snd first) = history s ++ t
               /\ history (snd second) = history s ++ t ++ t.
Proof.
  intros Hsteady first second. unfold second, first.
  rewrite (process_handler_outcome eng net ev s). cbn [fst snd].
  set (o := outcome eng (configured_key s) (net (fetches (history s))) ev).
  rewrite process_handler_outcome.
  change (configured_key (grow s (snd o))) with (configured_key s).
  rewrite (outcome_answers eng (configured_key s)
             (net (fetches (history (grow s (snd o))))) (net (fetches (history s))) ev)
    by (intro req; apply Hsteady).
  fold o. cbn [fst snd grow env history].
  repeat split. exists (snd o). now rewrite app_assoc.
Qed.

Lemma C8_stateless_witness :
  let eng := engine_with_stack 2500 in
  let net := answering 200 (js "OK") chat_response_text in
  let ev := post chat_request_text in
  let first := Process.handler eng net ev (configured (js "sk-test")) in
  let second := Process.handler eng net ev (snd first) in
  fst first = inl {| statusCode := 200; body := JSON_stringify chat_response_value |}
  /\ fst second = fst first
  /\ env (snd second) = env (configured (js "sk-test")).
Proof.
  intros eng net ev first second.
  destruct (C8_stateless eng net ev (configured (js "sk-test"))) as (H1 & _ & H2 & _).
  - intros seen seen' req. reflexivity.
  - split; [vm_compute; reflexivity|]. split; [exact H1 | exact H2].
Defined.

(** C9. For a POST request with a body that parses, a credential that is set
    to the empty string is treated as an absent one: the handler returns
    status 500 with the missing-credential error, exactly as it does when the
    variable is not set, and sends nothing upstream. *)
Theorem C9_empty_key_is_missing (p : platform) (ev : event) (requestBody : value) :
  httpMethod ev = js "POST" ->
  JSON_parse (ToString (event_body ev)) = Some requestBody ->
  OPENAI_API_KEY p = Some [] ->
  handler p ev
  = (inl {| statusCode := 500;
            body := JSON_stringify (error_envelope missing_key_message) |},
     [ConsoleError (js "Proxy function error:") (LogError (Error missing_key_message))])
  /\ handler p ev = handler (with_key p None) ev
  /\ fetches (snd (handler p ev)) = [].
Proof.
  intros Hpost Hparse Hkey.
  rewrite (handler_no_key p ev Hpost requestBody Hparse) by now rewrite Hkey.
  rewrite (handler_no_key (with_key p None) ev Hpost requestBody Hparse) by reflexivity.
  now repeat split.
Qed.

Lemma C9_empty_key_is_missing_witness :
  let p := stub_platform (Some []) 200 (js "OK") chat_response_text in
  let ev := post chat_request_text in
  handler p ev
  = (inl {| statusCode := 500;
            body := JSON_stringify (error_envelope missing_key_message) |},
     [ConsoleError (js "Proxy function error:") (LogError (Error missing_key_message))])
  /\ handler p ev = handler (with_key p None) ev
  /\ fetches (snd (handler p ev)) = [].
Proof.
  intros p ev.
  exact (C9_empty_key_is_missing p ev chat_request_value eq_refl
           (eq_refl : JSON_parse (ToString (event_body ev)) = Some chat_request_value)
           eq_refl).
Defined.

(** C10, as stated, fails, in three ways.  The body [overflow_request_text]
    parses to an object whose number is Infinity: the body forwarded upstream
    has [null] in its place.  The body [negative_zero_request_text] parses to
    an object whose number is negative zero: the body forwarded has [0] in
    its place.  Neither deep-equals the inbound JSON value.  And for a body of
    5000 nested arrays, on an engine whose [JSON.stringify] cannot go that
    deep, no body is forwarded at all. *)
Lemma C10_counterexample :
  let eng := engine_with_stack 2500 in
  let s := configured (js "sk-test") in
  let net := answering 200 (js "OK") chat_response_text in
  let forwarded ev := map request_body (fetches (history (snd (Process.handler eng net ev s)))) in
  (JSON_parse overflow_request_text
   = Some (JObject [ (js "temperature", JNumber (S754_infinity false)) ])
   /\ forwarded (post overflow_request_text)
      = [ js "{" ++ quoted "temperature" ++ js ":null}" ]
   /\ JSON_parse (js "{" ++ quoted "temperature" ++ js ":null}")
      <> JSON_parse overflow_request_text)
  /\ (JSON_parse negative_zero_request_text
      = Some (JObject [ (js "temperature", JNumber (S754_zero true)) ])
      /\ forwarded (post negative_zero_request_text)
         = [ js "{" ++ quoted "temperature" ++ js ":0}" ]
      /\ JSON_parse (js "{" ++ quoted "temperature" ++ js ":0}")
         <> JSON_parse negative_zero_request_text)
  /\ (JSON_parse (nested_text 5000) <> None
      /\ forwarded (post (nested_text 5000)) = []).
Proof.
  repeat split; try (vm_compute; reflexivity); vm_compute; discriminate.
Qed.

(** C10 (amended). For a POST request with a body that parses to
    [requestBody], a credential set to a non-empty string, and a
    [requestBody] that [JSON.stringify] returns on, the body forwarded
    upstream is [JSON.stringify(requestBody)]; it parses back to
    [requestBody], so deep-equals the inbound JSON value, whenever no number
    of [requestBody] is infinite or negative zero.  It need not be the
    inbound text: white space is dropped. *)
Theorem C10_forwarded_body :
  (forall (eng : engine) (net : network) (ev : event) (s : process)
          (requestBody : value) (apiKey : jstring),
      httpMethod ev = js "POST" ->
      JSON_parse (ToString (event_body ev)) = Some requestBody ->
      configured_key s = Some apiKey -> apiKey <> [] ->
      stringify_returns eng requestBody = true ->
      map request_body (fetches (history (snd (Process.handler eng net ev s))))
      = map request_body (fetches (history s)) ++ [JSON_stringify requestBody]
      /\ (plain_numbers requestBody = true ->
          JSON_parse (JSON_stringify requestBody)
          = JSON_parse (ToString (event_body ev))))
  /\ (exists text requestBody,
         JSON_parse text = Some requestBody /\ JSON_stringify requestBody <> text).
Proof.
  split.
  - intros eng net ev s requestBody apiKey Hpost Hparse Hkey Hset Hr. split.
    + rewrite process_handler_outcome, Hkey. cbn [fst snd grow history].
      rewrite (outcome_sent eng _ ev requestBody apiKey Hpost Hparse Hset Hr).
      now rewrite fetches_app, answered_fetches, map_app.
    + intro Hn. rewrite Hparse. now apply (JSON_round_trip (ToString (event_body ev))).
  - exists spaced_request_text, chat_request_value.
    split; [vm_compute; reflexivity | vm_compute; discriminate].
Qed.

Lemma C10_forwarded_body_witness :
  let eng := engine_with_stack 2500 in
  let s := configured (js "sk-test") in
  let net := answering 200 (js "OK") chat_response_text in
  let ev := post spaced_request_text in
  map request_body (fetches (history (snd (Process.handler eng net ev s))))
  = [chat_request_text]
  /\ JSON_parse chat_request_text = JSON_parse spaced_request_text
  /\ chat_request_text <> spaced_request_text.
Proof.
  intros eng s net ev.
  destruct (proj1 C10_forwarded_body eng net ev s chat_request_value (js "sk-test")
              eq_refl
              (eq_refl : JSON_parse (ToString (event_body ev)) = Some chat_request_value)
              eq_refl ltac:(discriminate) eq_refl) as [H1 H2].
  split; [exact H1|]. split; [exact (H2 eq_refl) | discriminate].
Defined.

(** * More of the handler *)

(** The four paths of the handler: the method is not POST; the body is not
    JSON; the key is missing; the request is sent. *)
Lemma handler_paths (p : platform) (ev : event) :
  (httpMethod ev <> js "POST"
   /\ handler p ev = (inl {| statusCode := 405; body := js "Method Not Allowed" |}, []))
  \/ (httpMethod ev = js "POST"
      /\ JSON_parse (ToString (event_body ev)) = None
      /\ handler p ev = (inl (fst (caught (syntax_error p (ToString (event_body ev))))),
                         snd (caught (syntax_error p (ToString (event_body ev))))))
  \/ (httpMethod ev = js "POST"
      /\ (exists requestBody, JSON_parse (ToString (event_body ev)) = Some requestBody)
      /\ falsy (OPENAI_API_KEY p) = true
      /\ handler p ev = (inl (fst (caught (Error missing_key_message))),
                         snd (caught (Error missing_key_message))))
  \/ (exists requestBody apiKey,
         httpMethod ev = js "POST"
         /\ JSON_parse (ToString (event_body ev)) = Some requestBody
         /\ OPENAI_API_KEY p = Some apiKey /\ apiKey <> []
         /\ handler p ev
            = (inl (fst (after_fetch p requestBody apiKey
                           (fetch p (openai_request apiKey requestBody)))),
               snd (after_fetch p requestBody apiKey
                      (fetch p (openai_request apiKey requestBody))))).
Proof.
  destruct (jstring_eqb (httpMethod ev) (js "POST")) eqn:Em.
  - apply jstring_eqb_eq in Em. right.
    destruct (JSON_parse (ToString (event_body ev))) as [v|] eqn:Hparse.
    + right. destruct (falsy (OPENAI_API_KEY p)) eqn:Hf.
      * left. split; [exact Em|]. split; [now exists v|]. split; [reflexivity|].
        now apply (handler_no_key p ev Em v).
      * right. destruct (OPENAI_API_KEY p) as [[|c k]|] eqn:Hkey; try discriminate.
        exists v, (c :: k). split; [exact Em|]. split; [reflexivity|].
        split; [reflexivity|]. split; [discriminate|].
        now apply handler_fetch.
    + left. split; [exact Em|]. split; [reflexivity|]. now apply handler_malformed.
  - left. apply jstring_eqb_neq in Em. split; [assumption | now apply handler_not_post].
Qed.

Lemma ok_iff (r : upstream_response) : ok r = true <-> 200 <= status r <= 299.
Proof.
  unfold ok. rewrite andb_true_iff, !Z.leb_le. tauto.
Qed.

(** X1. Network failure.  For a POST request with a body that parses and a
    non-empty key, when [fetch] rejects with the error [e], the handler
    returns status 500 with the JSON body whose [error] field is the message
    of [e]; the request was sent once and the error is logged once. *)
Theorem X1_network_failure (p : platform) (ev : event) (requestBody : value)
        (apiKey : jstring) (e : js_error) :
  httpMethod ev = js "POST" ->
  JSON_parse (ToString (event_body ev)) = Some requestBody ->
  OPENAI_API_KEY p = Some apiKey -> apiKey <> [] ->
  fetch p (openai_request apiKey requestBody) = FetchRejects e ->
  handler p ev
  = (inl {| statusCode := 500; body := JSON_stringify (error_envelope (message e)) |},
     [Fetch (openai_request apiKey requestBody);
      ConsoleError (js "Proxy function error:") (LogError e)])
  /\ JSON_parse (JSON_stringify (error_envelope (message e)))
     = Some (JObject [ (js "error", JString (message e)) ]).
Proof.
  intros Hpost Hparse Hkey Hset Hfetch.
  rewrite (handler_fetch p ev Hpost requestBody Hparse apiKey Hkey Hset), Hfetch.
  split; [reflexivity | apply error_envelope_readback].
Qed.

Lemma X1_network_failure_witness :
  let p := platform_answering (Some (js "sk-test")) (FetchRejects fetch_failed) in
  let ev := post chat_request_text in
  handler p ev
  = (inl {| statusCode := 500; body := JSON_stringify (error_envelope (js "fetch failed")) |},
     [Fetch (openai_request (js "sk-test") chat_request_value);
      ConsoleError (js "Proxy function error:") (LogError fetch_failed)])
  /\ JSON_parse (JSON_stringify (error_envelope (js "fetch failed")))
     = Some (JObject [ (js "error", JString (js "fetch failed")) ]).
Proof.
  intros p ev.
  exact (X1_network_failure p ev chat_request_value (js "sk-test") fetch_failed
           eq_refl
           (eq_refl : JSON_parse (ToString (event_body ev)) = Some chat_request_value)
           eq_refl ltac:(discriminate) eq_refl).
Defined.

(** X2. Upstream success with a body that is not JSON.  For a POST request
    with a body that parses and a non-empty key, when the upstream answers
    with a status in 200..299 and a text [T] that [JSON.parse] rejects, the
    handler returns status 500, not 200: the SyntaxError of
    [response.json()] is caught, its message is the [error] field, and the
    upstream's text is not returned. *)
Theorem X2_upstream_body_not_json (p : platform) (ev : event) (requestBody : value)
        (apiKey : jstring) (r : upstream_response) (T : jstring) :
  httpMethod ev = js "POST" ->
  JSON_parse (ToString (event_body ev)) = Some requestBody ->
  OPENAI_API_KEY p = Some apiKey -> apiKey <> [] ->
  fetch p (openai_request apiKey requestBody) = FetchResolves r ->
  200 <= status r <= 299 ->
  upstream_body r = BodyText T ->
  JSON_parse T = None ->
  handler p ev
  = (inl {| statusCode := 500;
            body := JSON_stringify (error_envelope (message (syntax_error p T))) |},
     [Fetch (openai_request apiKey requestBody);
      ConsoleError (js "Proxy function error:") (LogError (syntax_error p T))])
  /\ JSON_parse (JSON_stringify (error_envelope (message (syntax_error p T))))
     = Some (JObject [ (js "error", JString (message (syntax_error p T))) ]).
Proof.
  intros Hpost Hparse Hkey Hset Hfetch Hok Hbody HT.
  rewrite (handler_fetch p ev Hpost requestBody Hparse apiKey Hkey Hset), Hfetch.
  unfold after_fetch. rewrite Hbody, HT.
  apply ok_iff in Hok. rewrite Hok.
  split; [reflexivity | apply error_envelope_readback].
Qed.

Lemma X2_upstream_body_not_json_witness :
  let r := {| status := 204; statusText := js "No Content"; upstream_body := BodyText [] |} in
  let p := platform_answering (Some (js "sk-test")) (FetchResolves r) in
  let ev := post chat_request_text in
  handler p ev
  = (inl {| statusCode := 500;
            body := JSON_stringify (error_envelope (js "Unexpected end of JSON input")) |},
     [Fetch (openai_request (js "sk-test") chat_request_value);
      ConsoleError (js "Proxy function error:") (LogError (syntax_error p []))])
  /\ JSON_parse (JSON_stringify (error_envelope (js "Unexpected end of JSON input")))
     = Some (JObject [ (js "error", JString (js "Unexpected end of JSON input")) ]).
Proof.
  intros r p ev.
  exact (X2_upstream_body_not_json p ev chat_request_value (js "sk-test") r []
           eq_refl
           (eq_refl : JSON_parse (ToString (event_body ev)) = Some chat_request_value)
           eq_refl ltac:(discriminate) eq_refl
           (conj (fun H : (200 ?= 204) = Gt => ltac:(discriminate H))
                 (fun H : (204 ?= 299) = Gt => ltac:(discriminate H)))
           eq_refl eq_refl).
Defined.

(** X3. The upstream body cannot be read.  For a POST request with a body
    that parses and a non-empty key, when the upstream answers but reading
    its body rejects with [e], the handler returns status 500 with the
    message of [e], whatever the upstream status: a failure status is then
    not relayed and the upstream error is not logged. *)
Theorem X3_upstream_body_unreadable (p : platform) (ev : event) (requestBody : value)
        (apiKey : jstring) (r : upstream_response) (e : js_error) :
  httpMethod ev = js "POST" ->
  JSON_parse (ToString (event_body ev)) = Some requestBody ->
  OPENAI_API_KEY p = Some apiKey -> apiKey <> [] ->
  fetch p (openai_request apiKey requestBody) = FetchResolves r ->
  upstream_body r = BodyFails e ->
  handler p ev
  = (inl {| statusCode := 500; body := JSON_stringify (error_envelope (message e)) |},
     [Fetch (openai_request apiKey requestBody);
      ConsoleError (js "Proxy function error:") (LogError e)]).
Proof.
  intros Hpost Hparse Hkey Hset Hfetch Hbody.
  rewrite (handler_fetch p ev Hpost requestBody Hparse apiKey Hkey Hset), Hfetch.
  unfold after_fetch. now rewrite Hbody.
Qed.

Lemma X3_upstream_body_unreadable_witness :
  let r := {| status := 502; statusText := js "Bad Gateway";
              upstream_body := BodyFails body_terminated |} in
  let p := platform_answering (Some (js "sk-test")) (FetchResolves r) in
  let ev := post chat_request_text in
  handler p ev
  = (inl {| statusCode := 500; body := JSON_stringify (error_envelope (js "terminated")) |},
     [Fetch (openai_request (js "sk-test") chat_request_value);
      ConsoleError (js "Proxy function error:") (LogError body_terminated)]).
Proof.
  intros r p ev.
  exact (X3_upstream_body_unreadable p ev chat_request_value (js "sk-test") r
           body_terminated
           eq_refl
           (eq_refl : JSON_parse (ToString (event_body ev)) = Some chat_request_value)
           eq_refl ltac:(discriminate) eq_refl eq_refl).
Defined.

(** What is sent and what is logged once the request is out. *)
Lemma after_fetch_trace (p : platform) (v : value) (k : jstring) (a : fetch_result) :
  fetches (snd (after_fetch p v k a)) = [openai_request k v]
  /\ (List.length (console_lines (snd (after_fetch p v k a))) <= 1)%nat
  /\ snd (after_fetch p v k a) = requests_then_lines (snd (after_fetch p v k a))
  /\ (console_lines (snd (after_fetch p v k a)) = []
      <-> statusCode (fst (after_fetch p v k a)) = 200).
Proof.
  unfold after_fetch, requests_then_lines.
  destruct a as [e | r];
    [repeat split; try (cbn; lia); cbn; discriminate|].
  destruct (upstream_body r) as [t | e];
    [|repeat split; try (cbn; lia); cbn; discriminate].
  destruct (ok r) eqn:Eok.
  - destruct (JSON_parse t); repeat split; try (cbn; lia); cbn; discriminate.
  - repeat split; try (cbn; lia); cbn; try discriminate.
    intro H. assert (Hok : ok r = true) by (apply ok_iff; lia). congruence.
Qed.

(** X4. The shape of every invocation.  Whatever the event and the platform,
    the handler returns a response, calls [fetch] at most once, writes at most
    one line to the console, and writes it after the call; it writes a line
    exactly when it answers a POST request with a status other than 200. *)
Theorem X4_one_request_one_line (p : platform) (ev : event) :
  exists resp t,
    handler p ev = (inl resp, t)
    /\ (List.length (fetches t) <= 1)%nat
    /\ (List.length (console_lines t) <= 1)%nat
    /\ t = requests_then_lines t
    /\ (console_lines t = [] <-> statusCode resp = 200 \/ httpMethod ev <> js "POST").
Proof.
  destruct (handler_paths p ev)
    as [[Hm ->] | [(Hm & _ & ->) | [(Hm & _ & _ & ->) | (v & k & Hm & _ & _ & _ & ->)]]];
    eexists _, _; (split; [reflexivity|]).
  - repeat split; try (cbn; lia); tauto.
  - repeat split; try (cbn; lia); cbn; try discriminate.
    intros [H | H]; [discriminate | contradiction].
  - repeat split; try (cbn; lia); cbn; try discriminate.
    intros [H | H]; [discriminate | contradiction].
  - destruct (after_fetch_trace p v k (fetch p (openai_request k v)))
      as (Hf & Hl & Ho & Hs).
    rewrite Hf. repeat split; try (cbn; lia); try assumption.
    + intro H. left. now apply Hs.
    + intros [H | H]; [now apply Hs | contradiction].
Qed.

(** X5. A success status means an upstream success.  If the handler returns
    a status in 200..299, the status is 200, exactly one request was sent,
    the upstream answered it with a status in 200..299 and a JSON body, and
    the body returned is [JSON.stringify] of that parsed body; nothing was
    logged. *)
Theorem X5_success_only_from_upstream (p : platform) (ev : event)
        (resp : outbound_response) (t : list effect) :
  handler p ev = (inl resp, t) ->
  200 <= statusCode resp <= 299 ->
  statusCode resp = 200
  /\ exists requestBody apiKey r T data,
       OPENAI_API_KEY p = Some apiKey /\ apiKey <> []
       /\ JSON_parse (ToString (event_body ev)) = Some requestBody
       /\ t = [Fetch (openai_request apiKey requestBody)]
       /\ fetch p (openai_request apiKey requestBody) = FetchResolves r
       /\ 200 <= status r <= 299
       /\ upstream_body r = BodyText T
       /\ JSON_parse T = Some data
       /\ body resp = JSON_stringify data.
Proof.
  intros H Hs.
  destruct (handler_paths p ev)
    as [[Hm E] | [(Hm & _ & E) | [(Hm & _ & _ & E) | (v & k & Hm & Hp & Hk & Hne & E)]]];
    rewrite E in H; injection H as <- <-; try (cbn in Hs; lia).
  unfold after_fetch in *.
  destruct (fetch p (openai_request k v)) as [e | r] eqn:Hfetch; [cbn in Hs; lia|].
  destruct (upstream_body r) as [T | e] eqn:Hbody; [|cbn in Hs; lia].
  destruct (ok r) eqn:Eok.
  - destruct (JSON_parse T) as [data|] eqn:HT; [|cbn in Hs; lia].
    split; [reflexivity|]. exists v, k, r, T, data.
    apply ok_iff in Eok. now repeat split.
  - cbn in Hs. apply ok_iff in Hs. congruence.
Qed.

Lemma X5_success_only_from_upstream_witness :
  let r := {| status := 201; statusText := js "Created";
              upstream_body := BodyText chat_response_text |} in
  let p := platform_answering (Some (js "sk-test")) (FetchResolves r) in
  let ev := post chat_request_text in
  let resp := {| statusCode := 200; body := JSON_stringify chat_response_value |} in
  let t := [Fetch (openai_request (js "sk-test") chat_request_value)] in
  handler p ev = (inl resp, t)
  /\ statusCode resp = 200
  /\ exists requestBody apiKey r T data,
       OPENAI_API_KEY p = Some apiKey /\ apiKey <> []
       /\ JSON_parse (ToString (event_body ev)) = Some requestBody
       /\ t = [Fetch (openai_request apiKey requestBody)]
       /\ fetch p (openai_request apiKey requestBody) = FetchResolves r
       /\ 200 <= status r <= 299
       /\ upstream_body r = BodyText T
       /\ JSON_parse T = Some data
       /\ body resp = JSON_stringify data.
Proof.
  intros r p ev resp t.
  assert (H : handler p ev = (inl resp, t)) by (vm_compute; reflexivity).
  split; [exact H|].
  apply (X5_success_only_from_upstream p ev resp t H). simpl; lia.
Defined.




(** X7. A POST request without a body.  The platform gives [null] for the
    body; [JSON.parse(null)] is the value [null], so the request is not
    rejected as malformed: with a non-empty key the handler sends the text
    [null] upstream, and without a key it answers with the missing-key
    error. *)
Theorem X7_null_body (p : platform) (apiKey : jstring) :
  let ev := {| httpMethod := js "POST"; event_body := None |} in
  (OPENAI_API_KEY p = Some apiKey -> apiKey <> [] ->
   fetches (snd (handler p ev)) = [openai_request apiKey JNull]
   /\ request_body (openai_request apiKey JNull) = js "null")
  /\ (falsy (OPENAI_API_KEY p) = true ->
      handler p ev
      = (inl {| statusCode := 500;
                body := JSON_stringify (error_envelope missing_key_message) |},
         [ConsoleError (js "Proxy function error:")
                       (LogError (Error missing_key_message))])).
Proof.
  intro ev. split.
  - intros Hkey Hset. split; [|reflexivity].
    now apply (handler_fetches p ev JNull apiKey).
  - intro Hf. now apply (handler_no_key p ev eq_refl JNull).
Qed.

Lemma X7_null_body_witness :
  let p := stub_platform (Some (js "sk-test")) 200 (js "OK") chat_response_text in
  let ev := {| httpMethod := js "POST"; event_body := None |} in
  fetches (snd (handler p ev)) = [openai_request (js "sk-test") JNull]
  /\ request_body (openai_request (js "sk-test") JNull) = js "null".
Proof.
  intros p ev.
  exact (proj1 (X7_null_body p (js "sk-test")) eq_refl ltac:(discriminate)).
Defined.

(** X8. What reaches the upstream.  Every request the handler sends, on any
    platform and for any event, comes from a POST whose body parsed, carries
    the configured key, which is not empty, in its Authorization header, goes
    to the fixed URL with method POST, and has a non-empty body that
    [JSON.parse] accepts: nothing is sent for another method, for a malformed
    body or without a key. *)
Theorem X8_every_request_sent (p : platform) (ev : event) (req : upstream_request) :
  In req (fetches (snd (handler p ev))) ->
  httpMethod ev = js "POST"
  /\ exists requestBody apiKey,
       JSON_parse (ToString (event_body ev)) = Some requestBody
       /\ OPENAI_API_KEY p = Some apiKey /\ apiKey <> []
       /\ req = {| url := js "https://api.openai.com/v1/chat/completions";
                   method := js "POST";
                   headers := [ (js "Content-Type", js "application/json");
                                (js "Authorization", js "Bearer " ++ apiKey) ];
                   request_body := JSON_stringify requestBody |}
       /\ valid_json (request_body req) /\ request_body req <> [].
Proof.
  intro H.
  destruct (handler_paths p ev)
    as [[Hm E] | [(Hm & _ & E) | [(Hm & _ & _ & E) | (v & k & Hm & Hp & Hk & Hne & E)]]];
    rewrite E in H; try (cbn in H; contradiction).
  cbn [snd] in H.
  destruct (after_fetch_trace p v k (fetch p (openai_request k v))) as [Hf _].
  rewrite Hf in H. destruct H as [<- | []].
  split; [exact Hm|]. exists v, k.
  repeat split; try assumption; apply JSON_stringify_valid.
Qed.

Lemma X8_every_request_sent_witness :
  let p := stub_platform (Some (js "sk-test")) 500 (js "Internal Server Error") [] in
  let ev := post spaced_request_text in
  let req := openai_request (js "sk-test") chat_request_value in
  In req (fetches (snd (handler p ev)))
  /\ httpMethod ev = js "POST"
  /\ exists requestBody apiKey,
       JSON_parse (ToString (event_body ev)) = Some requestBody
       /\ OPENAI_API_KEY p = Some apiKey /\ apiKey <> []
       /\ req = {| url := js "https://api.openai.com/v1/chat/completions";
                   method := js "POST";
                   headers := [ (js "Content-Type", js "application/json");
                                (js "Authorization", js "Bearer " ++ apiKey) ];
                   request_body := JSON_stringify requestBody |}
       /\ valid_json (request_body req) /\ request_body req <> [].
Proof.
  intros p ev req.
  assert (H : In req (fetches (snd (handler p ev)))) by (left; vm_compute; reflexivity).
  split; [exact H|]. exact (X8_every_request_sent p ev req H).
Defined.



(** What was logged once the request is out, and the response that goes with
    it. *)
Lemma after_fetch_log (p : platform) (v : value) (k : jstring) (a : fetch_result) :
  let resp := fst (after_fetch p v k a) in
  let lines := console_lines (snd (after_fetch p v k a)) in
  lines = []
  \/ (exists e, lines = [(js "Proxy function error:", LogError e)]
                /\ resp = fst (caught e))
  \/ (exists r T, lines = [(js "OpenAI API Error:", LogText T)]
                  /\ a = FetchResolves r /\ ok r = false
                  /\ resp = {| statusCode := status r;
                               body := JSON_stringify (upstream_envelope (statusText r) T) |}).
Proof.
  unfold after_fetch.
  destruct a as [e | r]; [right; left; now exists e|].
  destruct (upstream_body r) as [T | e]; [|right; left; now exists e].
  destruct (ok r) eqn:Eok.
  - destruct (JSON_parse T); [now left | right; left; now eexists].
  - right; right. now exists r, T.
Qed.

(** The same for the handler: nothing logged, a caught exception, or an
    upstream failure. *)
Lemma handler_log (p : platform) (ev : event) (resp : outbound_response)
      (t : list effect) :
  handler p ev = (inl resp, t) ->
  console_lines t = []
  \/ (exists e, console_lines t = [(js "Proxy function error:", LogError e)]
                /\ resp = fst (caught e))
  \/ (exists req r T,
         console_lines t = [(js "OpenAI API Error:", LogText T)]
         /\ fetches t = [req] /\ fetch p req = FetchResolves r /\ ok r = false
         /\ resp = {| statusCode := status r;
                      body := JSON_stringify (upstream_envelope (statusText r) T) |}).
Proof.
  intro H.
  destruct (handler_paths p ev)
    as [[Hm E] | [(Hm & _ & E) | [(Hm & _ & _ & E) | (v & k & Hm & Hp & Hk & Hne & E)]]];
    rewrite E in H; injection H as <- <-.
  - now left.
  - right; left. now eexists.
  - right; left. now eexists.
  - destruct (after_fetch_trace p v k (fetch p (openai_request k v))) as [Hf _].
    destruct (after_fetch_log p v k (fetch p (openai_request k v)))
      as [Hl | [(e & Hl & Hr) | (r & T & Hl & Ha & Hok & Hr)]].
    + now left.
    + right; left. now exists e.
    + right; right. exists (openai_request k v), r, T. now repeat split.
Qed.

(** X10. The log and the response agree.  When the handler has logged an
    exception [e] under [Proxy function error:], the response has status 500
    and its JSON body is the object whose only property is [error], with the
    message of [e].  When it has logged a text [T] under [OpenAI API Error:],
    the response has the upstream's status, which is outside 200..299, and its
    JSON body has exactly the properties [error] and [details], the latter
    equal to [T]. *)
Theorem X10_log_matches_response (p : platform) (ev : event)
        (resp : outbound_response) (t : list effect) :
  handler p ev = (inl resp, t) ->
  (forall e, In (js "Proxy function error:", LogError e) (console_lines t) ->
             statusCode resp = 500
             /\ JSON_parse (body resp) = Some (JObject [ (js "error", JString (message e)) ]))
  /\ (forall T, In (js "OpenAI API Error:", LogText T) (console_lines t) ->
                ~ (200 <= statusCode resp <= 299)
                /\ exists req r summary,
                     fetches t = [req] /\ fetch p req = FetchResolves r
                     /\ statusCode resp = status r
                     /\ JSON_parse (body resp)
                        = Some (JObject [ (js "error", JString summary);
                                          (js "details", JString T) ])).
Proof.
  intro H.
  destruct (handler_log p ev resp t H)
    as [Hl | [(e0 & Hl & ->) | (req & r & T0 & Hl & Hf & Hfetch & Hok & ->)]];
    rewrite Hl; split.
  - intros e [].
  - intros T [].
  - intros e [Hin | []]. apply (f_equal snd) in Hin. cbn [snd] in Hin.
    injection Hin as ->. split; [reflexivity | apply error_envelope_readback].
  - intros T [Hin | []]. apply (f_equal snd) in Hin. discriminate Hin.
  - intros e [Hin | []]. apply (f_equal snd) in Hin. discriminate Hin.
  - intros T [Hin | []]. apply (f_equal snd) in Hin. cbn [snd] in Hin.
    injection Hin as ->. cbn [statusCode body]. split.
    + intro Hs. apply ok_iff in Hs. congruence.
    + exists req, r, (js "OpenAI API request failed: " ++ statusText r).
      repeat split; try assumption. apply upstream_envelope_readback.
Qed.

Lemma X10_log_matches_response_witness :
  let r := {| status := 429; statusText := js "Too Many Requests";
              upstream_body := BodyText (js "rate limit reached") |} in
  let p := platform_answering (Some (js "sk-test")) (FetchResolves r) in
  let ev := post chat_request_text in
  let resp := {| statusCode := 429;
                 body := JSON_stringify
                           (upstream_envelope (js "Too Many Requests")
                                              (js "rate limit reached")) |} in
  let t := [Fetch (openai_request (js "sk-test") chat_request_value);
            ConsoleError (js "OpenAI API Error:") (LogText (js "rate limit reached"))] in
  handler p ev = (inl resp, t)
  /\ In (js "OpenAI API Error:", LogText (js "rate limit reached")) (console_lines t)
  /\ ~ (200 <= statusCode resp <= 299)
  /\ exists req r summary,
       fetches t = [req] /\ fetch p req = FetchResolves r
       /\ statusCode resp = status r
       /\ JSON_parse (body resp)
          = Some (JObject [ (js "error", JString summary);
                            (js "details", JString (js "rate limit reached")) ]).
Proof.
  intros r p ev resp t.
  assert (H : handler p ev = (inl resp, t)) by (vm_compute; reflexivity).
  assert (Hin : In (js "OpenAI API Error:", LogText (js "rate limit reached"))
                   (console_lines t)) by (left; reflexivity).
  split; [exact H|]. split; [exact Hin|].
  exact (proj2 (X10_log_matches_response p ev resp t H) _ Hin).
Defined.
